(** * Form validation and submission pipeline of [assets/js/main.js]

    A shallow embedding of [utils.debounce] and of the class [FormHandler]
    (lines 205-346 of the script), together with the part of the browser
    that the class talks to: string trimming, regular expression tests,
    the timer queue behind [setTimeout]/[clearTimeout], the inline error
    nodes, the toast elements and the pending [fetch] promises. *)

From Stdlib Require Import ZArith NArith String Ascii.
From Stdlib Require QArith_base.
From stdpp Require Import base tactics option list gmap sorting.

Local Open Scope N_scope.

(** ** JavaScript strings

    A JavaScript string is a sequence of UTF-16 code units.  Literals of
    the script are written as Rocq strings (UTF-8 bytes) and decoded by
    [js]. *)

Definition jschar := N.
Definition jsstring := list N.

Fixpoint bytes_of_string (s : string) : list N :=
  match s with
  | EmptyString => []
  | String a s' => N_of_ascii a :: bytes_of_string s'
  end.

Fixpoint utf16_of_utf8 (bs : list N) : jsstring :=
  match bs with
  | [] => []
  | b0 :: r0 =>
      if b0 <? 0x80 then b0 :: utf16_of_utf8 r0
      else
        match r0 with
        | [] => []
        | b1 :: r1 =>
            if b0 <? 0xE0 then
              ((b0 mod 32) * 64 + b1 mod 64) :: utf16_of_utf8 r1
            else
              match r1 with
              | [] => []
              | b2 :: r2 =>
                  if b0 <? 0xF0 then
                    ((b0 mod 16) * 4096 + (b1 mod 64) * 64 + b2 mod 64)
                      :: utf16_of_utf8 r2
                  else
                    match r2 with
                    | [] => []
                    | b3 :: r3 =>
                        let cp := (b0 mod 8) * 262144 + (b1 mod 64) * 4096
                                  + (b2 mod 64) * 64 + b3 mod 64 - 0x10000 in
                        (0xD800 + cp / 1024) :: (0xDC00 + cp mod 1024)
                          :: utf16_of_utf8 r3
                    end
              end
        end
  end.

Definition js (s : string) : jsstring := utf16_of_utf8 (bytes_of_string s).

Definition jseqb (a b : jsstring) : bool := bool_decide (a = b).

(** ECMAScript [WhiteSpace] and [LineTerminator] code units: the characters
    removed by [String.prototype.trim] and matched by the class escape
    [\s]. *)
Definition isWhiteSpace (c : jschar) : bool :=
  ((0x09 <=? c) && (c <=? 0x0D))
  || (c =? 0x20) || (c =? 0xA0) || (c =? 0x1680)
  || ((0x2000 <=? c) && (c <=? 0x200A))
  || (c =? 0x2028) || (c =? 0x2029) || (c =? 0x202F) || (c =? 0x205F)
  || (c =? 0x3000) || (c =? 0xFEFF).

Fixpoint trimStart (s : jsstring) : jsstring :=
  match s with
  | [] => []
  | c :: s' => if isWhiteSpace c then trimStart s' else s
  end.

Definition trimEnd (s : jsstring) : jsstring := rev (trimStart (rev s)).

Definition trim (s : jsstring) : jsstring := trimEnd (trimStart s).

(** JavaScript truthiness of a string: only the empty string is falsy. *)
Definition truthy (s : jsstring) : bool :=
  match s with [] => false | _ => true end.

(** ** Regular expressions

    The fragment of the pattern syntax used by the two literals of
    [validateField]: character classes (possibly negated) over single
    characters, [\d] and [\s]; literal characters; sequencing; and the
    quantifier [+].  Both literals are anchored by [^] and [$] and carry
    no flag, so [RegExp.prototype.test] succeeds exactly when the whole
    subject is matched; [test] below is that whole-string match, decided
    by derivatives. *)

Inductive ClassItem :=
  | CChar (c : jschar)
  | CDigit
  | CSpace.

Record CharClass := { negated : bool; items : list ClassItem }.

Definition item_mem (c : jschar) (it : ClassItem) : bool :=
  match it with
  | CChar d => c =? d
  | CDigit => (0x30 <=? c) && (c <=? 0x39)
  | CSpace => isWhiteSpace c
  end.

Definition class_mem (cc : CharClass) (c : jschar) : bool :=
  xorb (negated cc) (existsb (item_mem c) (items cc)).

Inductive Regex :=
  | RNone
  | REps
  | RChar (c : jschar)
  | RClass (cc : CharClass)
  | RSeq (r1 r2 : Regex)
  | RAlt (r1 r2 : Regex)
  | RStar (r : Regex).

Definition RPlus (r : Regex) : Regex := RSeq r (RStar r).

Fixpoint nullable (r : Regex) : bool :=
  match r with
  | RNone => false
  | REps => true
  | RChar _ => false
  | RClass _ => false
  | RSeq r1 r2 => nullable r1 && nullable r2
  | RAlt r1 r2 => nullable r1 || nullable r2
  | RStar _ => true
  end.

Fixpoint deriv (c : jschar) (r : Regex) : Regex :=
  match r with
  | RNone => RNone
  | REps => RNone
  | RChar d => if c =? d then REps else RNone
  | RClass cc => if class_mem cc c then REps else RNone
  | RSeq r1 r2 =>
      if nullable r1 then RAlt (RSeq (deriv c r1) r2) (deriv c r2)
      else RSeq (deriv c r1) r2
  | RAlt r1 r2 => RAlt (deriv c r1) (deriv c r2)
  | RStar r1 => RSeq (deriv c r1) (RStar r1)
  end.

Fixpoint test (r : Regex) (s : jsstring) : bool :=
  match s with
  | [] => nullable r
  | c :: s' => test (deriv c r) s'
  end.

(** Declarative meaning of a pattern, against which [test] is checked. *)
Inductive Matches : Regex -> jsstring -> Prop :=
  | MEps : Matches REps []
  | MChar c : Matches (RChar c) [c]
  | MClass cc c : class_mem cc c = true -> Matches (RClass cc) [c]
  | MSeq r1 r2 s1 s2 :
      Matches r1 s1 -> Matches r2 s2 -> Matches (RSeq r1 r2) (s1 ++ s2)
  | MAltL r1 r2 s : Matches r1 s -> Matches (RAlt r1 r2) s
  | MAltR r1 r2 s : Matches r2 s -> Matches (RAlt r1 r2) s
  | MStarNil r : Matches (RStar r) []
  | MStarApp r s1 s2 :
      Matches r s1 -> Matches (RStar r) s2 -> Matches (RStar r) (s1 ++ s2).

(** [[^\s@]] *)
Definition notSpaceAt : CharClass :=
  {| negated := true; items := [CSpace; CChar 0x40] |}.

(** [/^[^\s@]+@[^\s@]+\.[^\s@]+$/] *)
Definition emailRegex : Regex :=
  RSeq (RPlus (RClass notSpaceAt))
    (RSeq (RChar 0x40)
       (RSeq (RPlus (RClass notSpaceAt))
          (RSeq (RChar 0x2E) (RPlus (RClass notSpaceAt))))).

(** [[\d\s\-\+\(\)]] *)
Definition phoneClass : CharClass :=
  {| negated := false;
     items := [CDigit; CSpace; CChar 0x2D; CChar 0x2B; CChar 0x28; CChar 0x29] |}.

(** [/^[\d\s\-\+\(\)]+$/] *)
Definition phoneRegex : Regex := RPlus (RClass phoneClass).

(** ** Fields and the verdict of [validateField]

    A [Field] is an [input], [textarea] or [select] element of the form:
    its [name], its current [value], the value the control was loaded
    with ([defaultValue], restored by [form.reset()]), its [type]
    property, whether it carries the [required] attribute, whether its
    class list holds ['error'], and the node that is its parent.

    A [Node] is an element within the form, addressed from the form
    element by the indices of the children to go through, counted among
    the children that the page was loaded with: [[]] is the form itself,
    [[2; 0]] the first child of its third child.  One node lies within
    another, or is that node, when the address of the other is a prefix
    of its own. *)

Definition Node := list nat.

Record Field := {
  name : jsstring;
  value : jsstring;
  defaultValue : jsstring;
  type : jsstring;
  required : bool;
  errorClass : bool;
  parentNode : Node
}.

Record ValidationResult := { isValid : bool; message : jsstring }.

Definition msgRequired : jsstring := js "此字段为必填项".
Definition msgEmail : jsstring := js "请输入有效的邮箱地址".
Definition msgPhone : jsstring := js "请输入有效的电话号码".

(** Lines 248-275 of [validateField]: the verdict and its message. *)
Definition validate (field : Field) : ValidationResult :=
  let v := trim (value field) in
  if required field && negb (truthy v) then
    {| isValid := false; message := msgRequired |}
  else if truthy v then
    if jseqb (type field) (js "email") then
      if negb (test emailRegex v) then
        {| isValid := false; message := msgEmail |}
      else {| isValid := true; message := [] |}
    else if jseqb (type field) (js "tel") then
      if negb (test phoneRegex v) then
        {| isValid := false; message := msgPhone |}
      else {| isValid := true; message := [] |}
    else {| isValid := true; message := [] |}
  else {| isValid := true; message := [] |}.

(** The shape [local@domain.tld] in the words of the specification: a
    non-empty local part, an [@], a non-empty domain label, a dot and a
    non-empty rest, none of them holding whitespace or [@]. *)
Definition plainChar (c : jschar) : Prop :=
  isWhiteSpace c = false /\ c <> 0x40.

Definition email_shape (s : jsstring) : Prop :=
  exists loc dom tld : jsstring,
    s = loc ++ [0x40] ++ dom ++ [0x2E] ++ tld
    /\ loc <> [] /\ dom <> [] /\ tld <> []
    /\ Forall plainChar loc /\ Forall plainChar dom /\ Forall plainChar tld.

(** The characters a telephone number may hold, in the words of the
    specification: digits, whitespace, [-], [+], [(] and [)]. *)
Definition phoneChar (c : jschar) : Prop :=
  (0x30 <= c <= 0x39) \/ isWhiteSpace c = true
  \/ c = 0x2D \/ c = 0x2B \/ c = 0x28 \/ c = 0x29.

(** ** The page

    One form and the parts of the document and of the event loop that
    [FormHandler] touches.  Closures handed to [setTimeout] are named by
    a [Callback]; the JavaScript objects they capture are referred to by
    index (fields, debounce closures) or by identifier (toasts). *)

Inductive Callback :=
  | CbLater (slot : nat)
  | CbShow (m : nat)
  | CbHide (m : nat)
  | CbRemove (m : nat).

#[global] Instance Callback_eq_dec : EqDecision Callback.
Proof. solve_decision. Defined.

Record Timer := { timerId : nat; due : Z; callback : Callback }.

Record Button := { disabled : bool; textContent : jsstring }.

Record Toast := {
  toastId : nat;
  toastText : jsstring;
  className : jsstring;
  shown : bool
}.

(** What the promise returned by [fetch] settles to: a response with its
    [ok] flag, or a rejection. *)
Inductive Response :=
  | Resolved (ok : bool)
  | Rejected.

(** - [clock], [timers], [nextTimerId]: the timer queue of the window;
    - [timeouts]: the variable [timeout] of each closure made by
      [utils.debounce], by closure number;
    - [fields], [action], [submitBtn]: the form: its controls in document
      order, its [action] property and the element selected by
      [[type="submit"]], if there is one;
    - [fieldErrors]: the [.field-error] nodes within the form, in
      document order, each with the node it is a child of and its text;
    - [messages], [nextMessage]: the [.form-message] elements attached
      to the body;
    - [pending]: the suspended calls of [submitForm], each with the
      [originalText] it captured;
    - [fetched]: the calls made to [fetch], with the URL and with the
      controls that the form data was built from;
    - [validated]: the runs of [validateField], with time, field and the
      value that was read. *)
Record Page := {
  clock : Z;
  timers : list Timer;
  nextTimerId : nat;
  timeouts : gmap nat nat;
  fields : list Field;
  action : jsstring;
  submitBtn : option Button;
  fieldErrors : list (Node * jsstring);
  messages : list Toast;
  nextMessage : nat;
  pending : list jsstring;
  fetched : list (jsstring * list Field);
  validated : list (Z * nat * jsstring)
}.

Definition set_clock (x : Z) (p : Page) : Page :=
  {| clock := x; timers := timers p; nextTimerId := nextTimerId p;
     timeouts := timeouts p; fields := fields p; action := action p;
     submitBtn := submitBtn p; fieldErrors := fieldErrors p;
     messages := messages p; nextMessage := nextMessage p;
     pending := pending p; fetched := fetched p; validated := validated p |}.

Definition set_timers (x : list Timer) (p : Page) : Page :=
  {| clock := clock p; timers := x; nextTimerId := nextTimerId p;
     timeouts := timeouts p; fields := fields p; action := action p;
     submitBtn := submitBtn p; fieldErrors := fieldErrors p;
     messages := messages p; nextMessage := nextMessage p;
     pending := pending p; fetched := fetched p; validated := validated p |}.

Definition set_nextTimerId (x : nat) (p : Page) : Page :=
  {| clock := clock p; timers := timers p; nextTimerId := x;
     timeouts := timeouts p; fields := fields p; action := action p;
     submitBtn := submitBtn p; fieldErrors := fieldErrors p;
     messages := messages p; nextMessage := nextMessage p;
     pending := pending p; fetched := fetched p; validated := validated p |}.

Definition set_timeouts (x : gmap nat nat) (p : Page) : Page :=
  {| clock := clock p; timers := timers p; nextTimerId := nextTimerId p;
     timeouts := x; fields := fields p; action := action p;
     submitBtn := submitBtn p; fieldErrors := fieldErrors p;
     messages := messages p; nextMessage := nextMessage p;
     pending := pending p; fetched := fetched p; validated := validated p |}.

Definition set_fields (x : list Field) (p : Page) : Page :=
  {| clock := clock p; timers := timers p; nextTimerId := nextTimerId p;
     timeouts := timeouts p; fields := x; action := action p;
     submitBtn := submitBtn p; fieldErrors := fieldErrors p;
     messages := messages p; nextMessage := nextMessage p;
     pending := pending p; fetched := fetched p; validated := validated p |}.

Definition set_submitBtn (x : option Button) (p : Page) : Page :=
  {| clock := clock p; timers := timers p; nextTimerId := nextTimerId p;
     timeouts := timeouts p; fields := fields p; action := action p;
     submitBtn := x; fieldErrors := fieldErrors p; messages := messages p;
     nextMessage := nextMessage p; pending := pending p;
     fetched := fetched p; validated := validated p |}.

Definition set_fieldErrors (x : list (Node * jsstring)) (p : Page) : Page :=
  {| clock := clock p; timers := timers p; nextTimerId := nextTimerId p;
     timeouts := timeouts p; fields := fields p; action := action p;
     submitBtn := submitBtn p; fieldErrors := x; messages := messages p;
     nextMessage := nextMessage p; pending := pending p;
     fetched := fetched p; validated := validated p |}.

Definition set_messages (x : list Toast) (p : Page) : Page :=
  {| clock := clock p; timers := timers p; nextTimerId := nextTimerId p;
     timeouts := timeouts p; fields := fields p; action := action p;
     submitBtn := submitBtn p; fieldErrors := fieldErrors p; messages := x;
     nextMessage := nextMessage p; pending := pending p;
     fetched := fetched p; validated := validated p |}.

Definition set_nextMessage (x : nat) (p : Page) : Page :=
  {| clock := clock p; timers := timers p; nextTimerId := nextTimerId p;
     timeouts := timeouts p; fields := fields p; action := action p;
     submitBtn := submitBtn p; fieldErrors := fieldErrors p;
     messages := messages p; nextMessage := x; pending := pending p;
     fetched := fetched p; validated := validated p |}.

Definition set_pending (x : list jsstring) (p : Page) : Page :=
  {| clock := clock p; timers := timers p; nextTimerId := nextTimerId p;
     timeouts := timeouts p; fields := fields p; action := action p;
     submitBtn := submitBtn p; fieldErrors := fieldErrors p;
     messages := messages p; nextMessage := nextMessage p; pending := x;
     fetched := fetched p; validated := validated p |}.

Definition set_fetched (x : list (jsstring * list Field)) (p : Page) : Page :=
  {| clock := clock p; timers := timers p; nextTimerId := nextTimerId p;
     timeouts := timeouts p; fields := fields p; action := action p;
     submitBtn := submitBtn p; fieldErrors := fieldErrors p;
     messages := messages p; nextMessage := nextMessage p;
     pending := pending p; fetched := x; validated := validated p |}.

Definition set_validated (x : list (Z * nat * jsstring)) (p : Page) : Page :=
  {| clock := clock p; timers := timers p; nextTimerId := nextTimerId p;
     timeouts := timeouts p; fields := fields p; action := action p;
     submitBtn := submitBtn p; fieldErrors := fieldErrors p;
     messages := messages p; nextMessage := nextMessage p;
     pending := pending p; fetched := fetched p; validated := x |}.

Local Open Scope Z_scope.

(** *** Timers *)

(** [setTimeout(cb, delay)]: a fresh identifier, the callback queued for
    [delay] milliseconds from now. *)
Definition setTimeout (cb : Callback) (delay : Z) (p : Page) : nat * Page :=
  let id := nextTimerId p in
  (id,
   set_nextTimerId (S id)
     (set_timers
        (timers p ++ [{| timerId := id; due := clock p + delay; callback := cb |}])
        p)).

(** [clearTimeout(id)]; [None] is [undefined], for which nothing is done. *)
Definition clearTimeout (id : option nat) (p : Page) : Page :=
  match id with
  | None => p
  | Some i => set_timers (filter (fun t => timerId t <> i) (timers p)) p
  end.

(** *** [FormHandler.showFieldValidation] (lines 281-300) *)

Definition setErrorClass (b : bool) (f : Field) : Field :=
  {| name := name f; value := value f; defaultValue := defaultValue f;
     type := type f; required := required f; errorClass := b;
     parentNode := parentNode f |}.

(** Document order of two error nodes, told from the nodes they are
    children of.  The script appends an error node to its parent
    (line 288), so the node is the last child of that parent: it comes
    after everything within the children that the parent was loaded
    with, the error nodes appended there included, and before whatever
    follows the parent. *)
Fixpoint errorBefore (a b : Node) : bool :=
  match a, b with
  | [], _ => false
  | _ :: _, [] => true
  | x :: a', y :: b' =>
      if (x <? y)%nat then true
      else if (y <? x)%nat then false
      else errorBefore a' b'
  end.

(** [parent.querySelector('.field-error')] (line 282): the first error
    node in document order among those within [parent], with its place
    in the list. *)
Definition querySelector (parent : Node) (errs : list (Node * jsstring))
    : option (nat * (Node * jsstring)) :=
  list_find (fun e => parent `prefix_of` fst e) errs.

(** [parent.appendChild(error)] (line 288), [error] being a new error
    node with the text [message]. *)
Fixpoint appendChild (parent : Node) (message : jsstring)
    (errs : list (Node * jsstring)) : list (Node * jsstring) :=
  match errs with
  | [] => [(parent, message)]
  | e :: errs' =>
      if errorBefore parent (fst e) then (parent, message) :: errs
      else e :: appendChild parent message errs'
  end.

Definition showFieldValidation
    (i : nat) (field : Field) (isValid : bool) (message : jsstring)
    (p : Page) : Page :=
  let errorElement := querySelector (parentNode field) (fieldErrors p) in
  if negb isValid then
    let p1 := set_fields (<[i := setErrorClass true field]> (fields p)) p in
    match errorElement with
    | None =>
        set_fieldErrors
          (appendChild (parentNode field) message (fieldErrors p1)) p1
    | Some (k, error) =>
        set_fieldErrors (<[k := (fst error, message)]> (fieldErrors p1)) p1
    end
  else
    let p1 := set_fields (<[i := setErrorClass false field]> (fields p)) p in
    match errorElement with
    | Some (k, _) => set_fieldErrors (delete k (fieldErrors p1)) p1
    | None => p1
    end.

(** *** [FormHandler.validateField] (lines 247-279)

    The field is the [i]-th control of the form.  Listeners are attached
    to existing controls only, so the lookup succeeds in every run. *)
Definition validateField (i : nat) (p : Page) : bool * Page :=
  match fields p !! i with
  | None => (true, p)
  | Some field =>
      let r := validate field in
      let p1 :=
        set_validated (validated p ++ [(clock p, i, value field)]) p in
      (isValid r, showFieldValidation i field (isValid r) (message r) p1)
  end.

(** *** [FormHandler.validateForm] (lines 234-245) *)
Definition validateForm (p : Page) : bool * Page :=
  foldl
    (fun acc i =>
       let '(ok, q) := validateField i (snd acc) in
       (if negb ok then false else fst acc, q))
    (true, p) (seq 0 (length (fields p))).

(** *** [FormHandler.showMessage] (lines 330-345) *)
Definition showMessage (text type : jsstring) (p : Page) : Page :=
  let m := nextMessage p in
  let message :=
    {| toastId := m; toastText := text;
       className := js "form-message " ++ type; shown := false |} in
  let p1 := set_nextMessage (S m) (set_messages (messages p ++ [message]) p) in
  let p2 := snd (setTimeout (CbShow m) 100 p1) in
  snd (setTimeout (CbHide m) 3000 p2).

Definition setShown (b : bool) (x : Toast) : Toast :=
  {| toastId := toastId x; toastText := toastText x;
     className := className x; shown := b |}.

Definition updateToast (m : nat) (b : bool) (p : Page) : Page :=
  set_messages
    ((fun x => if decide (toastId x = m) then setShown b x else x)
       <$> messages p) p.

Definition removeToast (m : nat) (p : Page) : Page :=
  set_messages (filter (fun x => toastId x <> m) (messages p)) p.

(** *** [FormHandler.submitForm] (lines 302-328)

    The function is asynchronous.  [submitForm] is its run up to the
    [await]: with no [[type="submit"]] element the read of
    [submitBtn.textContent] (line 304) throws before the [try] and the
    call ends there; otherwise the button is put in its busy state,
    [fetch] is called and the rest of the body is suspended. *)

(** [new FormData(form)] (line 310).  The browser builds the entries
    from the controls of the form as they are at that moment; it leaves
    out the controls that have no name, that are disabled, or that are
    boxes not checked, and class lists play no part.  The model keeps
    the controls the entries are built from, without their class
    lists. *)
Definition FormData (p : Page) : list Field :=
  setErrorClass false <$> fields p.

Definition busyText : jsstring := js "提交中...".

Definition submitForm (p : Page) : Page :=
  match submitBtn p with
  | None => p
  | Some submitBtn0 =>
      let originalText := textContent submitBtn0 in
      let p1 :=
        set_submitBtn (Some {| disabled := true; textContent := busyText |}) p in
      let formData := FormData p1 in
      let url := if truthy (action p1) then action p1 else js "/contact" in
      set_pending (pending p1 ++ [originalText])
        (set_fetched (fetched p1 ++ [(url, formData)]) p1)
  end.

(** [form.reset()]: every control goes back to its default value. *)
Definition resetField (f : Field) : Field :=
  {| name := name f; value := defaultValue f; defaultValue := defaultValue f;
     type := type f; required := required f; errorClass := errorClass f;
     parentNode := parentNode f |}.

Definition reset (p : Page) : Page := set_fields (resetField <$> fields p) p.

(** The rest of [submitForm], run when the promise of [fetch] settles
    (lines 316-327): the branches of the [try], the [catch] reached by a
    rejection or by the [throw] of line 320, and the [finally]. *)
Definition submitForm_resume
    (originalText : jsstring) (resp : Response) (p : Page) : Page :=
  let p1 :=
    match resp with
    | Resolved true =>
        reset (showMessage (js "表单提交成功！") (js "success") p)
    | Resolved false =>
        showMessage (js "提交失败，请稍后重试") (js "error") p
    | Rejected =>
        showMessage (js "提交失败，请稍后重试") (js "error") p
    end in
  set_submitBtn (Some {| disabled := false; textContent := originalText |}) p1.

(** *** [FormHandler.handleSubmit] (lines 225-232) *)
Definition handleSubmit (p : Page) : Page :=
  let '(ok, p1) := validateForm p in
  if ok then submitForm p1 else p1.

(** *** [utils.debounce] (lines 12-22)

    [executedFunction slot wait] is a call of the function returned by
    [debounce(func, wait)], [slot] naming the closure; [later slot func]
    is the callback it queued. *)
Definition executedFunction (slot : nat) (wait : Z) (p : Page) : Page :=
  let p1 := clearTimeout (timeouts p !! slot) p in
  let '(id, p2) := setTimeout (CbLater slot) wait p1 in
  set_timeouts (<[slot := id]> (timeouts p2)) p2.

Definition later (slot : nat) (func : Page -> Page) (p : Page) : Page :=
  func (clearTimeout (timeouts p !! slot) p).

(** *** The event loop *)

(** The closures queued by the script: [later] of the debounced validator
    of field [slot] (line 220), and the three arrow functions of
    [showMessage]. *)
Definition run_callback (cb : Callback) (p : Page) : Page :=
  match cb with
  | CbLater slot => later slot (fun q => snd (validateField slot q)) p
  | CbShow m => updateToast m true p
  | CbHide m => snd (setTimeout (CbRemove m) 300 (updateToast m false p))
  | CbRemove m => removeToast m p
  end.

(** The timer to run next among those due by [limit]: the earliest, and
    among equals the one queued first. *)
Fixpoint nextDue (limit : Z) (ts : list Timer) : option Timer :=
  match ts with
  | [] => None
  | t :: ts' =>
      match nextDue limit ts' with
      | Some u =>
          if (due t <=? limit) && (due t <=? due u) then Some t else Some u
      | None => if due t <=? limit then Some t else None
      end
  end.

Definition fire (t : Timer) (p : Page) : Page :=
  run_callback (callback t)
    (set_clock (Z.max (clock p) (due t))
       (set_timers (filter (fun u => timerId u <> timerId t) (timers p)) p)).

Definition weight (t : Timer) : nat :=
  match callback t with CbHide _ => 2 | _ => 1 end.

Definition fuel (ts : list Timer) : nat := sum_list_with weight ts.

Fixpoint advance_fuel (n : nat) (limit : Z) (p : Page) : Page :=
  match n with
  | O => p
  | S n' =>
      match nextDue limit (timers p) with
      | None => p
      | Some t => advance_fuel n' limit (fire t p)
      end
  end.

(** Let time pass until [limit]: every timer due by then runs, in order. *)
Definition advance (limit : Z) (p : Page) : Page :=
  let q := advance_fuel (fuel (timers p)) limit p in
  set_clock (Z.max (clock q) limit) q.

(** What the user and the network do: leave a field, edit a field
    (the new value is in place when the [input] event is dispatched),
    submit the form, and settle the [k]-th pending [fetch]. *)
Inductive Event :=
  | Blur (i : nat)
  | Input (i : nat) (v : jsstring)
  | Submit
  | Settle (k : nat) (resp : Response).

Definition setValue (v : jsstring) (f : Field) : Field :=
  {| name := name f; value := v; defaultValue := defaultValue f;
     type := type f; required := required f; errorClass := errorClass f;
     parentNode := parentNode f |}.

(** The listeners installed by [FormHandler.init] (lines 212-223). *)
Definition handle (e : Event) (p : Page) : Page :=
  match e with
  | Blur i => snd (validateField i p)
  | Input i v =>
      match fields p !! i with
      | None => p
      | Some f =>
          executedFunction i 300 (set_fields (<[i := setValue v f]> (fields p)) p)
      end
  | Submit => handleSubmit p
  | Settle k resp =>
      match pending p !! k with
      | None => p
      | Some originalText =>
          submitForm_resume originalText resp
            (set_pending (delete k (pending p)) p)
      end
  end.

Definition dispatch (p : Page) (te : Z * Event) : Page :=
  handle (snd te) (advance (fst te) p).

Definition run (evs : list (Z * Event)) (p : Page) : Page :=
  foldl dispatch p evs.

(** A freshly loaded page. *)
Definition load (fs : list Field) (act : jsstring) (btn : option Button) : Page :=
  {| clock := 0; timers := []; nextTimerId := 1; timeouts := ∅;
     fields := fs; action := act; submitBtn := btn; fieldErrors := [];
     messages := []; nextMessage := 0; pending := []; fetched := [];
     validated := [] |}.

(** A field whose default value is empty, alone in a wrapper that is the
    child [parent] of the form. *)
Definition mkField (v ty : string) (req : bool) (parent : nat) : Field :=
  {| name := js "field"; value := js v; defaultValue := []; type := js ty;
     required := req; errorClass := false; parentNode := [parent] |}.

Definition findToast (m : nat) (p : Page) : option Toast :=
  head (filter (fun x => toastId x = m) (messages p)).

(** *** Well-formed timer queues

    What every page reached from [load] satisfies: timer identifiers are
    distinct and below the next one to be handed out, no timer is due in
    the past, the [timeout] variable of a debounce closure names a queued
    timer exactly when that timer is the closure's own [later], and toast
    identifiers in use are below the next one. *)

Definition toastCallback (m : nat) (cb : Callback) : Prop :=
  cb = CbShow m \/ cb = CbHide m \/ cb = CbRemove m.

Record wf (p : Page) : Prop := {
  wf_nodup : NoDup (timerId <$> timers p);
  wf_fresh : forall t, t ∈ timers p -> (timerId t < nextTimerId p)%nat;
  wf_due : forall t, t ∈ timers p -> clock p <= due t;
  wf_slot_fresh :
    forall s id, timeouts p !! s = Some id -> (id < nextTimerId p)%nat;
  wf_slot :
    forall t s, t ∈ timers p ->
      timeouts p !! s = Some (timerId t) <-> callback t = CbLater s;
  wf_toast : forall x, x ∈ messages p -> (toastId x < nextMessage p)%nat;
  wf_toast_timer :
    forall t m, t ∈ timers p -> toastCallback m (callback t) ->
      (m < nextMessage p)%nat
}.

(** *** Observations used by the statements *)

(** The states of the controller: a submission is under way while a
    call of [submitForm] is suspended on its [fetch]. *)
Inductive ControllerState := Idle | Submitting.

Definition controllerState (p : Page) : ControllerState :=
  match pending p with [] => Idle | _ => Submitting end.

(** The error node found from [parent], if there is one. *)
Definition found (parent : Node) (errs : list (Node * jsstring))
    : option (Node * jsstring) :=
  snd <$> querySelector parent errs.

(** The inline error shown for a field: the text of the [.field-error]
    node found from its parent, if there is one. *)
Definition displayed (p : Page) (f : Field) : option jsstring :=
  snd <$> found (parentNode f) (fieldErrors p).

(** The inline error a verdict calls for. *)
Definition expected (r : ValidationResult) : option jsstring :=
  if isValid r then None else Some (message r).

(** The value read by the last run of [validateField] on field [i]. *)
Definition lastValidated (i : nat) (p : Page) : option jsstring :=
  snd <$> last (filter (fun e => snd (fst e) = i) (validated p)).

(** A field's inline error agrees with the verdict on its current value
    whenever that value is the one the last validation of the field
    read. *)
Definition inSync (p : Page) : Prop :=
  forall i f,
    fields p !! i = Some f ->
    lastValidated i p = Some (value f) ->
    displayed p f = expected (validate f).

(** The runs of the validator on field [i], with their times. *)
Definition validationsOf (i : nat) (p : Page) : list (Z * jsstring) :=
  (fun e => (fst (fst e), snd e))
    <$> filter (fun e => snd (fst e) = i) (validated p).

(** The debounce closure of field [i] has no [later] queued. *)
Definition quiet (i : nat) (p : Page) : Prop :=
  forall t, t ∈ timers p -> callback t <> CbLater i.

(** The edits of one field as events. *)
Definition edits (i : nat) (es : list (Z * jsstring)) : list (Z * Event) :=
  (fun e => (fst e, Input i (snd e))) <$> es.

(** Each edit comes less than [gap] after the one before it. *)
Fixpoint rapidAfter (gap prev : Z) (es : list (Z * jsstring)) : Prop :=
  match es with
  | [] => True
  | e :: es' => prev <= fst e < prev + gap /\ rapidAfter gap (fst e) es'
  end.

(** The debounce closure of field [i] has its [later] queued for [d]. *)
Definition armed (i : nat) (d : Z) (p : Page) : Prop :=
  exists t, t ∈ timers p /\ callback t = CbLater i /\ due t = d.

(** A field without its class list: what no listener but the user's
    edits and [form.reset()] changes. *)
Definition bare (f : Field) : Field := setErrorClass false f.

(** The stages of the toast [m] created at [t0], told by its element and
    by the timers queued for it: created and awaiting [show]; shown and
    awaiting the callback that hides it; fading and awaiting removal;
    removed. *)
Definition toastTimer (m : nat) (t : Timer) : Prop :=
  toastCallback m (callback t).

Inductive ToastStage (m : nat) (x : Toast) (t0 : Z) (p : Page) : Prop :=
  | StCreated (ts th : Timer) :
      findToast m p = Some x ->
      ts ∈ timers p -> callback ts = CbShow m -> due ts = t0 + 100 ->
      th ∈ timers p -> callback th = CbHide m -> due th = t0 + 3000 ->
      (forall t, t ∈ timers p -> toastTimer m t -> t = ts \/ t = th) ->
      ToastStage m x t0 p
  | StShown (th : Timer) :
      findToast m p = Some (setShown true x) ->
      t0 + 100 <= clock p ->
      th ∈ timers p -> callback th = CbHide m -> due th = t0 + 3000 ->
      (forall t, t ∈ timers p -> toastTimer m t -> t = th) ->
      ToastStage m x t0 p
  | StFading (tr : Timer) :
      findToast m p = Some (setShown false x) ->
      t0 + 3000 <= clock p ->
      tr ∈ timers p -> callback tr = CbRemove m -> due tr = t0 + 3300 ->
      (forall t, t ∈ timers p -> toastTimer m t -> t = tr) ->
      ToastStage m x t0 p
  | StRemoved :
      findToast m p = None ->
      t0 + 3300 <= clock p ->
      (forall t, t ∈ timers p -> ~ toastTimer m t) ->
      ToastStage m x t0 p.

(** The fields have parents apart from one another: no field's parent
    is the parent of another field or lies within it. *)
Definition apart (fs : list Field) : Prop :=
  forall i j f g,
    fs !! i = Some f -> fs !! j = Some g ->
    parentNode f `prefix_of` parentNode g -> i = j.

(** What the listeners keep on a form whose fields have parents apart
    from one another: every error node is the child of a field's
    parent, no node has two of them, and the inline error found from a
    field's parent is the one called for by the verdict on the value
    that the field's last validation read. *)
Definition syncInv (p : Page) : Prop :=
  apart (fields p)
  /\ (forall e, e ∈ fieldErrors p -> fst e ∈ parentNode <$> fields p)
  /\ NoDup (fst <$> fieldErrors p)
  /\ forall i f v,
       fields p !! i = Some f ->
       lastValidated i p = Some v ->
       displayed p f = expected (validate (setValue v f)).

(** Whitespace, as a predicate. *)
Definition white (c : jschar) : Prop := isWhiteSpace c = true.

(** The verdict on a field that passes. *)
Definition valid : ValidationResult := {| isValid := true; message := [] |}.

(** Every field of the form is valid. *)
Definition allValid (p : Page) : bool :=
  forallb (fun f => isValid (validate f)) (fields p).

(** The URL handed to [fetch]: [form.action || '/contact']. *)
Definition target (p : Page) : jsstring :=
  if truthy (action p) then action p else js "/contact".

(** What [validateField] and the timers leave alone. *)
Record sameForm (p q : Page) : Prop := {
  sf_fields : bare <$> fields q = bare <$> fields p;
  sf_action : action q = action p;
  sf_button : submitBtn q = submitBtn p;
  sf_pending : pending q = pending p;
  sf_fetched : fetched q = fetched p;
  sf_next : nextMessage q = nextMessage p
}.

(** What [validateField] leaves alone of the event loop and the toasts. *)
Record sameLoop (p q : Page) : Prop := {
  sl_clock : clock q = clock p;
  sl_timers : timers q = timers p;
  sl_messages : messages q = messages p;
  sl_next : nextMessage q = nextMessage p
}.

(** The toast that [showMessage text kind] attaches to page [p]. *)
Definition toast (p : Page) (text kind : string) : Toast :=
  {| toastId := nextMessage p; toastText := js text;
     className := js "form-message " ++ js kind; shown := false |}.

(** *** Sample forms *)

Definition sendButton : Button :=
  {| disabled := false; textContent := js "Send" |}.

Definition twoFields : list Field :=
  [mkField "" "text" true 1; mkField "a@b.co" "email" true 2].

(** A field in a wrapper and, before it, a field in a wrapper within
    that wrapper. *)
Definition innerField : Field :=
  {| name := js "inner"; value := []; defaultValue := [];
     type := js "text"; required := true; errorClass := false;
     parentNode := [3%nat; 0%nat] |}.

Definition outerField : Field :=
  {| name := js "outer"; value := js "x"; defaultValue := [];
     type := js "text"; required := false; errorClass := false;
     parentNode := [3%nat] |}.

Definition nestedFields : list Field := [innerField; outerField].

Definition topicField : Field :=
  {| name := js "topic"; value := js "sales"; defaultValue := js "general";
     type := js "select-one"; required := true; errorClass := false;
     parentNode := [1%nat] |}.

(** ** Further observations on the debounced validator *)

(** Times that do not decrease, none before [from]. *)
Fixpoint ascendingFrom (from : Z) (ts : list Z) : Prop :=
  match ts with
  | [] => True
  | t :: ts' => from <= t /\ ascendingFrom t ts'
  end.

(** The validations that a sequence of edits of one field leads to: one
    for every edit that no other edit follows within [gap], made [gap]
    after that edit on the value it left. *)
Fixpoint settledEdits (gap : Z) (es : list (Z * jsstring))
    : list (Z * jsstring) :=
  match es with
  | [] => []
  | e :: es' =>
      match es' with
      | [] => [(fst e + gap, snd e)]
      | e' :: _ =>
          if fst e + gap <=? fst e' then
            (fst e + gap, snd e) :: settledEdits gap es'
          else settledEdits gap es'
      end
  end.

(** Each time comes [gap] or more after the one before it. *)
Fixpoint spacedAfter (gap prev : Z) (ts : list Z) : Prop :=
  match ts with
  | [] => True
  | t :: ts' => prev + gap <= t /\ spacedAfter gap t ts'
  end.

(** An event that leaves or edits a field other than [i]. *)
Definition otherField (i : nat) (e : Event) : Prop :=
  match e with
  | Blur j => j <> i
  | Input j _ => j <> i
  | Submit => False
  | Settle _ _ => False
  end.

(** ** [utils.throttle] (lines 25-36)

    One closure made by [throttle(func, limit)]: its variable
    [inThrottle] ([undefined], which is falsy, until the first call), the
    timers it has queued, each of them running [() => inThrottle = false]
    when due, the state [func] works on, and the calls of [func] made so
    far with their times.  [func] is given by its effect on that state;
    it queues no timer of its own. *)
Module Throttle.

Record State (S A : Type) := {
  clock : Z;
  inThrottle : bool;
  resets : list Z;
  user : S;
  ran : list (Z * A)
}.
Arguments clock {S A}.
Arguments inThrottle {S A}.
Arguments resets {S A}.
Arguments user {S A}.
Arguments ran {S A}.

Section Closure.
Context {S A : Type}.
Variable func : A -> S -> S.
Variable limit : Z.

(** Let time pass until [t]: the timers due by then run. *)
Definition advance (t : Z) (st : State S A) : State S A :=
  {| clock := Z.max (clock st) t;
     inThrottle :=
       if existsb (fun d => d <=? t) (resets st) then false
       else inThrottle st;
     resets := filter (fun d => t < d) (resets st);
     user := user st;
     ran := ran st |}.

(** A call of the returned function (lines 27-35). *)
Definition call (a : A) (st : State S A) : State S A :=
  if negb (inThrottle st) then
    {| clock := clock st;
       inThrottle := true;
       resets := resets st ++ [clock st + limit];
       user := func a (user st);
       ran := ran st ++ [(clock st, a)] |}
  else st.

Definition dispatch (st : State S A) (e : Z * A) : State S A :=
  call (snd e) (advance (fst e) st).

Definition run (evs : list (Z * A)) (st : State S A) : State S A :=
  foldl dispatch st evs.

(** The closure as [throttle] returns it. *)
Definition fresh (s : S) : State S A :=
  {| clock := 0; inThrottle := false; resets := []; user := s; ran := [] |}.

(** The calls that get through, told from the times alone: the first,
    and then each one made [limit] or more after the last that got
    through. *)
Fixpoint kept (last : option Z) (evs : list (Z * A)) : list (Z * A) :=
  match evs with
  | [] => []
  | e :: evs' =>
      if match last with
         | None => true
         | Some l => l + limit <=? fst e
         end
      then e :: kept (Some (fst e)) evs'
      else kept last evs'
  end.

(** How the closure stands: it has let no call through yet, or the
    last one it let through was at [l] and the timer of that call is
    either still queued or has run. *)
Definition inv (last : option Z) (st : State S A) : Prop :=
  match last with
  | None => inThrottle st = false /\ resets st = []
  | Some l =>
      (inThrottle st = true /\ resets st = [l + limit]
       /\ clock st < l + limit)
      \/ (inThrottle st = false /\ resets st = []
          /\ l + limit <= clock st)
  end.
End Closure.

End Throttle.

(** ** The back-to-top button of [initializeApp] (lines 604-641)

    The inline style of the button, and the function handed to
    [throttle] with a limit of 100 ms; [scrollY] is what [window.scrollY]
    holds when the function runs. *)
Module BackToTop.

Record Style := { opacity : jsstring; visibility : jsstring }.

Definition created : Style :=
  {| opacity := js "0"; visibility := js "hidden" |}.

Definition toggleBackToTop (scrollY : QArith_base.Q) (st : Style) : Style :=
  if QArith_base.Qlt_le_dec (QArith_base.Qmake 300 1) scrollY then
    {| opacity := js "1"; visibility := js "visible" |}
  else {| opacity := js "0"; visibility := js "hidden" |}.

Definition limit : Z := 100.

End BackToTop.

(** ** Scroll depth tracking of [SEOOptimizer.trackUserBehavior]
    (lines 538-557)

    [Num] is what [Math.round] can return: a whole number, an infinity or
    [NaN].  [trackScroll] is the function handed to [throttle] with a
    limit of 1000 ms, given the rounded percentage and whether [gtag] is
    defined when it runs; [sent] lists the [percent_scrolled] values of
    the events passed to [gtag]. *)
Module ScrollDepth.

Inductive Num := Finite (z : Z) | PosInf | NegInf | NaN.

(** [a > b] on numbers. *)
Definition gt (a b : Num) : bool :=
  match a, b with
  | NaN, _ | _, NaN => false
  | PosInf, PosInf => false
  | PosInf, _ => true
  | _, PosInf => false
  | NegInf, _ => false
  | Finite _, NegInf => true
  | Finite x, Finite y => y <? x
  end.

(** [a % 25 === 0]; the remainder of an infinity or of [NaN] is [NaN]. *)
Definition multipleOf25 (a : Num) : bool :=
  match a with
  | Finite x => Z.rem x 25 =? 0
  | _ => false
  end.

Record State := { maxScroll : Num; sent : list Num }.

Definition created : State := {| maxScroll := Finite 0; sent := [] |}.

Definition trackScroll (a : bool * Num) (st : State) : State :=
  let '(gtagDefined, scrollPercent) := a in
  if gt scrollPercent (maxScroll st) then
    {| maxScroll := scrollPercent;
       sent :=
         if gtagDefined && multipleOf25 scrollPercent
         then sent st ++ [scrollPercent] else sent st |}
  else st.

Definition limit : Z := 1000.

(** [z <= m], told on a whole number and a number. *)
Definition below (z : Z) (m : Num) : Prop :=
  match m with
  | Finite x => z <= x
  | PosInf => True
  | _ => False
  end.

(** What every run of [trackScroll] keeps: the depths sent are whole
    numbers, positive multiples of 25 in strictly increasing order, none
    above the greatest depth seen. *)
Definition inv (st : State) : Prop :=
  exists zs : list Z,
    sent st = Finite <$> zs
    /\ StronglySorted Z.lt zs
    /\ Forall (fun z => 0 < z /\ Z.rem z 25 = 0 /\ below z (maxScroll st)) zs
    /\ below 0 (maxScroll st).

End ScrollDepth.

(** ** [MobileMenu] (lines 60-114)

    The two elements the constructor looks up, if the document has them:
    the menu button with its class ['active'] and its attribute
    [aria-expanded], and the navigation with its class ['active']; the
    inline [overflow] of the body; and the field [isOpen]. *)
Module MobileMenu.

Record Button := { btnActive : bool; ariaExpanded : option jsstring }.

Record State := {
  menuBtn : option Button;
  nav : option bool;
  overflow : jsstring;
  isOpen : bool
}.

(** [open()] (lines 99-105) *)
Definition open (st : State) : State :=
  {| menuBtn :=
       (fun _ => {| btnActive := true; ariaExpanded := Some (js "true") |})
         <$> menuBtn st;
     nav := (fun _ => true) <$> nav st;
     overflow := js "hidden";
     isOpen := true |}.

(** [close()] (lines 107-113) *)
Definition close (st : State) : State :=
  {| menuBtn :=
       (fun _ => {| btnActive := false; ariaExpanded := Some (js "false") |})
         <$> menuBtn st;
     nav := (fun _ => false) <$> nav st;
     overflow := [];
     isOpen := false |}.

(** [toggle()] (lines 95-97) *)
Definition toggle (st : State) : State :=
  if isOpen st then close st else open st.

(** Where a click lands: inside the menu button, inside a link of the
    navigation list, or elsewhere; [inNav] tells whether the navigation
    element contains the target.  The button and the links are taken to
    lie outside one another. *)
Inductive Target :=
  | OnMenuBtn
  | OnNavLink (inNav : bool)
  | Elsewhere (inNav : bool).

Inductive Event :=
  | Click (target : Target)
  | KeyDown (key : jsstring).

(** [init()] installs its listeners only if both elements are there
    (line 71). *)
Definition listening (st : State) : bool :=
  match menuBtn st, nav st with
  | Some _, Some _ => true
  | _, _ => false
  end.

(** The listeners of lines 73-92: those of the button and of the links
    run before those of the document, to which the event bubbles. *)
Definition handle (e : Event) (st : State) : State :=
  if negb (listening st) then st
  else
    match e with
    | Click target =>
        let st1 :=
          match target with
          | OnMenuBtn => toggle st
          | OnNavLink _ => close st
          | Elsewhere _ => st
          end in
        let outside :=
          match target with
          | OnMenuBtn => false
          | OnNavLink inNav => negb inNav
          | Elsewhere inNav => negb inNav
          end in
        if isOpen st1 && outside then close st1 else st1
    | KeyDown key =>
        if jseqb key (js "Escape") && isOpen st then close st else st
    end.

Definition run (evs : list Event) (st : State) : State :=
  foldl (fun s e => handle e s) st evs.

(** The document shows what [isOpen] says. *)
Definition consistent (st : State) : Prop :=
  menuBtn st
  = Some {| btnActive := isOpen st;
            ariaExpanded := Some (js (if isOpen st then "true" else "false")) |}
  /\ nav st = Some (isOpen st)
  /\ overflow st = (if isOpen st then js "hidden" else []).

(** A page whose menu is closed and has never been used. *)
Definition closedPage : State :=
  {| menuBtn := Some {| btnActive := false; ariaExpanded := None |};
     nav := Some false; overflow := []; isOpen := false |}.

End MobileMenu.

(** ** [TabSystem] (lines 117-162)

    The tab buttons with their class ['active'] and their attribute
    [aria-selected], the panels with their class ['active'], the index
    of the button whose [focus()] was called last, and the [activeIndex]
    of the [tabChanged] events dispatched so far. *)
Module TabSystem.

Record Tab := { active : bool; ariaSelected : option jsstring }.

Record State := {
  tabButtons : list Tab;
  tabPanels : list bool;
  focused : option Z;
  changed : list Z
}.

(** [switchTab(activeIndex)] (lines 144-161) *)
Definition switchTab (activeIndex : Z) (st : State) : State :=
  {| tabButtons :=
       imap (fun index _ =>
               let isActive := bool_decide (Z.of_nat index = activeIndex) in
               {| active := isActive;
                  ariaSelected := Some (js (if isActive then "true" else "false")) |})
         (tabButtons st);
     tabPanels :=
       imap (fun index _ => bool_decide (Z.of_nat index = activeIndex))
         (tabPanels st);
     focused := focused st;
     changed := changed st ++ [activeIndex] |}.

(** The index the arrow keys lead to from the button [index]
    (lines 135-136); [%] is the remainder of the truncated division. *)
Definition newIndex (index : nat) (direction : Z) (st : State) : Z :=
  Z.rem (Z.of_nat index + direction + Z.of_nat (length (tabButtons st)))
    (Z.of_nat (length (tabButtons st))).

(** The [keydown] listener of the button [index] (lines 132-140). *)
Definition keydown (index : nat) (key : jsstring) (st : State) : State :=
  if jseqb key (js "ArrowLeft") || jseqb key (js "ArrowRight") then
    let direction := if jseqb key (js "ArrowLeft") then -1 else 1 in
    let n := newIndex index direction st in
    let st1 := switchTab n st in
    {| tabButtons := tabButtons st1; tabPanels := tabPanels st1;
       focused := Some n; changed := changed st1 |}
  else st.

Inductive Event :=
  | Click (index : nat)
  | KeyDown (index : nat) (key : jsstring).

(** [init()] returns at once when there is no button or no panel
    (line 126); otherwise every button gets its two listeners. *)
Definition handle (e : Event) (st : State) : State :=
  match tabButtons st, tabPanels st with
  | [], _ | _, [] => st
  | _, _ =>
      match e with
      | Click index =>
          if decide (index < length (tabButtons st))%nat
          then switchTab (Z.of_nat index) st else st
      | KeyDown index key =>
          if decide (index < length (tabButtons st))%nat
          then keydown index key st else st
      end
  end.

Definition run (evs : list Event) (st : State) : State :=
  foldl (fun st e => handle e st) st evs.

(** Whether the button and the panel of index [j] are shown as the
    active ones when [k] is the active index. *)
Definition shows (k : Z) (st : State) : Prop :=
  (forall j t, tabButtons st !! j = Some t ->
     active t = bool_decide (Z.of_nat j = k)
     /\ ariaSelected t
        = Some (js (if bool_decide (Z.of_nat j = k) then "true" else "false")))
  /\ (forall j b, tabPanels st !! j = Some b ->
        b = bool_decide (Z.of_nat j = k)).

(** Three tabs as a page has them when it is loaded. *)
Definition threeTabs : State :=
  {| tabButtons :=
       [{| active := true; ariaSelected := None |};
        {| active := false; ariaSelected := None |};
        {| active := false; ariaSelected := None |}];
     tabPanels := [true; false; false];
     focused := None;
     changed := [] |}.

End TabSystem.

(** ** [LazyLoader] (lines 165-203)

    An image with its [src], its attribute [data-src] if it has one and
    its class ['loaded']; the images selected by [img[data-src]] when the
    loader is made, and those the observer still watches. *)
Module LazyLoader.

Record Img := { src : jsstring; dataSrc : option jsstring; loaded : bool }.

(** [loadImage(img)] (lines 195-202) *)
Definition loadImage (img : Img) : Img :=
  match dataSrc img with
  | None => img
  | Some s =>
      if negb (truthy s) then img
      else {| src := s; dataSrc := None; loaded := true |}
  end.

Record State := { images : list Img; observed : gset nat }.

(** The constructor and [init()] (lines 166-193): [supported] tells
    whether the window has [IntersectionObserver]. *)
Definition create (supported : bool) (document : list Img) : State :=
  let images := filter (fun img => is_Some (dataSrc img)) document in
  match images with
  | [] => {| images := images; observed := ∅ |}
  | _ =>
      if supported then
        {| images := images;
           observed := list_to_set (seq 0 (length images)) |}
      else {| images := loadImage <$> images; observed := ∅ |}
  end.

(** The callback of the observer (lines 177-183) on one entry: the index
    of the target and whether it intersects. *)
Definition onEntry (st : State) (entry : nat * bool) : State :=
  if snd entry then
    {| images := alter loadImage (fst entry) (images st);
       observed := observed st ∖ {[fst entry]} |}
  else st.

(** A batch of entries: the observer reports watched targets only. *)
Definition deliver (st : State) (entries : list (nat * bool)) : State :=
  foldl onEntry st (filter (fun e => fst e ∈ observed st) entries).

Definition run (batches : list (list (nat * bool))) (st : State) : State :=
  foldl deliver st batches.

(** The images of the document that the loader selects. *)
Definition selected (document : list Img) : list Img :=
  filter (fun img => is_Some (dataSrc img)) document.

(** The images are those selected at the start, each as it was while it
    is watched and as [loadImage] leaves it once it is not. *)
Definition inv (imgs : list Img) (st : State) : Prop :=
  length (images st) = length imgs
  /\ forall i img0, imgs !! i = Some img0 ->
       images st !! i
       = Some (if decide (i ∈ observed st) then img0 else loadImage img0).

(** A document with one plain image and two lazy ones. *)
Definition gallery : list Img :=
  [{| src := js "logo.png"; dataSrc := None; loaded := false |};
   {| src := js "blank.gif"; dataSrc := Some (js "a.jpg"); loaded := false |};
   {| src := js "blank.gif"; dataSrc := Some (js "b.jpg"); loaded := false |}].

End LazyLoader.

(** ** [SEOOptimizer] (lines 430-570)

    [protoKey] tells the property names that an object literal inherits
    from [Object.prototype] in the running engine ([constructor],
    [toString], ...): reading one of them from a table gives the
    inherited member, a function or an object, which is truthy. *)
Module SEOOptimizer.

(** What reading [table[key]] gives. *)
Inductive Lookup (V : Type) :=
  | Own (v : V)
  | Proto
  | Undefined.
Arguments Own {V}.
Arguments Proto {V}.
Arguments Undefined {V}.

(** A value that is a string or a member of [Object.prototype]. *)
Inductive Value :=
  | Str (s : jsstring)
  | Inherited (key : jsstring).

Record Crumb := { name : Value; url : jsstring }.

Record ListItem := { position : Z; itemName : Value; item : jsstring }.

Record ImgAttrs := { loading : option jsstring; alt : option jsstring }.

(** [String.prototype.split] on a one-character separator. *)
Fixpoint split (sep : jschar) (s : jsstring) : list jsstring :=
  match s with
  | [] => [[]]
  | c :: s' =>
      if (c =? sep)%N then [] :: split sep s'
      else
        match split sep s' with
        | [] => [[c]]
        | h :: t => (c :: h) :: t
        end
  end.

Definition slash : jschar := 0x2F%N.

(** The path made of the given segments, each after a slash. *)
Definition pathOf (segments : list jsstring) : jsstring :=
  concat ((fun segment => js "/" ++ segment) <$> segments).

(** The segments that [generateBreadcrumbs] keeps of a path. *)
Definition segmentsOf (path : jsstring) : list jsstring :=
  filter (fun segment => truthy segment = true) (split slash path).

Section Env.
Variable protoKey : jsstring -> bool.

Definition member {V} (table : list (jsstring * V)) (key : jsstring)
    : Lookup V :=
  match snd <$> list_find (fun kv => fst kv = key) table with
  | Some kv => Own (snd kv)
  | None => if protoKey key then Proto else Undefined
  end.

(** The table of [getPageName] (lines 511-517). *)
Definition names : list (jsstring * jsstring) :=
  [(js "sms", js "国际短信"); (js "voice", js "国际语音");
   (js "group-call", js "语音群呼"); (js "web-call", js "语音外呼");
   (js "faq", js "常见问题")].

(** [getPageName(segment)] (lines 510-520): [names[segment] || segment] *)
Definition getPageName (segment : jsstring) : Value :=
  match member names segment with
  | Own v => if truthy v then Str v else Str segment
  | Proto => Inherited segment
  | Undefined => Str segment
  end.

(** [generateBreadcrumbs()] (lines 492-508), for the path and the
    origin of the location. *)
Definition generateBreadcrumbs (path origin : jsstring) : list Crumb :=
  let segments := filter (fun segment => truthy segment = true)
                    (split slash path) in
  let breadcrumbs := [{| name := Str (js "首页"); url := origin |}] in
  snd
    (foldl
       (fun acc segment =>
          let currentPath := fst acc ++ js "/" ++ segment in
          (currentPath,
           snd acc ++ [{| name := getPageName segment;
                          url := origin ++ currentPath |}]))
       ([], breadcrumbs) segments).

(** [addStructuredData()] (lines 472-490): the [itemListElement] of
    the object that is serialized into the script appended to the
    head, or [None] when no script is appended. *)
Definition addStructuredData (path origin : jsstring)
    : option (list ListItem) :=
  let breadcrumbs := generateBreadcrumbs path origin in
  if decide (1 < length breadcrumbs)%nat then
    Some (imap (fun index it =>
                  {| position := Z.of_nat index + 1; itemName := name it;
                     item := url it |})
            breadcrumbs)
  else None.
End Env.

(** [optimizeImages()] (lines 522-535) *)
Definition optimizeImages (images : list ImgAttrs) : list ImgAttrs :=
  (fun img =>
     let img1 :=
       match loading img with
       | None => {| loading := Some (js "lazy"); alt := alt img |}
       | Some _ => img
       end in
     match alt img1 with
     | None => {| loading := loading img1; alt := Some [] |}
     | Some _ => img1
     end) <$> images.

End SEOOptimizer.

(** * Strings and patterns *)

Section Patterns.

Implicit Types (r : Regex) (s : jsstring) (c : jschar).

Lemma nullable_Matches r : nullable r = true <-> Matches r [].
Proof.
  induction r; simpl.
  - split; [discriminate | intros H; inv H].
  - split; [constructor | done].
  - split; [discriminate | intros H; inv H].
  - split; [discriminate | intros H; inv H].
  - rewrite andb_true_iff, IHr1, IHr2. split.
    + intros [H1 H2]. by apply (MSeq _ _ [] []).
    + intros H. inv H.
      match goal with E : _ ++ _ = [] |- _ =>
        apply app_eq_nil in E as [-> ->] end.
      done.
  - rewrite orb_true_iff, IHr1, IHr2. split.
    + intros [H|H]; [by apply MAltL | by apply MAltR].
    + intros H. inv H; tauto.
  - split; [constructor | done].
Qed.

Lemma Matches_star_cons r c s :
  Matches (RStar r) (c :: s) ->
  exists s1 s2, s = s1 ++ s2 /\ Matches r (c :: s1) /\ Matches (RStar r) s2.
Proof.
  intros H. remember (RStar r) as r' eqn:Er. remember (c :: s) as s' eqn:Es.
  revert s Es. induction H; intros s0 Es; try discriminate.
  injection Er as ->.
  destruct s1 as [|c1 s1]; simpl in Es.
  - apply IHMatches2; auto.
  - injection Es as -> <-. eauto.
Qed.

Lemma deriv_Matches c r s : Matches (deriv c r) s <-> Matches r (c :: s).
Proof.
  revert s. induction r; intros s; simpl.
  - split; intros H; inversion H.
  - split; intros H; inversion H.
  - destruct (N.eqb_spec c c0) as [->|Hne]; split; intros H.
    + inversion H; subst. constructor.
    + inversion H; subst. constructor.
    + inversion H.
    + inversion H; subst. congruence.
  - destruct (class_mem cc c) eqn:Hc; split; intros H.
    + inversion H; subst. by constructor.
    + inversion H; subst. constructor.
    + inversion H.
    + inversion H; subst. congruence.
  - assert (Hseq : Matches (RSeq (deriv c r1) r2) s ->
                   Matches (RSeq r1 r2) (c :: s)).
    { intros H. inv H.
      match goal with H1 : Matches (deriv c r1) ?s1 |- _ =>
        apply IHr1 in H1; by apply (MSeq _ _ (c :: s1)) end. }
    assert (Hinv : Matches (RSeq r1 r2) (c :: s) ->
                   Matches (RSeq (deriv c r1) r2) s \/
                   (nullable r1 = true /\ Matches (deriv c r2) s)).
    { intros H. inversion H as [| | |? ? s1 s2 H1 H2| | | |]. subst.
      destruct s1 as [|c1 s1]; simplify_eq/=.
      - right. split; [by apply nullable_Matches | by apply IHr2].
      - left. constructor; auto. by apply IHr1. }
    destruct (nullable r1) eqn:Hn; split; intros H.
    + inversion H; subst; auto.
      apply (MSeq r1 r2 [] (c :: s)); [by apply nullable_Matches | by apply IHr2].
    + destruct (Hinv H) as [?|[_ ?]]; [by apply MAltL | by apply MAltR].
    + auto.
    + destruct (Hinv H) as [?|[? _]]; [done | discriminate].
  - split; intros H; inversion H; subst.
    + apply MAltL. by apply IHr1.
    + apply MAltR. by apply IHr2.
    + apply MAltL. by apply IHr1.
    + apply MAltR. by apply IHr2.
  - split; intros H.
    + inv H.
      match goal with H1 : Matches (deriv c r) ?s1 |- _ =>
        apply IHr in H1; by apply (MStarApp _ (c :: s1)) end.
    + apply Matches_star_cons in H as (s1 & s2 & -> & H1 & H2).
      constructor; auto. by apply IHr.
Qed.

Lemma test_Matches r s : test r s = true <-> Matches r s.
Proof.
  revert r. induction s as [|c s IH]; intros r; simpl.
  - apply nullable_Matches.
  - rewrite IH. apply deriv_Matches.
Qed.

Lemma Matches_star_class cc s :
  Matches (RStar (RClass cc)) s <-> Forall (fun c => class_mem cc c = true) s.
Proof.
  split.
  - intros H. remember (RStar (RClass cc)) as r eqn:Er.
    induction H; try discriminate; [constructor|].
    injection Er as ->. inversion H; subst. constructor; auto.
  - induction 1 as [|c s Hc _ IH]; [constructor|].
    apply (MStarApp _ [c] s); [by constructor | done].
Qed.

Lemma Matches_plus_class cc s :
  Matches (RPlus (RClass cc)) s <->
  s <> [] /\ Forall (fun c => class_mem cc c = true) s.
Proof.
  unfold RPlus. split.
  - intros H. inv H.
    match goal with H1 : Matches (RClass cc) _ |- _ => inv H1 end.
    split; [done|]. constructor; [done | by apply Matches_star_class].
  - intros [Hne Hall]. destruct Hall as [|c s Hc Hs]; [done|].
    apply (MSeq _ _ [c] s); [by constructor | by apply Matches_star_class].
Qed.

Lemma Matches_char_seq d r s :
  Matches (RSeq (RChar d) r) s <-> exists s', s = d :: s' /\ Matches r s'.
Proof.
  split.
  - intros H. inv H.
    match goal with H1 : Matches (RChar d) _ |- _ => inv H1 end. eauto.
  - intros (s' & -> & H). apply (MSeq _ _ [d] s'); [constructor | done].
Qed.

Lemma Matches_seq r1 r2 s :
  Matches (RSeq r1 r2) s <->
  exists s1 s2, s = s1 ++ s2 /\ Matches r1 s1 /\ Matches r2 s2.
Proof.
  split.
  - intros H. inv H. eauto.
  - intros (s1 & s2 & -> & H1 & H2). by constructor.
Qed.

Lemma class_mem_notSpaceAt c : class_mem notSpaceAt c = true <-> plainChar c.
Proof.
  unfold class_mem, plainChar; simpl.
  destruct (isWhiteSpace c); simpl; [intuition congruence|].
  destruct (N.eqb_spec c 64); simpl; intuition congruence.
Qed.

Lemma class_mem_phoneClass c : class_mem phoneClass c = true <-> phoneChar c.
Proof.
  unfold class_mem, phoneChar; simpl.
  rewrite !orb_true_iff, andb_true_iff, !N.leb_le, !N.eqb_eq.
  intuition (try discriminate; try lia).
Qed.

Lemma Forall_notSpaceAt s :
  Forall (fun c => class_mem notSpaceAt c = true) s <-> Forall plainChar s.
Proof. apply Forall_iff. intros c. apply class_mem_notSpaceAt. Qed.

Lemma Forall_phoneClass s :
  Forall (fun c => class_mem phoneClass c = true) s <-> Forall phoneChar s.
Proof. apply Forall_iff. intros c. apply class_mem_phoneClass. Qed.

Lemma Matches_emailRegex s : Matches emailRegex s <-> email_shape s.
Proof.
  unfold emailRegex, email_shape. split.
  - intros H. apply Matches_seq in H as (loc & s1 & -> & Hloc & H).
    apply Matches_char_seq in H as (s2 & -> & H).
    apply Matches_seq in H as (dom & s3 & -> & Hdom & H).
    apply Matches_char_seq in H as (tld & -> & Htld).
    apply Matches_plus_class in Hloc as [? Hl%Forall_notSpaceAt].
    apply Matches_plus_class in Hdom as [? Hd%Forall_notSpaceAt].
    apply Matches_plus_class in Htld as [? Ht%Forall_notSpaceAt].
    by exists loc, dom, tld.
  - intros (loc & dom & tld & -> & ? & ? & ? & Hl & Hd & Ht).
    apply Forall_notSpaceAt in Hl, Hd, Ht.
    apply Matches_seq. exists loc, ([64%N] ++ dom ++ [46%N] ++ tld).
    split; [done|]. split; [by apply Matches_plus_class|].
    apply Matches_char_seq. eexists; split; [done|].
    apply Matches_seq. exists dom, ([46%N] ++ tld).
    split; [done|]. split; [by apply Matches_plus_class|].
    apply Matches_char_seq. eexists; split; [done|].
    by apply Matches_plus_class.
Qed.

Lemma trimStart_split s :
  exists w, s = w ++ trimStart s /\ Forall white w.
Proof.
  induction s as [|c s (w & Hs & Hw)]; simpl.
  - by exists [].
  - destruct (isWhiteSpace c) eqn:Hc.
    + exists (c :: w). split; [by rewrite Hs at 1 | by constructor].
    + by exists [].
Qed.

Lemma trimStart_white s : Forall white s -> trimStart s = [].
Proof.
  induction 1 as [|c s Hc _ IH]; simpl; [done|]. by rewrite Hc.
Qed.

Lemma trimEnd_split s :
  exists w, s = trimEnd s ++ w /\ Forall white w.
Proof.
  unfold trimEnd. destruct (trimStart_split (rev s)) as (w & Hs & Hw).
  exists (rev w). split; [|by apply Forall_rev].
  rewrite <- rev_app_distr, <- Hs. by rewrite rev_involutive.
Qed.

Lemma trim_split s :
  exists w1 w2, s = w1 ++ trim s ++ w2 /\ Forall white w1 /\ Forall white w2.
Proof.
  unfold trim. destruct (trimStart_split s) as (w1 & Hs & Hw1).
  destruct (trimEnd_split (trimStart s)) as (w2 & Ht & Hw2).
  exists w1, w2. split; [|done]. by rewrite <- Ht.
Qed.

Lemma trim_white s : trim s = [] <-> Forall white s.
Proof.
  split.
  - intros H. destruct (trim_split s) as (w1 & w2 & Hs & H1 & H2).
    rewrite Hs, H. apply Forall_app. done.
  - intros H. unfold trim. by rewrite (trimStart_white s H).
Qed.

Lemma truthy_true s : truthy s = true <-> s <> [].
Proof. destruct s; simpl; split; congruence. Qed.

Lemma truthy_false s : truthy s = false <-> s = [].
Proof. destruct s; simpl; split; congruence. Qed.

Lemma white_phoneChar c : white c -> phoneChar c.
Proof. unfold white, phoneChar. tauto. Qed.

Lemma Forall_trim (P : jschar -> Prop) s :
  (forall c, white c -> P c) -> Forall P (trim s) <-> Forall P s.
Proof.
  intros HP. destruct (trim_split s) as (w1 & w2 & Hs & H1 & H2).
  rewrite Hs at 2. rewrite !Forall_app.
  pose proof (Forall_impl _ _ _ H1 HP). pose proof (Forall_impl _ _ _ H2 HP).
  tauto.
Qed.

End Patterns.

(** * The field validator *)

(** C3. A required field whose value is empty or holds only whitespace is
    invalid, with the required-field message. *)
Theorem validate_required_blank (f : Field) :
  required f = true ->
  Forall (fun c => isWhiteSpace c = true) (value f) ->
  validate f = {| isValid := false; message := msgRequired |}.
Proof.
  intros Hr Hw. apply trim_white in Hw. unfold validate.
  by rewrite Hr, Hw.
Qed.

Lemma validate_required_blank_witness :
  validate (mkField "  " "email" true 0)
  = {| isValid := false; message := msgRequired |}.
Proof.
  apply (validate_required_blank (mkField "  " "email" true 0)).
  - reflexivity.
  - vm_compute. repeat constructor.
Defined.

(** C10. A field that is not required and whose value holds only
    whitespace is valid whatever its type: the value is trimmed first and
    the patterns are tried on a non-empty trimmed value only. *)
Theorem validate_optional_blank (f : Field) :
  required f = false ->
  Forall (fun c => isWhiteSpace c = true) (value f) ->
  validate f = valid.
Proof.
  intros Hr Hw. apply trim_white in Hw. unfold validate.
  by rewrite Hr, Hw.
Qed.

Lemma validate_optional_blank_witness :
  validate (mkField "   " "email" false 0) = valid
  /\ validate (mkField "   " "tel" false 0) = valid.
Proof.
  split.
  - apply (validate_optional_blank (mkField "   " "email" false 0)).
    + reflexivity.
    + vm_compute. repeat constructor.
  - apply (validate_optional_blank (mkField "   " "tel" false 0)).
    + reflexivity.
    + vm_compute. repeat constructor.
Defined.

Lemma validate_email (f : Field) :
  trim (value f) <> [] -> type f = js "email" ->
  isValid (validate f) = test emailRegex (trim (value f)).
Proof.
  intros Hv Ht. apply truthy_true in Hv. unfold validate.
  rewrite Hv, Ht, andb_false_r. simpl.
  by destruct (test emailRegex _).
Qed.

Lemma validate_tel (f : Field) :
  trim (value f) <> [] -> type f = js "tel" ->
  isValid (validate f) = test phoneRegex (trim (value f)).
Proof.
  intros Hv Ht. apply truthy_true in Hv. unfold validate.
  rewrite Hv, Ht, andb_false_r. simpl.
  by destruct (test phoneRegex _).
Qed.

(** C2. For a field of type email whose trimmed value is not empty, the
    verdict is valid exactly when the trimmed value has the shape
    local@domain.tld; a@b.co is valid, a@b and "a b@c.com" are not. *)
Theorem validate_email_shape :
  (forall f : Field,
     trim (value f) <> [] -> type f = js "email" ->
     (isValid (validate f) = true <-> email_shape (trim (value f))))
  /\ (forall req, isValid (validate (mkField "a@b.co" "email" req 0)) = true)
  /\ (forall req, isValid (validate (mkField "a@b" "email" req 0)) = false)
  /\ (forall req, isValid (validate (mkField "a b@c.com" "email" req 0)) = false).
Proof.
  split; [|by repeat split; intros []; vm_compute].
  intros f Hv Ht. rewrite (validate_email f Hv Ht), test_Matches.
  apply Matches_emailRegex.
Qed.

Lemma validate_email_shape_witness :
  isValid (validate (mkField " a@b.co" "email" true 0)) = true
  /\ email_shape (js "a@b.co").
Proof.
  split; [by vm_compute|].
  apply (proj1 validate_email_shape (mkField " a@b.co" "email" true 0)).
  - by vm_compute.
  - reflexivity.
  - by vm_compute.
Defined.

(** The dot of the domain is neither its first nor its last character. *)
Example email_dot_placement :
  isValid (validate (mkField "a@.b" "email" false 0)) = false
  /\ isValid (validate (mkField "a@b." "email" false 0)) = false
  /\ isValid (validate (mkField "a@b..c" "email" false 0)) = true.
Proof. by vm_compute. Qed.

(** C4. For a field of type tel whose trimmed value is not empty, the
    verdict is valid exactly when every character of the value is a digit,
    whitespace, -, +, ( or ); "+1 (555) 123-4567" is valid and "call me"
    is not. *)
Theorem validate_tel_chars :
  (forall f : Field,
     trim (value f) <> [] -> type f = js "tel" ->
     (isValid (validate f) = true <-> Forall phoneChar (value f)))
  /\ (forall req,
        isValid (validate (mkField "+1 (555) 123-4567" "tel" req 0)) = true)
  /\ (forall req, isValid (validate (mkField "call me" "tel" req 0)) = false).
Proof.
  split; [|by repeat split; intros []; vm_compute].
  intros f Hv Ht. rewrite (validate_tel f Hv Ht), test_Matches.
  unfold phoneRegex. rewrite Matches_plus_class.
  rewrite Forall_phoneClass.
  rewrite (Forall_trim phoneChar _ white_phoneChar). tauto.
Qed.

Lemma validate_tel_chars_witness :
  isValid (validate (mkField " 555-0100 " "tel" false 0)) = true
  /\ Forall phoneChar (js " 555-0100 ").
Proof.
  split; [by vm_compute|].
  apply (proj1 validate_tel_chars (mkField " 555-0100 " "tel" false 0)).
  - by vm_compute.
  - reflexivity.
  - by vm_compute.
Defined.

(** * The timer queue *)

Lemma nextDue_None limit ts :
  nextDue limit ts = None <-> forall u, u ∈ ts -> limit < due u.
Proof.
  induction ts as [|a ts IH]; simpl.
  - split; [|done]. intros _ u Hu. by apply elem_of_nil in Hu.
  - destruct (nextDue limit ts) as [u|] eqn:Hn.
    + split; [by destruct (_ && _)|]. intros H.
      assert (Hts : forall w, w ∈ ts -> limit < due w).
      { intros w Hw. apply H. by right. }
      apply IH in Hts. discriminate.
    + destruct (Z.leb_spec (due a) limit); split; try done.
      * intros Hall. specialize (Hall a (list_elem_of_here _ _)). lia.
      * intros _ w [->|Hw]%elem_of_cons; [lia|].
        by apply (proj1 IH).
Qed.

Lemma nextDue_Some limit ts t :
  nextDue limit ts = Some t ->
  t ∈ ts /\ due t <= limit
  /\ forall u, u ∈ ts -> due t <= due u \/ limit < due u.
Proof.
  revert t. induction ts as [|a ts IH]; intros t; simpl; [done|].
  destruct (nextDue limit ts) as [u|] eqn:Hn.
  - destruct (IH u eq_refl) as (Hu & Hle & Hmin).
    destruct (Z.leb_spec (due a) limit), (Z.leb_spec (due a) (due u));
      simpl; intros [= <-];
      (split; [by (left || right)|]); (split; [lia|]);
      intros w [->|Hw]%elem_of_cons; try lia;
      destruct (Hmin w Hw); lia.
  - pose proof (proj1 (nextDue_None limit ts) Hn) as Hall.
    destruct (Z.leb_spec (due a) limit); intros [= <-].
    split; [by left|]. split; [lia|].
    intros w [->|Hw]%elem_of_cons; [lia|]. right. auto.
Qed.

Lemma fuel_app ts us : fuel (ts ++ us) = (fuel ts + fuel us)%nat.
Proof. apply sum_list_with_app. Qed.

Lemma fuel_filter_le (P : Timer -> Prop) `{!forall t, Decision (P t)} ts :
  (fuel (filter P ts) <= fuel ts)%nat.
Proof.
  induction ts as [|a ts IH]; [done|].
  rewrite filter_cons. unfold fuel in *. destruct (decide (P a)); simpl; lia.
Qed.

Lemma fuel_filter_lt t ts :
  t ∈ ts ->
  (fuel (filter (fun u => timerId u <> timerId t) ts) + weight t <= fuel ts)%nat.
Proof.
  induction ts as [|a ts IH]; [by intros ?%elem_of_nil|].
  intros [->|Hin]%elem_of_cons; rewrite filter_cons.
  - rewrite decide_False by tauto.
    pose proof (fuel_filter_le (fun u => timerId u <> timerId a) ts).
    unfold fuel in *. simpl. lia.
  - specialize (IH Hin). unfold fuel in *.
    destruct (decide _); simpl; lia.
Qed.

Lemma weight_pos t : (1 <= weight t)%nat.
Proof. unfold weight. destruct (callback t); lia. Qed.

Lemma timers_validateField i p : timers (snd (validateField i p)) = timers p.
Proof.
  unfold validateField. destruct (fields p !! i) as [f|]; [|done].
  unfold showFieldValidation. simpl.
  destruct (negb _); simpl; by destruct (querySelector _ _) as [[? ?]|].
Qed.

Lemma fuel_fire t p :
  t ∈ timers p -> (fuel (timers (fire t p)) < fuel (timers p))%nat.
Proof.
  intros Hin. pose proof (fuel_filter_lt t _ Hin) as Hlt.
  pose proof (weight_pos t) as Hw.
  unfold fire, weight in *. destruct (callback t); simpl.
  - unfold later. rewrite timers_validateField. simpl.
    unfold clearTimeout. destruct (timeouts p !! slot); simpl; [|lia].
    pose proof (fuel_filter_le (fun t0 => timerId t0 <> n)
      (filter (fun u => timerId u <> timerId t) (timers p))). lia.
  - lia.
  - rewrite fuel_app. unfold fuel at 2. simpl. lia.
  - lia.
Qed.

(** Induction over the timers run by [advance]: [P] holds while timers
    run, [Q] once none is left that is due. *)
Lemma advance_rule (P Q : Page -> Prop) limit p :
  P p ->
  (forall q t, P q -> nextDue limit (timers q) = Some t -> P (fire t q)) ->
  (forall q, P q -> nextDue limit (timers q) = None ->
             Q (set_clock (Z.max (clock q) limit) q)) ->
  Q (advance limit p).
Proof.
  intros Hp Hstep Hend. unfold advance.
  assert (H : forall n q, (fuel (timers q) <= n)%nat -> P q ->
            P (advance_fuel n limit q)
            /\ nextDue limit (timers (advance_fuel n limit q)) = None).
  { induction n as [|n IH]; intros q Hn Hq; simpl.
    - split; [done|]. destruct (nextDue limit (timers q)) as [t|] eqn:Ht; [|done].
      apply nextDue_Some in Ht as (Hin & _). apply fuel_fire in Hin. lia.
    - destruct (nextDue limit (timers q)) as [t|] eqn:Ht; [|done].
      apply IH; [|by apply Hstep].
      apply nextDue_Some in Ht as (Hin & _). apply fuel_fire in Hin. lia. }
  destruct (H (fuel (timers p)) p) as [HP Hnone]; [lia | done |].
  by apply Hend.
Qed.

Lemma advance_ind (P : Page -> Prop) limit p :
  P p ->
  (forall q t, P q -> nextDue limit (timers q) = Some t -> P (fire t q)) ->
  (forall q, P q -> nextDue limit (timers q) = None ->
             P (set_clock (Z.max (clock q) limit) q)) ->
  P (advance limit p).
Proof. apply advance_rule. Qed.

(** Once time has passed until [limit], no timer due by then is left. *)
Lemma advance_settled limit p u :
  u ∈ timers (advance limit p) -> limit < due u.
Proof.
  revert u. apply (advance_rule (fun _ => True)); [done | done |].
  intros q _ Hnone u Hu. by apply (proj1 (nextDue_None _ _) Hnone).
Qed.

(** * Well-formedness is kept *)

Ltac unfold_ops :=
  unfold handle, handleSubmit, submitForm_resume, submitForm, reset,
    showMessage, executedFunction, later, run_callback, validateField,
    showFieldValidation, updateToast, removeToast, setTimeout, clearTimeout
    in *.

Ltac frame := unfold_ops; simpl; repeat (case_match; simpl); done.

Lemma NoDup_timerId_filter (P : Timer -> Prop) `{!forall t, Decision (P t)} ts :
  NoDup (timerId <$> ts) -> NoDup (timerId <$> filter P ts).
Proof.
  induction ts as [|a ts IH]; [done|].
  rewrite fmap_cons, NoDup_cons, filter_cons. intros [Ha Hts].
  destruct (decide (P a)); [|auto].
  rewrite fmap_cons, NoDup_cons. split; [|auto].
  intros (u & Hid & [_ Hu]%list_elem_of_filter)%list_elem_of_fmap.
  apply Ha. apply list_elem_of_fmap. eauto.
Qed.

Lemma wf_frame p q :
  clock q = clock p -> timers q = timers p ->
  nextTimerId q = nextTimerId p -> timeouts q = timeouts p ->
  messages q = messages p -> nextMessage q = nextMessage p ->
  wf p -> wf q.
Proof.
  intros E1 E2 E3 E4 E5 E6 [Hnd Hfr Hdue Hsf Hsl Hto Htt].
  constructor; rewrite ?E1, ?E2, ?E3, ?E4, ?E5, ?E6; assumption.
Qed.

Lemma wf_validateField i p : wf p -> wf (snd (validateField i p)).
Proof. apply wf_frame; frame. Qed.

Lemma wf_filter (P : Timer -> Prop) `{!forall t, Decision (P t)} p :
  wf p -> wf (set_timers (filter P (timers p)) p).
Proof.
  intros [Hnd Hfr Hdue Hsf Hsl Hto Htt]. constructor; simpl; try assumption.
  - by apply NoDup_timerId_filter.
  - intros t [_ Ht]%list_elem_of_filter. auto.
  - intros t [_ Ht]%list_elem_of_filter. auto.
  - intros t s [_ Ht]%list_elem_of_filter. auto.
  - intros t m [_ Ht]%list_elem_of_filter. eauto.
Qed.

Lemma wf_clearTimeout o p : wf p -> wf (clearTimeout o p).
Proof. destruct o; simpl; [apply wf_filter | done]. Qed.

Lemma wf_set_fields fs p : wf p -> wf (set_fields fs p).
Proof. by apply wf_frame. Qed.

(** Queueing a timer of a toast. *)
Lemma wf_setTimeout_toast cb delay m p :
  wf p -> 0 <= delay -> toastCallback m cb -> (m < nextMessage p)%nat ->
  wf (snd (setTimeout cb delay p)).
Proof.
  intros [Hnd Hfr Hdue Hsf Hsl Hto Htt] Hd Hcb Hm. constructor; simpl.
  - rewrite fmap_app. apply NoDup_app. split; [done|]. split; [|apply NoDup_singleton].
    intros id (t & -> & Ht)%list_elem_of_fmap [= E]%list_elem_of_singleton.
    specialize (Hfr t Ht). simpl in E. lia.
  - intros t [Ht| ->%list_elem_of_singleton]%elem_of_app; simpl; [|lia].
    specialize (Hfr t Ht). lia.
  - intros t [Ht| ->%list_elem_of_singleton]%elem_of_app; simpl; [auto|lia].
  - intros s id Hs. specialize (Hsf s id Hs). lia.
  - intros t s [Ht| ->%list_elem_of_singleton]%elem_of_app; simpl; [auto|].
    split.
    + intros Hs. specialize (Hsf _ _ Hs). lia.
    + intros ->. destruct Hcb as [|[|]]; discriminate.
  - done.
  - intros t m' [Ht| ->%list_elem_of_singleton]%elem_of_app; simpl; [eauto|].
    intros Hm'. destruct Hcb as [-> | [-> | ->]], Hm' as [? | [? | ?]]; congruence.
Qed.

Lemma wf_updateToast m b p : wf p -> wf (updateToast m b p).
Proof.
  intros [Hnd Hfr Hdue Hsf Hsl Hto Htt]. constructor; try assumption. simpl.
  intros x (y & -> & Hy)%list_elem_of_fmap.
  specialize (Hto y Hy). by destruct (decide _).
Qed.

Lemma wf_removeToast m p : wf p -> wf (removeToast m p).
Proof.
  intros [Hnd Hfr Hdue Hsf Hsl Hto Htt]. constructor; try assumption. simpl.
  intros x [_ Hx]%list_elem_of_filter. auto.
Qed.

Lemma wf_run_callback t p :
  wf p -> (forall m, toastCallback m (callback t) -> (m < nextMessage p)%nat) ->
  wf (run_callback (callback t) p).
Proof.
  intros Hwf Hm. destruct (callback t) as [s|m|m|m]; simpl.
  - unfold later. by apply wf_validateField, wf_clearTimeout.
  - by apply wf_updateToast.
  - apply (wf_setTimeout_toast (CbRemove m) 300 m (updateToast m false p)).
    + by apply wf_updateToast.
    + lia.
    + right; right; done.
    + simpl. apply Hm. right; left; done.
  - by apply wf_removeToast.
Qed.

Lemma wf_fire limit t p :
  wf p -> nextDue limit (timers p) = Some t -> wf (fire t p).
Proof.
  intros Hwf (Hin & Hle & Hmin)%nextDue_Some. unfold fire.
  apply wf_run_callback.
  - pose proof (wf_due p Hwf) as Hdue.
    pose proof (wf_filter (fun u => timerId u <> timerId t) p Hwf)
      as [Hnd Hfr _ Hsf Hsl Hto Htt].
    constructor; simpl in *; try assumption.
    intros u [_ Hu]%list_elem_of_filter.
    pose proof (Hdue u Hu). pose proof (Hdue t Hin).
    destruct (Hmin u Hu); lia.
  - simpl. intros m. by apply (wf_toast_timer p Hwf).
Qed.

Lemma wf_advance limit p : wf p -> wf (advance limit p).
Proof.
  intros Hwf. apply advance_ind; [done | |].
  - intros q t Hq Ht. by apply (wf_fire limit).
  - intros q [Hnd Hfr Hdue Hsf Hsl Hto Htt] Hnone. constructor; simpl; try assumption.
    intros t Ht. pose proof (proj1 (nextDue_None _ _) Hnone t Ht).
    specialize (Hdue t Ht). lia.
Qed.

Lemma wf_executedFunction s wait p :
  wf p -> 0 <= wait -> wf (executedFunction s wait p).
Proof.
  intros Hwf Hw. unfold executedFunction.
  pose proof (wf_clearTimeout (timeouts p !! s) p Hwf) as Hc.
  assert (Hgone : forall t, t ∈ timers (clearTimeout (timeouts p !! s) p) ->
                            callback t <> CbLater s).
  { intros t Ht Hcb. destruct (timeouts p !! s) as [id|] eqn:Hs; simpl in Ht.
    - apply list_elem_of_filter in Ht as [Hne Ht].
      apply (wf_slot p Hwf t s Ht) in Hcb. congruence.
    - apply (wf_slot p Hwf t s Ht) in Hcb. congruence. }
  assert (Ets : timeouts (clearTimeout (timeouts p !! s) p) = timeouts p)
    by (by destruct (timeouts p !! s)).
  revert Hc Hgone Ets. generalize (clearTimeout (timeouts p !! s) p).
  intros q [Hnd Hfr Hdue Hsf Hsl Hto Htt] Hgone Ets. simpl. constructor; simpl.
  - rewrite fmap_app. apply NoDup_app. split; [done|]. split; [|apply NoDup_singleton].
    intros id (t & -> & Ht)%list_elem_of_fmap [= E]%list_elem_of_singleton.
    specialize (Hfr t Ht). simpl in E. lia.
  - intros t [Ht| ->%list_elem_of_singleton]%elem_of_app; simpl; [|lia].
    specialize (Hfr t Ht). lia.
  - intros t [Ht| ->%list_elem_of_singleton]%elem_of_app; simpl; [auto|lia].
  - intros s' id. rewrite lookup_insert. case_decide.
    + intros [= <-]. lia.
    + intros Hs. specialize (Hsf s' id Hs). lia.
  - intros t s' [Ht| ->%list_elem_of_singleton]%elem_of_app; simpl.
    + rewrite lookup_insert. case_decide as Hs; subst.
      * split.
        -- intros [= E]. specialize (Hfr t Ht). lia.
        -- intros Hcb. by apply Hgone in Hcb.
      * auto.
    + rewrite lookup_insert. case_decide as Hs; subst; [done|].
      split; [|congruence].
      intros Hs'. specialize (Hsf _ _ Hs'). lia.
  - done.
  - intros t m [Ht| ->%list_elem_of_singleton]%elem_of_app; simpl; [eauto|].
    intros [|[|]]; discriminate.
Qed.

Lemma wf_showMessage text ty p : wf p -> wf (showMessage text ty p).
Proof.
  intros Hwf. unfold showMessage.
  apply (wf_setTimeout_toast _ _ (nextMessage p)); [|lia|right; left; done|simpl; lia].
  apply (wf_setTimeout_toast _ _ (nextMessage p)); [|lia|left; done|simpl; lia].
  destruct Hwf as [Hnd Hfr Hdue Hsf Hsl Hto Htt]. constructor; simpl; try assumption.
  - intros x [Hx| ->%list_elem_of_singleton]%elem_of_app; simpl; [|lia].
    specialize (Hto x Hx). lia.
  - intros t m Ht Hm. specialize (Htt t m Ht Hm). lia.
Qed.

Lemma validateForm_ind (P : Page -> Prop) p :
  P p -> (forall i q, P q -> P (snd (validateField i q))) ->
  P (snd (validateForm p)).
Proof.
  intros Hp Hstep. unfold validateForm.
  generalize (seq 0 (length (fields p))). intros idx.
  assert (H : forall acc, P (snd acc) ->
    P (snd (foldl (fun acc i =>
         let '(ok, q) := validateField i (snd acc) in
         (if negb ok then false else fst acc, q)) acc idx))).
  { induction idx as [|i idx IH]; intros acc Hacc; simpl; [done|].
    apply IH. specialize (Hstep i _ Hacc).
    by destruct (validateField i (snd acc)). }
  by apply H.
Qed.

Lemma wf_handle e p : wf p -> wf (handle e p).
Proof.
  intros Hwf. destruct e as [i|i v| |k resp]; simpl.
  - by apply wf_validateField.
  - destruct (fields p !! i); [|done].
    apply wf_executedFunction; [by apply wf_set_fields | lia].
  - unfold handleSubmit.
    pose proof (validateForm_ind wf p Hwf wf_validateField) as Hv.
    destruct (validateForm p) as [ok q]; simpl in Hv.
    destruct ok; [|done]. unfold submitForm.
    destruct (submitBtn q); [|done]. revert Hv. by apply wf_frame.
  - destruct (pending p !! k) as [orig|]; [|done].
    unfold submitForm_resume.
    assert (Hp : wf (set_pending (delete k (pending p)) p))
      by (revert Hwf; by apply wf_frame).
    revert Hp. generalize (set_pending (delete k (pending p)) p). intros q Hq.
    apply (wf_frame (match resp with
                     | Resolved true => reset (showMessage (js "表单提交成功！") (js "success") q)
                     | _ => showMessage (js "提交失败，请稍后重试") (js "error") q
                     end)); try (by destruct resp as [[]|]).
    destruct resp as [[]|]; try by apply wf_showMessage.
    apply (wf_frame (showMessage (js "表单提交成功！") (js "success") q));
      try done. by apply wf_showMessage.
Qed.

Lemma wf_run evs p : wf p -> wf (run evs p).
Proof.
  revert p. induction evs as [|[t e] evs IH]; intros p Hwf; [done|].
  simpl. apply IH. unfold dispatch. simpl. by apply wf_handle, wf_advance.
Qed.

Lemma wf_load fs act btn : wf (load fs act btn).
Proof.
  constructor; simpl; try (intros ? H; by apply elem_of_nil in H);
    try (intros ? ? H; by apply elem_of_nil in H).
  - constructor.
  - intros s id. by rewrite lookup_empty.
Qed.

(** Every page reached from a freshly loaded one is well formed. *)
Lemma wf_reachable fs act btn evs : wf (run evs (load fs act btn)).
Proof. apply wf_run, wf_load. Qed.

(** * What running a timer changes *)

Lemma timer_unique p t u :
  wf p -> t ∈ timers p -> u ∈ timers p -> timerId t = timerId u -> t = u.
Proof.
  intros [Hnd _ _ _ _ _ _]. revert Hnd. generalize (timers p). intros ts.
  induction ts as [|a ts IH]; [by intros _ ?%elem_of_nil|].
  rewrite fmap_cons, NoDup_cons. intros [Ha Hts] Ht Hu Hid.
  apply elem_of_cons in Ht as [->|Ht]; apply elem_of_cons in Hu as [->|Hu];
    auto.
  - destruct Ha. rewrite Hid. by apply list_elem_of_fmap_2.
  - destruct Ha. rewrite <- Hid. by apply list_elem_of_fmap_2.
Qed.

Lemma clock_clearTimeout o p : clock (clearTimeout o p) = clock p.
Proof. by destruct o. Qed.

Lemma fields_clearTimeout o p : fields (clearTimeout o p) = fields p.
Proof. by destruct o. Qed.

Lemma validated_clearTimeout o p : validated (clearTimeout o p) = validated p.
Proof. by destruct o. Qed.

Lemma clock_validateField i p : clock (snd (validateField i p)) = clock p.
Proof. frame. Qed.

Lemma clock_fire t p : clock (fire t p) = Z.max (clock p) (due t).
Proof.
  unfold fire. destruct (callback t); simpl; try done.
  unfold later. by rewrite clock_validateField, clock_clearTimeout.
Qed.

Lemma clock_advance limit p : clock (advance limit p) = Z.max (clock p) limit.
Proof.
  apply (advance_rule
    (fun q => Z.max (clock q) limit = Z.max (clock p) limit)); [done| |].
  - intros q t Hq (_ & Hle & _)%nextDue_Some. rewrite clock_fire. lia.
  - intros q Hq _. simpl. lia.
Qed.

(** Timers left or queued by running [t]. *)
Lemma timers_fire_inv t p u :
  u ∈ timers (fire t p) ->
  (u ∈ timers p /\ timerId u <> timerId t)
  \/ exists m, callback t = CbHide m /\ callback u = CbRemove m
               /\ due u = Z.max (clock p) (due t) + 300.
Proof.
  unfold fire. destruct (callback t) as [s|m|m|m]; simpl.
  - unfold later. rewrite timers_validateField. simpl.
    destruct (timeouts p !! s); simpl; intros Hu; left.
    + apply list_elem_of_filter in Hu as [_ Hu].
      by apply list_elem_of_filter in Hu as [? ?].
    + by apply list_elem_of_filter in Hu as [? ?].
  - intros [? ?]%list_elem_of_filter. by left.
  - intros [[? ?]%list_elem_of_filter | ->%list_elem_of_singleton]%elem_of_app;
      [by left|]. right. by exists m.
  - intros [? ?]%list_elem_of_filter. by left.
Qed.

Lemma timers_fire_keep t p u :
  wf p -> t ∈ timers p -> u ∈ timers p -> timerId u <> timerId t ->
  u ∈ timers (fire t p).
Proof.
  intros Hwf Ht Hu Hne. unfold fire.
  destruct (callback t) as [s|m|m|m] eqn:Hcb; simpl.
  - unfold later. rewrite timers_validateField. simpl.
    apply (wf_slot p Hwf t s Ht) in Hcb. rewrite Hcb. simpl.
    by repeat (apply list_elem_of_filter; split; [done|]).
  - by apply list_elem_of_filter.
  - apply elem_of_app. left. by apply list_elem_of_filter.
  - by apply list_elem_of_filter.
Qed.

Lemma bare_insert (fs : list Field) i f b :
  fs !! i = Some f -> bare <$> <[i := setErrorClass b f]> fs = bare <$> fs.
Proof.
  intros Hf. rewrite list_fmap_insert. apply list_insert_id.
  rewrite list_lookup_fmap, Hf. done.
Qed.

Lemma bare_validateField i p :
  bare <$> fields (snd (validateField i p)) = bare <$> fields p.
Proof.
  unfold validateField. destruct (fields p !! i) as [f|] eqn:Hf; [|done].
  unfold showFieldValidation. simpl.
  destruct (negb _); simpl; destruct (querySelector _ _) as [[? ?]|]; simpl;
    by apply bare_insert.
Qed.

Lemma bare_fire t p : bare <$> fields (fire t p) = bare <$> fields p.
Proof.
  unfold fire. destruct (callback t); simpl; try done.
  unfold later. by rewrite bare_validateField, fields_clearTimeout.
Qed.

Lemma bare_advance limit p :
  bare <$> fields (advance limit p) = bare <$> fields p.
Proof.
  apply (advance_ind (fun q => bare <$> fields q = bare <$> fields p));
    [done | | done].
  intros q t Hq _. by rewrite bare_fire.
Qed.

Lemma bare_lookup (fs gs : list Field) i f :
  bare <$> fs = bare <$> gs -> fs !! i = Some f ->
  exists g, gs !! i = Some g /\ bare g = bare f.
Proof.
  intros E Hf. assert (H : (bare <$> gs) !! i = Some (bare f))
    by (by rewrite <- E, list_lookup_fmap, Hf).
  rewrite list_lookup_fmap in H. apply fmap_Some in H as (g & Hg & Hb).
  by exists g.
Qed.

Lemma bare_value f g : bare f = bare g -> value f = value g.
Proof. by intros [= ? ? ? ? ? ?]. Qed.

Lemma bare_validate f g : bare f = bare g -> validate f = validate g.
Proof. intros [= ? E ? E1 E2 ?]. unfold validate. by rewrite E, E1, E2. Qed.

Lemma validationsOf_app i p (l : list (Z * nat * jsstring)) q :
  validated q = validated p ++ l ->
  validationsOf i q
  = validationsOf i p
    ++ ((fun e => (fst (fst e), snd e)) <$> filter (fun e => snd (fst e) = i) l).
Proof.
  intros E. unfold validationsOf. by rewrite E, filter_app, fmap_app.
Qed.

Lemma validated_validateField i p :
  validated (snd (validateField i p))
  = validated p
    ++ match fields p !! i with
       | Some f => [(clock p, i, value f)]
       | None => []
       end.
Proof.
  unfold validateField. destruct (fields p !! i) as [f|]; simpl;
    [|by rewrite app_nil_r].
  unfold showFieldValidation. simpl.
  destruct (negb _); simpl; by destruct (querySelector _ _) as [[? ?]|].
Qed.

Lemma validated_fire t p :
  validated (fire t p)
  = validated p
    ++ match callback t with
       | CbLater s =>
           match fields p !! s with
           | Some f => [(Z.max (clock p) (due t), s, value f)]
           | None => []
           end
       | _ => []
       end.
Proof.
  unfold fire. destruct (callback t) as [s|m|m|m]; simpl;
    try by rewrite app_nil_r.
  unfold later.
  by rewrite validated_validateField, validated_clearTimeout,
    clock_clearTimeout, fields_clearTimeout.
Qed.

Lemma validationsOf_fire i t p :
  validationsOf i (fire t p)
  = validationsOf i p
    ++ (if decide (callback t = CbLater i) then
          match fields p !! i with
          | Some f => [(Z.max (clock p) (due t), value f)]
          | None => []
          end
        else []).
Proof.
  rewrite (validationsOf_app i p _ _ (validated_fire t p)). f_equal.
  destruct (callback t) as [s|m|m|m]; try by rewrite decide_False.
  destruct (decide (CbLater s = CbLater i)) as [[= ->]|Hne].
  - destruct (fields p !! i); [|done].
    by rewrite filter_cons_True.
  - destruct (fields p !! s); [|done].
    rewrite filter_cons_False; [done|]. simpl. congruence.
Qed.

(** * What the timers leave alone *)



Lemma sameForm_refl p : sameForm p p.
Proof. by constructor. Qed.

Lemma sameForm_trans p q r : sameForm p q -> sameForm q r -> sameForm p r.
Proof. intros [] []. constructor; congruence. Qed.

Lemma sameForm_validateField i p : sameForm p (snd (validateField i p)).
Proof. constructor; try frame. apply bare_validateField. Qed.

Lemma sameForm_clearTimeout o p : sameForm p (clearTimeout o p).
Proof. destruct o; by constructor. Qed.

Lemma sameForm_run_callback cb p : sameForm p (run_callback cb p).
Proof.
  destruct cb; simpl; try (by constructor). unfold later.
  eapply sameForm_trans; [apply sameForm_clearTimeout|].
  apply sameForm_validateField.
Qed.

Lemma sameForm_fire t p : sameForm p (fire t p).
Proof.
  unfold fire. eapply sameForm_trans; [|apply sameForm_run_callback].
  by constructor.
Qed.

Lemma sameForm_advance limit p : sameForm p (advance limit p).
Proof.
  apply (advance_ind (sameForm p)); [apply sameForm_refl| |].
  - intros q t Hq _. apply (sameForm_trans _ q); [done|apply sameForm_fire].
  - intros q [] _. by constructor.
Qed.

Lemma sameForm_validateForm p : sameForm p (snd (validateForm p)).
Proof.
  apply (validateForm_ind (sameForm p)); [apply sameForm_refl|].
  intros i q Hq. apply (sameForm_trans _ q); [done|apply sameForm_validateField].
Qed.

(** * The debounced validator *)

Lemma value_lookup_bare (fs gs : list Field) i :
  bare <$> fs = bare <$> gs -> value <$> fs !! i = value <$> gs !! i.
Proof.
  intros E.
  assert (H : forall hs : list Field,
            value <$> hs !! i = value <$> (bare <$> hs) !! i).
  { intros hs. rewrite list_lookup_fmap. by destruct (hs !! i). }
  by rewrite (H fs), (H gs), E.
Qed.

Lemma armed_unique i d p t :
  wf p -> armed i d p -> t ∈ timers p -> callback t = CbLater i -> due t = d.
Proof.
  intros Hwf (t0 & Ht0 & Hcb0 & Hd) Ht Hcb.
  apply (wf_slot p Hwf t0 i Ht0) in Hcb0.
  apply (wf_slot p Hwf t i Ht) in Hcb.
  assert (t = t0) as -> by (apply (timer_unique p); congruence). done.
Qed.

Lemma quiet_fire i t p :
  quiet i p -> quiet i (fire t p).
Proof.
  intros Hq u [[Hu _]|(m & _ & Hcb & _)]%timers_fire_inv; [auto|].
  rewrite Hcb. done.
Qed.

Lemma fire_disarms i t p :
  wf p -> t ∈ timers p -> callback t = CbLater i -> quiet i (fire t p).
Proof.
  intros Hwf Ht Hcb u [[Hu Hne]|(m & _ & Hcb' & _)]%timers_fire_inv Hu'.
  - apply (wf_slot p Hwf t i Ht) in Hcb.
    apply (wf_slot p Hwf u i Hu) in Hu'. congruence.
  - congruence.
Qed.

Lemma armed_fire i d t p :
  wf p -> t ∈ timers p -> callback t <> CbLater i ->
  armed i d p -> armed i d (fire t p).
Proof.
  intros Hwf Ht Hcb (t0 & Ht0 & Hcb0 & Hd). exists t0. split; [|done].
  apply timers_fire_keep; try done. intros E.
  assert (t0 = t) by (by apply (timer_unique p)). congruence.
Qed.

(** Time passing over a page whose debounce closure is idle. *)
Lemma advance_quiet i limit p :
  wf p -> quiet i p ->
  quiet i (advance limit p)
  /\ validationsOf i (advance limit p) = validationsOf i p.
Proof.
  intros Hwf Hq.
  apply (advance_ind
    (fun q => quiet i q /\ validationsOf i q = validationsOf i p)); [done| |].
  - intros q t [Hqq Hv] (Ht & _)%nextDue_Some. split; [by apply quiet_fire|].
    rewrite validationsOf_fire, decide_False, app_nil_r; [done|]. by apply Hqq.
  - intros q [Hqq Hv] _. done.
Qed.

(** Time passing over a page whose debounce closure waits for [d]. *)
Lemma advance_armed i d v limit p :
  wf p -> armed i d p -> value <$> fields p !! i = Some v ->
  (limit < d /\ armed i d (advance limit p)
   /\ validationsOf i (advance limit p) = validationsOf i p)
  \/ (d <= limit /\ quiet i (advance limit p)
      /\ validationsOf i (advance limit p) = validationsOf i p ++ [(d, v)]).
Proof.
  intros Hwf Ha Hv.
  apply (advance_rule
    (fun q => wf q /\ value <$> fields q !! i = Some v
              /\ ((armed i d q /\ validationsOf i q = validationsOf i p)
                  \/ (d <= limit /\ quiet i q
                      /\ validationsOf i q = validationsOf i p ++ [(d, v)]))));
    [by auto| |].
  - intros q t (Hq & Hvq & Hst) Hnext.
    pose proof Hnext as (Ht & Hle & _)%nextDue_Some.
    split; [by apply (wf_fire limit)|].
    split; [by rewrite (value_lookup_bare _ _ i (bare_fire t q))|].
    rewrite validationsOf_fire.
    destruct Hst as [[Haq Hl]|(Hd & Hqq & Hl)].
    + destruct (decide (callback t = CbLater i)) as [Hcb|Hcb].
      * right. pose proof (armed_unique i d q t Hq Haq Ht Hcb) as Hdue.
        split; [lia|]. split; [by apply fire_disarms|].
        pose proof (wf_due q Hq t Ht).
        destruct (fields q !! i) as [f|]; [|done].
        injection Hvq as ->. rewrite Hl. do 3 f_equal. lia.
      * left. split; [by apply armed_fire|]. by rewrite app_nil_r.
    + right. split; [done|]. split; [by apply quiet_fire|].
      rewrite decide_False, app_nil_r; [done|]. by apply Hqq.
  - intros q (Hq & Hvq & [[(t & Ht & Hcb & Hd) Hl]|(Hd & Hqq & Hl)]) Hnone.
    + left. pose proof (proj1 (nextDue_None _ _) Hnone t Ht).
      split; [lia|]. split; [|done]. by exists t.
    + right. done.
Qed.

(** An [input] event queues the closure's [later], 300 ms from now. *)
Lemma input_arms i v f p :
  fields p !! i = Some f ->
  armed i (clock p + 300) (handle (Input i v) p)
  /\ clock (handle (Input i v) p) = clock p
  /\ value <$> fields (handle (Input i v) p) !! i = Some v
  /\ validationsOf i (handle (Input i v) p) = validationsOf i p.
Proof.
  intros Hf. simpl. rewrite Hf. unfold executedFunction. simpl.
  rewrite clock_clearTimeout, fields_clearTimeout. simpl.
  unfold validationsOf, armed. simpl. rewrite validated_clearTimeout. simpl.
  split; [|split; [done|split; [|done]]].
  - eexists. split; [apply elem_of_app; right; apply list_elem_of_singleton; reflexivity|].
    done.
  - rewrite list_lookup_insert_eq; [done|]. by apply lookup_lt_Some in Hf.
Qed.

Lemma last_cons_default {A} (a b : A) l :
  default a (last (b :: l)) = default b (last l).
Proof.
  destruct l as [|c l]; [done|].
  rewrite last_cons_cons, last_cons. by destruct (last l).
Qed.

Lemma run_edits_cons i e es p :
  run (edits i (e :: es)) p
  = run (edits i es) (handle (Input i (snd e)) (advance (fst e) p)).
Proof. done. Qed.

Lemma edits_run i es : forall p e0,
  wf p -> armed i (fst e0 + 300) p -> clock p = fst e0 ->
  value <$> fields p !! i = Some (snd e0) ->
  rapidAfter 300 (fst e0) es ->
  let q := run (edits i es) p in
  let el := default e0 (last es) in
  wf q /\ armed i (fst el + 300) q /\ clock q = fst el
  /\ value <$> fields q !! i = Some (snd el)
  /\ validationsOf i q = validationsOf i p.
Proof.
  induction es as [|e1 es IH]; intros p e0 Hwf Ha Hc Hv Hr; [done|].
  destruct Hr as [Hgap Hr]. cbv zeta.
  rewrite last_cons_default, run_edits_cons.
  destruct (advance_armed i _ _ (fst e1) p Hwf Ha Hv)
    as [(_ & Haq & Hl)|(? & _)]; [|lia].
  pose proof (wf_advance (fst e1) p Hwf) as Hwq.
  pose proof (clock_advance (fst e1) p) as Hcq.
  pose proof (value_lookup_bare _ _ i (bare_advance (fst e1) p)) as Hvq.
  rewrite Hv in Hvq. revert Hwq Hcq Hvq Haq Hl.
  generalize (advance (fst e1) p). intros q Hwq Hcq Hvq Haq Hl.
  apply fmap_Some in Hvq as (f & Hf & _).
  destruct (input_arms i (snd e1) f q Hf) as (Ha' & Hc' & Hv' & Hl').
  pose proof (wf_handle (Input i (snd e1)) q Hwq) as Hw'.
  revert Ha' Hc' Hv' Hl' Hw'. generalize (handle (Input i (snd e1)) q).
  intros q' Ha' Hc' Hv' Hl' Hw'.
  assert (Hclk : clock q' = fst e1) by lia.
  rewrite Hcq in Ha'. replace (Z.max (clock p) (fst e1)) with (fst e1) in Ha' by lia.
  destruct (IH q' e1 Hw' Ha' Hclk Hv' Hr) as (? & ? & ? & ? & Hl'').
  repeat (split; [done|]). by rewrite Hl'', Hl', Hl.
Qed.

(** C8. Rapid edits of one field, each less than 300 ms after the one
    before, make the debounced validator run once: nothing runs before
    300 ms have passed since the last edit, and from then on exactly one
    run has been added, made 300 ms after the last edit on the value
    that edit left. *)
Theorem debounce_trailing_edge i f p e es T :
  wf p -> quiet i p -> fields p !! i = Some f ->
  clock p <= fst e -> rapidAfter 300 (fst e) es ->
  let q := run (edits i (e :: es)) p in
  let el := default e (last es) in
  fst el <= T ->
  (T < fst el + 300 ->
     validationsOf i (advance T q) = validationsOf i p)
  /\ (fst el + 300 <= T ->
        validationsOf i (advance T q)
        = validationsOf i p ++ [(fst el + 300, snd el)]).
Proof.
  intros Hwf Hq Hf Hc Hr. cbv zeta. rewrite run_edits_cons.
  destruct (advance_quiet i (fst e) p Hwf Hq) as [Hqq Hl].
  pose proof (wf_advance (fst e) p Hwf) as Hwq.
  pose proof (clock_advance (fst e) p) as Hcq.
  pose proof (value_lookup_bare _ _ i (bare_advance (fst e) p)) as Hvq.
  rewrite Hf in Hvq. revert Hwq Hcq Hvq Hqq Hl.
  generalize (advance (fst e) p). intros q Hwq Hcq Hvq Hqq Hl.
  apply fmap_Some in Hvq as (g & Hg & _).
  destruct (input_arms i (snd e) g q Hg) as (Ha' & Hc' & Hv' & Hl').
  pose proof (wf_handle (Input i (snd e)) q Hwq) as Hw'.
  revert Ha' Hc' Hv' Hl' Hw'. generalize (handle (Input i (snd e)) q).
  intros q' Ha' Hc' Hv' Hl' Hw'.
  assert (Hclk : clock q' = fst e) by lia.
  rewrite Hcq in Ha'. replace (Z.max (clock p) (fst e)) with (fst e) in Ha' by lia.
  destruct (edits_run i es q' e Hw' Ha' Hclk Hv' Hr) as (Hw & Ha & _ & Hv & Hl'').
  revert Hw Ha Hv Hl''. generalize (run (edits i es) q').
  intros r Hw Ha Hv Hl'' HT.
  destruct (advance_armed i _ _ T r Hw Ha Hv) as [(? & _ & E)|(? & _ & E)];
    (split; intros ?; [try lia|try lia]); rewrite E; congruence.
Qed.

Lemma debounce_trailing_edge_witness :
  let p := load [mkField "" "email" true 1] [] None in
  let q := run (edits 0 [(10, js "a"); (100, js "a@"); (399, js "a@b.co")]) p in
  validationsOf 0 (advance 698 q) = []
  /\ validationsOf 0 (advance 699 q) = [(699, js "a@b.co")].
Proof.
  assert (Hq : quiet 0 (load [mkField "" "email" true 1] [] None)).
  { intros t Ht. by apply elem_of_nil in Ht. }
  pose proof (fun T =>
    debounce_trailing_edge 0 (mkField "" "email" true 1)
      (load [mkField "" "email" true 1] [] None)
      (10, js "a") [(100, js "a@"); (399, js "a@b.co")] T
      (wf_load _ _ _) Hq eq_refl ltac:(simpl; lia) ltac:(simpl; lia)) as H.
  cbv zeta in H. cbn [default last fst snd id] in H. cbv zeta. split.
  - destruct (H 698 ltac:(lia)) as [E _]. by rewrite E by lia.
  - destruct (H 699 ltac:(lia)) as [_ E]. by rewrite E by lia.
Defined.

(** * Toasts *)

Lemma findToast_updateToast m m' b p :
  findToast m (updateToast m' b p)
  = (if decide (m = m') then setShown b else id) <$> findToast m p.
Proof.
  unfold findToast, updateToast. simpl.
  induction (messages p) as [|y ys IH]; [done|].
  rewrite fmap_cons, !filter_cons.
  destruct (decide (toastId y = m')) as [Hy|Hy]; simpl.
  - destruct (decide (toastId y = m)) as [Hm|Hm]; [|done].
    simpl. rewrite decide_True by congruence. done.
  - destruct (decide (toastId y = m)) as [Hm|Hm]; [|done].
    simpl. rewrite decide_False by congruence. done.
Qed.

Lemma findToast_removeToast m m' p :
  findToast m (removeToast m' p)
  = if decide (m = m') then None else findToast m p.
Proof.
  unfold findToast, removeToast. simpl.
  induction (messages p) as [|y ys IH]; [by destruct (decide _)|].
  rewrite !filter_cons.
  destruct (decide (toastId y <> m')) as [Hy|Hy].
  - rewrite filter_cons. destruct (decide (toastId y = m)) as [Hm|Hm]; [|done].
    simpl. rewrite decide_False by congruence. done.
  - destruct (decide (toastId y = m)) as [Hm|Hm]; [|done].
    rewrite IH. simpl. destruct (decide (m = m')) as [|Hne]; [done|].
    destruct Hy. congruence.
Qed.

Lemma messages_validateField i p :
  messages (snd (validateField i p)) = messages p.
Proof. frame. Qed.

Lemma messages_clearTimeout o p : messages (clearTimeout o p) = messages p.
Proof. by destruct o. Qed.

Lemma findToast_fire m t p :
  findToast m (fire t p)
  = match callback t with
    | CbLater _ => findToast m p
    | CbShow m' => (if decide (m = m') then setShown true else id) <$> findToast m p
    | CbHide m' => (if decide (m = m') then setShown false else id) <$> findToast m p
    | CbRemove m' => if decide (m = m') then None else findToast m p
    end.
Proof.
  unfold fire. destruct (callback t) as [s|m'|m'|m']; simpl.
  - unfold later, findToast.
    by rewrite messages_validateField, messages_clearTimeout.
  - by rewrite findToast_updateToast.
  - change (findToast m (updateToast m' false
      (set_clock (Z.max (clock p) (due t))
         (set_timers (filter (fun u => timerId u <> timerId t) (timers p)) p)))
      = (if decide (m = m') then setShown false else id) <$> findToast m p).
    by rewrite findToast_updateToast.
  - by rewrite findToast_removeToast.
Qed.

Lemma option_fmap_id_eq {A} (o : option A) : id <$> o = o.
Proof. by destruct o. Qed.

(** Timers of other toasts and of the debounced validators leave the
    toast [m] as it is. *)
Lemma findToast_fire_other m t p :
  ~ toastTimer m t -> findToast m (fire t p) = findToast m p.
Proof.
  intros Hn. rewrite findToast_fire. unfold toastTimer, toastCallback in Hn.
  destruct (callback t) as [s|m'|m'|m']; [done|..];
    (rewrite decide_False; [by rewrite ?option_fmap_id_eq|]);
    intros ->; tauto.
Qed.

Lemma toastTimer_fire_inv m t p u :
  ~ toastTimer m t -> u ∈ timers (fire t p) -> toastTimer m u ->
  u ∈ timers p /\ timerId u <> timerId t.
Proof.
  intros Hn [?|(m' & Ht & Hu & _)]%timers_fire_inv Hm; [done|].
  destruct Hn. unfold toastTimer, toastCallback in *.
  rewrite Hu in Hm. rewrite Ht. destruct Hm as [|[|]]; simplify_eq; tauto.
Qed.

Lemma timer_keep p t u :
  wf p -> t ∈ timers p -> u ∈ timers p -> u <> t -> u ∈ timers (fire t p).
Proof.
  intros Hwf Ht Hu Hne. apply timers_fire_keep; try done.
  intros E. by apply Hne, (timer_unique p).
Qed.

Lemma toastTimer_dec m t : {toastTimer m t} + {~ toastTimer m t}.
Proof.
  unfold toastTimer, toastCallback.
  destruct (decide (callback t = CbShow m)); [left; tauto|].
  destruct (decide (callback t = CbHide m)); [left; tauto|].
  destruct (decide (callback t = CbRemove m)); [left; tauto|].
  right; tauto.
Qed.

Lemma stage_fire m x t0 limit t p :
  wf p -> nextDue limit (timers p) = Some t -> shown x = false ->
  ToastStage m x t0 p -> ToastStage m x t0 (fire t p).
Proof.
  intros Hwf Hnext Hx Hst.
  pose proof Hnext as (Ht & Hle & Hmin)%nextDue_Some.
  pose proof (clock_fire t p) as Hclk.
  pose proof (wf_due p Hwf t Ht) as Hdue.
  destruct (toastTimer_dec m t) as [Hm|Hm].
  - (* a timer of the toast itself *)
    destruct Hst as [ts th Hf Hts Hcs Hds Hth Hch Hdh Hall
                    |th Hf Hc Hth Hch Hdh Hall
                    |tr Hf Hc Htr Hcr Hdr Hall
                    |Hf Hc Hall].
    + destruct (Hall t Ht Hm) as [->| ->].
      * apply (StShown _ _ _ _ th).
        -- by rewrite findToast_fire, Hcs, decide_True, Hf.
        -- lia.
        -- apply timer_keep; try done. congruence.
        -- done.
        -- done.
        -- intros u [[Hu Hne]|(m' & E & _)]%timers_fire_inv Hmu;
             [|congruence].
           destruct (Hall u Hu Hmu) as [->| ->]; [done|done].
      * destruct (Hmin ts Hts); lia.
    + pose proof (Hall t Ht Hm) as ->.
      apply (StFading _ _ _ _
        {| timerId := nextTimerId p; due := Z.max (clock p) (due th) + 300;
           callback := CbRemove m |}).
      * rewrite findToast_fire, Hch, decide_True, Hf by done.
        destruct x; simpl in *. by rewrite Hx.
      * lia.
      * unfold fire. rewrite Hch. simpl. apply elem_of_app. right.
        by apply list_elem_of_singleton.
      * done.
      * simpl. lia.
      * intros u Hu Hmu. unfold fire in Hu. rewrite Hch in Hu. simpl in Hu.
        apply elem_of_app in Hu as [[Hne Hu]%list_elem_of_filter|Hu].
        -- pose proof (Hall u Hu Hmu) as ->. done.
        -- by apply list_elem_of_singleton in Hu.
    + pose proof (Hall t Ht Hm) as ->.
      apply StRemoved.
      * by rewrite findToast_fire, Hcr, decide_True.
      * lia.
      * intros u [[Hu Hne]|(m' & E & _)]%timers_fire_inv Hmu; [|congruence].
        pose proof (Hall u Hu Hmu) as ->. done.
    + by destruct (Hall t Ht).
  - (* any other timer *)
    pose proof (findToast_fire_other m t p Hm) as Hfind.
    assert (Hkeep : forall u, u ∈ timers p -> toastTimer m u ->
                              u ∈ timers (fire t p)).
    { intros u Hu Hmu. apply timer_keep; try done. by intros ->. }
    assert (Hinv : forall u, u ∈ timers (fire t p) -> toastTimer m u ->
                             u ∈ timers p).
    { intros u Hu Hmu. by apply (toastTimer_fire_inv m t p u Hm Hu). }
    assert (Hmt : forall u c, callback u = c -> toastCallback m c ->
                              toastTimer m u).
    { intros u c <-. done. }
    destruct Hst as [ts th Hf Hts Hcs Hds Hth Hch Hdh Hall
                    |th Hf Hc Hth Hch Hdh Hall
                    |tr Hf Hc Htr Hcr Hdr Hall
                    |Hf Hc Hall].
    + apply (StCreated _ _ _ _ ts th); try done; try congruence.
      * apply Hkeep; [done|]. apply (Hmt _ _ Hcs). by left.
      * apply Hkeep; [done|]. apply (Hmt _ _ Hch). right; by left.
      * intros u Hu Hmu. apply Hall; [by apply Hinv | done].
    + apply (StShown _ _ _ _ th); try done; try congruence.
      * lia.
      * apply Hkeep; [done|]. apply (Hmt _ _ Hch). right; by left.
      * intros u Hu Hmu. apply Hall; [by apply Hinv | done].
    + apply (StFading _ _ _ _ tr); try done; try congruence.
      * lia.
      * apply Hkeep; [done|]. apply (Hmt _ _ Hcr). right; by right.
      * intros u Hu Hmu. apply Hall; [by apply Hinv | done].
    + apply StRemoved; [congruence | lia |].
      intros u Hu Hmu. apply (Hall u); [by apply Hinv | done].
Qed.

Lemma findToast_fresh m x (ys : list Toast) :
  (forall y, y ∈ ys -> toastId y <> m) -> toastId x = m ->
  head (filter (fun y => toastId y = m) (ys ++ [x])) = Some x.
Proof.
  intros Hys Hx. induction ys as [|y ys IH]; simpl.
  - by rewrite filter_cons_True.
  - rewrite filter_cons_False; [|apply Hys; by left].
    apply IH. intros z Hz. apply Hys. by right.
Qed.

Lemma findToast_showMessage text ty p :
  wf p ->
  findToast (nextMessage p) (showMessage text ty p)
  = Some {| toastId := nextMessage p; toastText := text;
            className := js "form-message " ++ ty; shown := false |}.
Proof.
  intros Hwf. unfold findToast, showMessage. simpl.
  apply findToast_fresh; [|done].
  intros y Hy. pose proof (wf_toast p Hwf y Hy). lia.
Qed.

Lemma stage_showMessage text ty p :
  wf p ->
  ToastStage (nextMessage p)
    {| toastId := nextMessage p; toastText := text;
       className := js "form-message " ++ ty; shown := false |}
    (clock p) (showMessage text ty p).
Proof.
  intros Hwf.
  apply (StCreated _ _ _ _
    {| timerId := nextTimerId p; due := clock p + 100;
       callback := CbShow (nextMessage p) |}
    {| timerId := S (nextTimerId p); due := clock p + 3000;
       callback := CbHide (nextMessage p) |}); try done.
  - by apply findToast_showMessage.
  - unfold showMessage. simpl. rewrite !elem_of_app, !list_elem_of_singleton.
    left; by right.
  - unfold showMessage. simpl. rewrite !elem_of_app, !list_elem_of_singleton.
    by right.
  - unfold showMessage. simpl. intros t.
    rewrite !elem_of_app, !list_elem_of_singleton.
    intros [[Ht|?]|?] Hm; [|by left|by right].
    pose proof (wf_toast_timer p Hwf t _ Ht Hm). lia.
Qed.

Lemma stage_set_clock m x t0 c p :
  clock p <= c -> ToastStage m x t0 p -> ToastStage m x t0 (set_clock c p).
Proof.
  intros Hc [ts th Hf Hts Hcs Hds Hth Hch Hdh Hall
            |th Hf Hcl Hth Hch Hdh Hall
            |tr Hf Hcl Htr Hcr Hdr Hall
            |Hf Hcl Hall].
  - by apply (StCreated _ _ _ _ ts th).
  - apply (StShown _ _ _ _ th); try done. simpl. lia.
  - apply (StFading _ _ _ _ tr); try done. simpl. lia.
  - apply StRemoved; try done. simpl. lia.
Qed.

Lemma stage_advance m x t0 limit p :
  wf p -> shown x = false -> ToastStage m x t0 p ->
  ToastStage m x t0 (advance limit p).
Proof.
  intros Hwf Hx Hst.
  apply (advance_rule (fun q => wf q /\ ToastStage m x t0 q)); [done| |].
  - intros q t [Hq Hs] Hnext. split; [by apply (wf_fire limit)|].
    by apply (stage_fire m x t0 limit).
  - intros q [Hq Hs] _. apply stage_set_clock; [lia | done].
Qed.

(** The handlers of the page leave the toasts already attached, and
    their timers, alone. *)
Lemma stage_frame m x t0 p q :
  findToast m q = findToast m p -> clock p <= clock q ->
  (forall t, toastTimer m t -> t ∈ timers q <-> t ∈ timers p) ->
  ToastStage m x t0 p -> ToastStage m x t0 q.
Proof.
  intros Hf Hc Ht Hst.
  assert (Hmt : forall u c, callback u = c -> toastCallback m c ->
                            toastTimer m u).
  { intros u c <-. done. }
  destruct Hst as [ts th Hfi Hts Hcs Hds Hth Hch Hdh Hall
                  |th Hfi Hcl Hth Hch Hdh Hall
                  |tr Hfi Hcl Htr Hcr Hdr Hall
                  |Hfi Hcl Hall].
  - apply (StCreated _ _ _ _ ts th); try done; try congruence.
    + apply Ht; [|done]. apply (Hmt _ _ Hcs). by left.
    + apply Ht; [|done]. apply (Hmt _ _ Hch). right; by left.
    + intros u Hu Hmu. apply Hall; [by apply Ht | done].
  - apply (StShown _ _ _ _ th); try done; try congruence.
    + lia.
    + apply Ht; [|done]. apply (Hmt _ _ Hch). right; by left.
    + intros u Hu Hmu. apply Hall; [by apply Ht | done].
  - apply (StFading _ _ _ _ tr); try done; try congruence.
    + lia.
    + apply Ht; [|done]. apply (Hmt _ _ Hcr). right; by right.
    + intros u Hu Hmu. apply Hall; [by apply Ht | done].
  - apply StRemoved; [congruence | lia |].
    intros u Hu Hmu. apply (Hall u); [by apply Ht | done].
Qed.

Lemma sameLoop_validateForm p : sameLoop p (snd (validateForm p)).
Proof.
  apply (validateForm_ind (sameLoop p)); [by constructor|].
  intros i q [E1 E2 E3 E4]. constructor.
  - by rewrite clock_validateField.
  - by rewrite timers_validateField.
  - by rewrite messages_validateField.
  - rewrite <- E4. frame.
Qed.

Lemma sameLoop_handleSubmit p : sameLoop p (handleSubmit p).
Proof.
  unfold handleSubmit. pose proof (sameLoop_validateForm p) as H.
  destruct (validateForm p) as [ok q]. simpl in H.
  destruct ok; [|done]. unfold submitForm.
  destruct (submitBtn q); [|done]. destruct H. by constructor.
Qed.

Lemma clock_handle e p : clock (handle e p) = clock p.
Proof.
  destruct e as [i|i v| |k resp]; simpl.
  - apply clock_validateField.
  - destruct (fields p !! i); [|done]. unfold executedFunction. simpl.
    by rewrite clock_clearTimeout.
  - by destruct (sameLoop_handleSubmit p).
  - destruct (pending p !! k); [|done]. by destruct resp as [[]|].
Qed.

Lemma nextMessage_handle e p : (nextMessage p <= nextMessage (handle e p))%nat.
Proof.
  destruct e as [i|i v| |k resp]; simpl.
  - by rewrite (sf_next _ _ (sameForm_validateField i p)).
  - destruct (fields p !! i); [|done]. unfold executedFunction. simpl.
    by destruct (timeouts p !! i).
  - by rewrite (sl_next _ _ (sameLoop_handleSubmit p)).
  - destruct (pending p !! k); [|done]. destruct resp as [[]|]; simpl; lia.
Qed.

Lemma findToast_snoc m (ys : list Toast) x :
  toastId x <> m ->
  head (filter (fun y => toastId y = m) (ys ++ [x]))
  = head (filter (fun y => toastId y = m) ys).
Proof.
  intros Hx. by rewrite filter_app, filter_cons_False, filter_nil, app_nil_r.
Qed.

Lemma stage_handle m x t0 e p :
  wf p -> (m < nextMessage p)%nat ->
  ToastStage m x t0 p -> ToastStage m x t0 (handle e p).
Proof.
  intros Hwf Hm. apply stage_frame; [|by rewrite clock_handle|].
  - unfold findToast. destruct e as [i|i v| |k resp]; simpl.
    + by rewrite messages_validateField.
    + destruct (fields p !! i); [|done]. unfold executedFunction. simpl.
      by rewrite messages_clearTimeout.
    + by rewrite (sl_messages _ _ (sameLoop_handleSubmit p)).
    + destruct (pending p !! k); [|done].
      destruct resp as [[]|]; simpl; apply findToast_snoc; simpl; lia.
  - intros t Ht. destruct e as [i|i v| |k resp]; simpl.
    + by rewrite timers_validateField.
    + destruct (fields p !! i); [|done]. unfold executedFunction. simpl.
      rewrite elem_of_app, list_elem_of_singleton. split.
      * intros [Hin| ->]; [|by destruct Ht as [|[|]]].
        destruct (timeouts p !! i); simpl in Hin; [|done].
        by apply list_elem_of_filter in Hin as [_ ?].
      * intros Hin. left.
        destruct (timeouts p !! i) as [id|] eqn:Hid; simpl; [|done].
        apply list_elem_of_filter. split; [|done]. intros E.
        rewrite <- E in Hid. apply (wf_slot p Hwf t i Hin) in Hid.
        unfold toastTimer in Ht. rewrite Hid in Ht.
        by destruct Ht as [|[|]].
    + by rewrite (sl_timers _ _ (sameLoop_handleSubmit p)).
    + destruct (pending p !! k); [|done].
      assert (Hnew : forall kind, ~ toastTimer m
                {| timerId := kind; due := clock p + 100;
                   callback := CbShow (nextMessage p) |}
              /\ ~ toastTimer m
                {| timerId := S kind; due := clock p + 3000;
                   callback := CbHide (nextMessage p) |}).
      { intros kind. unfold toastTimer. simpl.
        split; intros [|[|]]; simplify_eq; lia. }
      destruct (Hnew (nextTimerId p)) as [Hs Hh].
      destruct resp as [[]|]; simpl;
        rewrite !elem_of_app, !list_elem_of_singleton;
        (split; [intros [[?| ->]| ->]; [done|by destruct Hs|by destruct Hh]
                |intros ?; by left; left]).
Qed.

Lemma stage_run m x t0 evs : forall p,
  wf p -> (m < nextMessage p)%nat -> shown x = false ->
  ToastStage m x t0 p ->
  ToastStage m x t0 (run evs p).
Proof.
  induction evs as [|[t e] evs IH]; intros p Hwf Hm Hx Hst; [done|].
  simpl. unfold dispatch. simpl. apply IH; try done.
  - by apply wf_handle, wf_advance.
  - pose proof (nextMessage_handle e (advance t p)).
    pose proof (sf_next _ _ (sameForm_advance t p)). lia.
  - apply stage_handle; [by apply wf_advance| |by apply stage_advance].
    by rewrite (sf_next _ _ (sameForm_advance t p)).
Qed.

Lemma clock_run T evs : forall p,
  clock p <= T -> Forall (fun te => fst te <= T) evs -> clock (run evs p) <= T.
Proof.
  induction evs as [|[t e] evs IH]; intros p Hp Hevs; [done|].
  inv Hevs. simpl. apply IH; [|done]. unfold dispatch. simpl in *.
  rewrite clock_handle, clock_advance. lia.
Qed.

(** C9, as amended.  A toast is attached without the class [show]; it
    carries the class from 100 ms after its creation until 3000 ms after
    its creation, that is for 2900 ms; from then on it is attached without
    the class, and it is detached 300 ms later, 3300 ms after its
    creation - whatever the user and the network do meanwhile. *)
Theorem toast_lifecycle text ty p evs T :
  wf p ->
  let m := nextMessage p in
  let t0 := clock p in
  let x := {| toastId := m; toastText := text;
              className := js "form-message " ++ ty; shown := false |} in
  let q := advance T (run evs (showMessage text ty p)) in
  t0 <= T -> Forall (fun te => fst te <= T) evs ->
  findToast m (showMessage text ty p) = Some x
  /\ (T < t0 + 100 -> findToast m q = Some x)
  /\ (t0 + 100 <= T < t0 + 3000 -> findToast m q = Some (setShown true x))
  /\ (t0 + 3000 <= T < t0 + 3300 -> findToast m q = Some x)
  /\ (t0 + 3300 <= T -> findToast m q = None).
Proof.
  intros Hwf m t0 x q HT Hevs.
  pose proof (stage_showMessage text ty p Hwf) as Hst. fold m t0 x in Hst.
  split; [by apply findToast_showMessage|].
  pose proof (wf_showMessage text ty p Hwf) as Hw1.
  assert (Hm1 : (m < nextMessage (showMessage text ty p))%nat)
    by (unfold showMessage; simpl; lia).
  pose proof (stage_run m x t0 evs _ Hw1 Hm1 eq_refl Hst) as Hr.
  pose proof (stage_advance m x t0 T _ (wf_run evs _ Hw1) eq_refl Hr) as Hq.
  pose proof (advance_settled T (run evs (showMessage text ty p))) as Hset.
  pose proof (clock_advance T (run evs (showMessage text ty p))) as Hclk.
  pose proof (clock_run T evs (showMessage text ty p)) as Hcr.
  fold q in Hq, Hset, Hclk.
  assert (Hc : clock q = T).
  { rewrite Hclk. assert (clock (showMessage text ty p) <= T)
      by (unfold showMessage; simpl; fold t0; lia).
    pose proof (Hcr ltac:(done) Hevs). lia. }
  destruct Hq as [ts th Hf Hts Hcs Hds Hth Hch Hdh Hall
                 |th Hf Hcl Hth Hch Hdh Hall
                 |tr Hf Hcl Htr Hcr' Hdr Hall
                 |Hf Hcl Hall].
  - pose proof (Hset ts Hts). repeat split; intros; (done || lia).
  - pose proof (Hset th Hth). repeat split; intros; (done || lia).
  - pose proof (Hset tr Htr). repeat split; intros; (done || lia).
  - repeat split; intros; (done || lia).
Qed.

Lemma toast_lifecycle_witness :
  let p := showMessage (js "ok") (js "success") (load twoFields [] None) in
  let evs := [(20, Input 0%nat (js "x")); (40, Blur 1%nat)] in
  shown <$> findToast 0 (advance 50 (run evs p)) = Some false
  /\ shown <$> findToast 0 (advance 100 (run evs p)) = Some true
  /\ shown <$> findToast 0 (advance 2999 (run evs p)) = Some true
  /\ shown <$> findToast 0 (advance 3000 (run evs p)) = Some false
  /\ findToast 0 (advance 3300 (run evs p)) = None.
Proof.
  assert (Hevs : forall T, 40 <= T ->
            Forall (fun te : Z * Event => fst te <= T)
              [(20, Input 0%nat (js "x")); (40, Blur 1%nat)]).
  { intros T HT. repeat constructor; simpl; lia. }
  pose proof (fun T => toast_lifecycle (js "ok") (js "success")
                         (load twoFields [] None)
                         [(20, Input 0%nat (js "x")); (40, Blur 1%nat)] T
                         (wf_load twoFields [] None)) as H.
  cbv zeta in H. cbn [clock load nextMessage] in H. cbv zeta.
  split; [|split; [|split; [|split]]].
  - pose proof (H 50 ltac:(lia) (Hevs 50 ltac:(lia))) as (_ & E & _).
    by rewrite E by lia.
  - pose proof (H 100 ltac:(lia) (Hevs 100 ltac:(lia))) as (_ & _ & E & _).
    by rewrite E by lia.
  - pose proof (H 2999 ltac:(lia) (Hevs 2999 ltac:(lia))) as (_ & _ & E & _).
    by rewrite E by lia.
  - pose proof (H 3000 ltac:(lia) (Hevs 3000 ltac:(lia)))
      as (_ & _ & _ & E & _).
    by rewrite E by lia.
  - pose proof (H 3300 ltac:(lia) (Hevs 3300 ltac:(lia)))
      as (_ & _ & _ & _ & E).
    by rewrite E by lia.
Defined.

(** C9, as stated, fails: 3050 ms after its creation a toast has been
    visible for less than 3000 ms, and the class [show] is gone. *)
Lemma toast_hidden_before_3100 :
  let p := showMessage (js "ok") (js "success") (load [] [] None) in
  100 <= 3050 < 100 + 3000
  /\ shown <$> findToast 0 (advance 3050 p) = Some false.
Proof. split; [lia | by vm_compute]. Qed.

(** * Inline errors *)

Lemma validate_ext f g :
  value f = value g -> type f = type g -> required f = required g ->
  validate f = validate g.
Proof. intros E1 E2 E3. unfold validate. by rewrite E1, E2, E3. Qed.

Lemma setValue_id f : setValue (value f) f = f.
Proof. by destruct f. Qed.

(** ** The search for the error node *)

Lemma found_cons parent e errs :
  found parent (e :: errs)
  = if decide (parent `prefix_of` fst e) then Some e else found parent errs.
Proof.
  unfold found, querySelector. cbn [list_find].
  destruct (decide _); [done|].
  by destruct (list_find (fun e1 => parent `prefix_of` fst e1) errs) as [[k e']|].
Qed.

Lemma found_Some parent errs e :
  found parent errs = Some e -> e ∈ errs /\ parent `prefix_of` fst e.
Proof.
  unfold found, querySelector.
  destruct (list_find (fun e1 => parent `prefix_of` fst e1) errs) as [[k e']|] eqn:Hf; [|done].
  intros [= <-]. apply list_find_Some in Hf as (Hk & Hpre & _).
  split; [by eapply list_elem_of_lookup_2|done].
Qed.

Lemma found_None parent errs :
  found parent errs = None <->
  forall e, e ∈ errs -> ~ parent `prefix_of` fst e.
Proof.
  unfold found, querySelector. rewrite fmap_None, list_find_None.
  by rewrite Forall_forall.
Qed.

Lemma querySelector_found parent errs k e :
  querySelector parent errs = Some (k, e) ->
  errs !! k = Some e /\ found parent errs = Some e.
Proof.
  intros Hq. unfold found. rewrite Hq. split; [|done].
  unfold querySelector in Hq. by apply list_find_Some in Hq as (? & _).
Qed.

Lemma querySelector_None parent errs :
  querySelector parent errs = None -> found parent errs = None.
Proof. intros Hq. unfold found. by rewrite Hq. Qed.

(** A change of the list at a node that does not lie within [parent]
    changes nothing of what is found from [parent]. *)
Lemma found_appendChild_ne parent other message errs :
  ~ parent `prefix_of` other ->
  found parent (appendChild other message errs) = found parent errs.
Proof.
  intros Hne. induction errs as [|e errs IH]; simpl.
  - rewrite found_cons. by rewrite decide_False.
  - destruct (errorBefore other (fst e)).
    + rewrite (found_cons parent (other, message)). by rewrite decide_False.
    + rewrite !found_cons. by rewrite IH.
Qed.

Lemma found_insert_ne parent errs k e message :
  errs !! k = Some e -> ~ parent `prefix_of` fst e ->
  found parent (<[k := (fst e, message)]> errs) = found parent errs.
Proof.
  revert k. induction errs as [|e0 errs IH]; intros k Hk Hne; [done|].
  destruct k as [|k];
    cbn [insert list_insert delete list_delete lookup list_lookup] in *.
  - injection Hk as ->. rewrite !found_cons. simpl.
    by rewrite !decide_False.
  - rewrite !found_cons. destruct (decide _); [done|]. by apply IH.
Qed.

Lemma found_delete_ne parent errs k e :
  errs !! k = Some e -> ~ parent `prefix_of` fst e ->
  found parent (delete k errs) = found parent errs.
Proof.
  revert k. induction errs as [|e0 errs IH]; intros k Hk Hne; [done|].
  destruct k as [|k];
    cbn [insert list_insert delete list_delete lookup list_lookup] in *.
  - injection Hk as ->. rewrite found_cons. by rewrite decide_False.
  - rewrite !found_cons. destruct (decide _); [done|]. by apply (IH k).
Qed.

(** What is found from the node itself after a change there. *)
Lemma found_appendChild_eq parent message errs :
  found parent errs = None ->
  found parent (appendChild parent message errs) = Some (parent, message).
Proof.
  induction errs as [|e errs IH]; simpl.
  - intros _. rewrite found_cons. by rewrite decide_True.
  - rewrite found_cons. destruct (decide (parent `prefix_of` fst e)); [done|].
    intros Hn. destruct (errorBefore parent (fst e)).
    + rewrite found_cons. by rewrite decide_True.
    + rewrite found_cons, decide_False by done. by apply IH.
Qed.

Lemma found_insert_eq parent errs k e message :
  querySelector parent errs = Some (k, e) ->
  found parent (<[k := (fst e, message)]> errs) = Some (fst e, message).
Proof.
  intros Hq. apply querySelector_found in Hq as Hk. destruct Hk as [Hk _].
  unfold querySelector in Hq.
  apply list_find_Some in Hq as (_ & Hpre & Hfirst).
  revert k Hk Hfirst. induction errs as [|e0 errs IH]; intros k Hk Hfirst;
    [done|].
  destruct k as [|k];
    cbn [insert list_insert lookup list_lookup] in *.
  - rewrite found_cons. by rewrite decide_True.
  - rewrite found_cons.
    rewrite decide_False by (apply (Hfirst 0%nat e0); [done|lia]).
    apply IH; [done|]. intros j y Hj Hlt.
    apply (Hfirst (S j) y); [done|lia].
Qed.

Lemma found_delete_eq parent errs k e :
  querySelector parent errs = Some (k, e) ->
  (forall e', e' ∈ errs -> parent `prefix_of` fst e' -> fst e' = fst e) ->
  NoDup (fst <$> errs) ->
  found parent (delete k errs) = None.
Proof.
  intros Hq Hall Hnd. apply found_None. intros e' Hin Hpre.
  apply querySelector_found in Hq as [Hk _].
  apply list_elem_of_lookup_1 in Hin as [k' Hk'].
  rewrite list_lookup_delete in Hk'.
  remember (if decide (k' < k)%nat then k' else S k') as idx eqn:Hidx.
  assert (E : fst e' = fst e).
  { apply Hall; [by eapply list_elem_of_lookup_2|done]. }
  assert (Hsame : idx = k).
  { apply (NoDup_lookup _ _ _ (fst e) Hnd).
    - rewrite list_lookup_fmap. apply fmap_Some. by exists e'.
    - rewrite list_lookup_fmap. apply fmap_Some. by exists e. }
  destruct (decide (k' < k)%nat); lia.
Qed.

Lemma elem_of_appendChild parent message errs e :
  e ∈ appendChild parent message errs <-> e = (parent, message) \/ e ∈ errs.
Proof.
  induction errs as [|e0 errs IH]; simpl.
  - rewrite list_elem_of_singleton. split; [by left|].
    by intros [?|?%elem_of_nil].
  - destruct (errorBefore parent (fst e0)).
    + by rewrite elem_of_cons.
    + rewrite !elem_of_cons, IH. tauto.
Qed.

Lemma appendChild_keys parent message errs :
  fst <$> appendChild parent message errs ≡ₚ parent :: (fst <$> errs).
Proof.
  induction errs as [|e0 errs IH]; simpl; [done|].
  destruct (errorBefore parent (fst e0)); [done|].
  rewrite fmap_cons, IH. apply Permutation_swap.
Qed.

(** ** What a validation changes *)

Lemma fields_validateField j fj p :
  fields p !! j = Some fj ->
  fields (snd (validateField j p))
  = <[j := setErrorClass (negb (isValid (validate fj))) fj]> (fields p).
Proof.
  intros Hj. unfold validateField. rewrite Hj. unfold showFieldValidation.
  simpl. destruct (isValid (validate fj)); simpl;
    by destruct (querySelector _ _) as [[? ?]|].
Qed.

Lemma fieldErrors_validateField j fj p :
  fields p !! j = Some fj ->
  fieldErrors (snd (validateField j p))
  = match querySelector (parentNode fj) (fieldErrors p) with
    | Some (k, e) =>
        if isValid (validate fj) then delete k (fieldErrors p)
        else <[k := (fst e, message (validate fj))]> (fieldErrors p)
    | None =>
        if isValid (validate fj) then fieldErrors p
        else appendChild (parentNode fj) (message (validate fj)) (fieldErrors p)
    end.
Proof.
  intros Hj. unfold validateField. rewrite Hj. unfold showFieldValidation.
  simpl. destruct (isValid (validate fj)); simpl;
    by destruct (querySelector _ _) as [[? ?]|].
Qed.

(** On a list in which the only error node within the parent of the
    field is that parent's own, validating the field leaves shown from
    its parent what the verdict calls for, and changes nothing of what
    is found from a node that does not hold that parent. *)
Lemma found_validateField j fj p :
  fields p !! j = Some fj ->
  (forall e, e ∈ fieldErrors p ->
     parentNode fj `prefix_of` fst e -> fst e = parentNode fj) ->
  NoDup (fst <$> fieldErrors p) ->
  let q := snd (validateField j p) in
  snd <$> found (parentNode fj) (fieldErrors q) = expected (validate fj)
  /\ (forall other, ~ other `prefix_of` parentNode fj ->
        found other (fieldErrors q) = found other (fieldErrors p))
  /\ (forall e, e ∈ fieldErrors q ->
        fst e = parentNode fj \/ fst e ∈ fst <$> fieldErrors p)
  /\ NoDup (fst <$> fieldErrors q).
Proof.
  intros Hj Hown Hnd q. subst q. rewrite (fieldErrors_validateField j fj p Hj).
  unfold expected.
  destruct (querySelector (parentNode fj) (fieldErrors p)) as [[k e]|] eqn:Hq.
  - pose proof (querySelector_found _ _ _ _ Hq) as [Hk Hf].
    apply found_Some in Hf as Hpre. destruct Hpre as [Hin Hpre].
    pose proof (Hown e Hin Hpre) as He.
    destruct (isValid (validate fj)).
    + split; [|split; [|split]].
      * rewrite (found_delete_eq _ _ k e); try done.
        intros e' Hin' Hpre'. transitivity (parentNode fj); [by apply Hown|done].
      * intros other Hother. apply (found_delete_ne _ _ k e); [done|].
        intros Hpre'. apply Hother. by rewrite <- He.
      * intros e' Hin'. right. apply list_elem_of_fmap. exists e'.
        split; [done|]. apply list_elem_of_lookup_1 in Hin' as [k' Hk'].
        rewrite list_lookup_delete in Hk'. by eapply list_elem_of_lookup_2.
      * eapply sublist_NoDup; [exact Hnd|].
        apply fmap_sublist, sublist_delete.
    + split; [|split; [|split]].
      * by rewrite (found_insert_eq _ _ k e).
      * intros other Hother. apply (found_insert_ne _ _ k e); [done|].
        intros Hpre'. apply Hother. by rewrite <- He.
      * intros e' Hin'. apply list_elem_of_lookup_1 in Hin' as [k' Hk'].
        destruct (decide (k = k')) as [<-|Hne].
        -- rewrite list_lookup_insert_eq in Hk' by (by eapply lookup_lt_Some).
           injection Hk' as <-. by left.
        -- rewrite list_lookup_insert_ne in Hk' by done. right.
           apply list_elem_of_fmap. exists e'. split; [done|].
           by eapply list_elem_of_lookup_2.
      * rewrite list_fmap_insert. rewrite list_insert_id; [done|].
        rewrite list_lookup_fmap. apply fmap_Some. by exists e.
  - apply querySelector_None in Hq as Hf.
    destruct (isValid (validate fj)).
    + split; [by rewrite Hf|]. split; [done|]. split; [|done].
      intros e' Hin'. right. apply list_elem_of_fmap. by exists e'.
    + split; [|split; [|split]].
      * by rewrite found_appendChild_eq.
      * intros other Hother. by apply found_appendChild_ne.
      * intros e' [->|Hin']%elem_of_appendChild; [by left|right].
        apply list_elem_of_fmap. by exists e'.
      * rewrite appendChild_keys. apply NoDup_cons. split; [|done].
        intros (e' & E & Hin')%list_elem_of_fmap.
        apply (proj1 (found_None _ _) Hf e' Hin').
        exists []. by rewrite app_nil_r.
Qed.

Lemma lastValidated_snoc i p q e :
  validated q = validated p ++ [e] ->
  lastValidated i q
  = if decide (snd (fst e) = i) then Some (snd e) else lastValidated i p.
Proof.
  intros E. unfold lastValidated. rewrite E, filter_app, filter_cons, filter_nil.
  destruct (decide (snd (fst e) = i)).
  - by rewrite last_snoc.
  - by rewrite app_nil_r.
Qed.

Lemma lastValidated_same i p q :
  validated q = validated p -> lastValidated i q = lastValidated i p.
Proof. intros E. unfold lastValidated. by rewrite E. Qed.

Lemma parents_insert (fs : list Field) i f g :
  fs !! i = Some f -> parentNode g = parentNode f ->
  parentNode <$> <[i := g]> fs = parentNode <$> fs.
Proof.
  intros Hf Hg. rewrite list_fmap_insert. apply list_insert_id.
  by rewrite list_lookup_fmap, Hf, Hg.
Qed.

Lemma apart_parents (fs gs : list Field) :
  parentNode <$> gs = parentNode <$> fs -> apart fs -> apart gs.
Proof.
  intros E Hfs i j f g Hi Hj Hpre.
  assert (H : forall k h, gs !! k = Some h ->
            exists h0, fs !! k = Some h0 /\ parentNode h0 = parentNode h).
  { intros k h Hk.
    assert (Hl : (parentNode <$> fs) !! k = Some (parentNode h))
      by (by rewrite <- E, list_lookup_fmap, Hk).
    rewrite list_lookup_fmap in Hl.
    apply fmap_Some in Hl as (h0 & ? & ?). by exists h0. }
  destruct (H i f Hi) as (f0 & Hf0 & Ef). destruct (H j g Hj) as (g0 & Hg0 & Eg).
  apply (Hfs i j f0 g0 Hf0 Hg0). by rewrite Ef, Eg.
Qed.

Lemma apart_own (fs : list Field) j fj (errs : list (Node * jsstring)) e :
  apart fs -> fs !! j = Some fj ->
  (forall e, e ∈ errs -> fst e ∈ parentNode <$> fs) ->
  e ∈ errs -> parentNode fj `prefix_of` fst e -> fst e = parentNode fj.
Proof.
  intros Hap Hj Hkeys Hin Hpre.
  destruct (proj1 (list_elem_of_fmap _ _ _) (Hkeys e Hin)) as (g & E & Hg).
  apply list_elem_of_lookup_1 in Hg as [i Hi].
  destruct e as [a b]. simpl in *. subst a.
  pose proof (Hap j i fj g Hj Hi Hpre) as <-. congruence.
Qed.

Lemma syncInv_validateField j p : syncInv p -> syncInv (snd (validateField j p)).
Proof.
  intros (Hap & Hkeys & Hnd & Hinv).
  destruct (fields p !! j) as [fj|] eqn:Hj;
    [|by unfold validateField; rewrite Hj].
  pose proof (fields_validateField j fj p Hj) as Hfs.
  pose proof (validated_validateField j p) as Hlog. rewrite Hj in Hlog.
  destruct (found_validateField j fj p Hj) as (Hown & Hother & Hk' & Hnd');
    [by intros e; apply (apart_own (fields p) j) | done |].
  revert Hfs Hlog Hown Hother Hk' Hnd'. generalize (snd (validateField j p)).
  intros q Hfs Hlog Hown Hother Hk' Hnd'.
  assert (Hpar : parentNode <$> fields q = parentNode <$> fields p)
    by (rewrite Hfs; by apply (parents_insert _ _ fj)).
  split; [by apply (apart_parents (fields p))|].
  split; [|split; [done|]].
  - intros e He. rewrite Hpar. destruct (Hk' e He) as [->|Hin].
    + apply list_elem_of_fmap. exists fj. split; [done|].
      by eapply list_elem_of_lookup_2.
    + apply list_elem_of_fmap in Hin as (e0 & -> & Hin). by apply Hkeys.
  - intros i f v Hf Hv. unfold displayed.
    rewrite (lastValidated_snoc i p q _ Hlog) in Hv. simpl in Hv.
    rewrite Hfs in Hf. destruct (decide (j = i)) as [->|Hne].
    + rewrite list_lookup_insert_eq in Hf by (by apply lookup_lt_Some in Hj).
      injection Hf as <-. injection Hv as <-. simpl.
      rewrite Hown. reflexivity.
    + rewrite list_lookup_insert_ne in Hf by done.
      rewrite Hother; [exact (Hinv i f v Hf Hv)|].
      intros Hpre. apply Hne. symmetry. by apply (Hap i j f fj).
Qed.

Lemma syncInv_frame p q :
  fields q = fields p -> fieldErrors q = fieldErrors p ->
  validated q = validated p -> syncInv p -> syncInv q.
Proof.
  intros E1 E2 E3 H. unfold syncInv, displayed, lastValidated in *.
  by rewrite E1, E2, E3.
Qed.

Lemma syncInv_clearTimeout o p : syncInv p -> syncInv (clearTimeout o p).
Proof. apply syncInv_frame; by destruct o. Qed.

Lemma syncInv_fire t p : syncInv p -> syncInv (fire t p).
Proof.
  intros Hp. unfold fire. destruct (callback t); simpl.
  - unfold later. apply syncInv_validateField, syncInv_clearTimeout.
    revert Hp. by apply syncInv_frame.
  - revert Hp. by apply syncInv_frame.
  - revert Hp. by apply syncInv_frame.
  - revert Hp. by apply syncInv_frame.
Qed.

Lemma syncInv_advance limit p : syncInv p -> syncInv (advance limit p).
Proof.
  intros Hp. apply advance_ind; [done | |].
  - intros q t Hq _. by apply syncInv_fire.
  - intros q Hq _. revert Hq. by apply syncInv_frame.
Qed.

Lemma syncInv_fields p fs :
  (forall i f, fs !! i = Some f ->
     exists f0, fields p !! i = Some f0 /\ parentNode f = parentNode f0
                /\ type f = type f0 /\ required f = required f0) ->
  parentNode <$> fs = parentNode <$> fields p ->
  syncInv p -> syncInv (set_fields fs p).
Proof.
  intros Hfs Hpar (Hap & Hkeys & Hnd & Hinv).
  split; [by apply (apart_parents (fields p))|].
  split; [|split; [done|]]; simpl.
  - intros e He. rewrite Hpar. by apply Hkeys.
  - intros i f v Hf Hv. destruct (Hfs i f Hf) as (f0 & Hf0 & E1 & E2 & E3).
    change (lastValidated i (set_fields fs p)) with (lastValidated i p) in Hv.
    pose proof (Hinv i f0 v Hf0 Hv) as H0. unfold displayed in *. simpl.
    rewrite E1, H0. f_equal. by apply validate_ext.
Qed.

Lemma syncInv_handle e p : syncInv p -> syncInv (handle e p).
Proof.
  intros Hp. destruct e as [i|i v| |k resp]; simpl.
  - by apply syncInv_validateField.
  - destruct (fields p !! i) as [f|] eqn:Hf; [|done].
    unfold executedFunction. simpl.
    apply (syncInv_frame
      (clearTimeout (timeouts p !! i)
         (set_fields (<[i := setValue v f]> (fields p)) p)));
      try done.
    apply syncInv_clearTimeout.
    apply syncInv_fields; [|by apply (parents_insert _ _ f)|done].
    intros j g. destruct (decide (i = j)) as [->|Hne].
    + rewrite list_lookup_insert_eq by (by apply lookup_lt_Some in Hf).
      intros [= <-]. by exists f.
    + rewrite list_lookup_insert_ne by done. intros Hg. by exists g.
  - unfold handleSubmit.
    pose proof (validateForm_ind syncInv p Hp syncInv_validateField) as Hv.
    destruct (validateForm p) as [ok q]; simpl in Hv.
    destruct ok; [|done]. unfold submitForm.
    destruct (submitBtn q); [|done]. revert Hv. by apply syncInv_frame.
  - destruct (pending p !! k) as [orig|]; [|done].
    unfold submitForm_resume.
    assert (Hq : syncInv (set_pending (delete k (pending p)) p))
      by (revert Hp; by apply syncInv_frame).
    revert Hq. generalize (set_pending (delete k (pending p)) p). intros q Hq.
    destruct resp as [[]|]; try (revert Hq; by apply syncInv_frame).
    apply (syncInv_frame
      (set_fields (resetField <$> fields q) q)); try done.
    apply syncInv_fields; [| |done].
    + intros j g. rewrite list_lookup_fmap.
      intros (g0 & Hg0 & ->)%fmap_Some. by exists g0.
    + rewrite <- list_fmap_compose. done.
Qed.

Lemma syncInv_run evs p : syncInv p -> syncInv (run evs p).
Proof.
  revert p. induction evs as [|[t e] evs IH]; intros p Hp; [done|].
  simpl. apply IH. unfold dispatch. simpl.
  by apply syncInv_handle, syncInv_advance.
Qed.

Lemma syncInv_inSync p : syncInv p -> inSync p.
Proof.
  intros (_ & _ & _ & Hinv) i f Hf Hv. rewrite (Hinv i f (value f) Hf Hv).
  by rewrite setValue_id.
Qed.

Lemma syncInv_load fs act btn : apart fs -> syncInv (load fs act btn).
Proof.
  intros Hap. split; [done|]. split; [by intros e ?%elem_of_nil|].
  split; [constructor|]. by intros i f v _ Hv.
Qed.

(** On a form whose fields have parents apart from one another, after
    any sequence of events and timers the inline error found from the
    parent of a field agrees with the verdict on the field's current
    value whenever the field's last validation read that value. *)
Lemma apart_fields_in_sync fs act btn evs :
  apart fs -> inSync (run evs (load fs act btn)).
Proof. intros Hap. by apply syncInv_inSync, syncInv_run, syncInv_load. Qed.

(** C7 fails on a form with two fields in one wrapper.  The first field
    is required and empty; leaving it shows its error.  The second is
    valid; leaving it removes the error node found from the common
    parent, which is the error of the first field.  With every event
    handled and no timer queued, the first field is invalid, its last
    validation read the value it holds, it carries the class ['error'],
    and yet the form shows no error node. *)
Theorem shared_parent_loses_error :
  let p0 := load [mkField "" "text" true 7; mkField "x" "text" false 7]
              [] None in
  let p1 := run [(10, Blur 0%nat)] p0 in
  let p2 := run [(10, Blur 0%nat); (20, Blur 1%nat)] p0 in
  fieldErrors p1 = [([7%nat], msgRequired)]
  /\ timers p2 = []
  /\ exists f,
       fields p2 !! 0%nat = Some f
       /\ lastValidated 0 p2 = Some (value f)
       /\ validate f = {| isValid := false; message := msgRequired |}
       /\ errorClass f = true
       /\ displayed p2 f = None
       /\ fieldErrors p2 = [].
Proof.
  split; [by vm_compute|]. split; [by vm_compute|].
  exists (setErrorClass true (mkField "" "text" true 7)).
  repeat split; by vm_compute.
Qed.

(** The same happens between a field and a field whose wrapper lies
    within the wrapper of the first, although no two fields have the
    same parent: the search from the outer parent finds the error node
    of the inner field, and validating the valid outer field removes
    it. *)
Lemma nested_parent_loses_error :
  let p0 := load nestedFields [] None in
  let p1 := run [(10, Blur 0%nat)] p0 in
  let p2 := run [(10, Blur 0%nat); (20, Blur 1%nat)] p0 in
  NoDup (parentNode <$> nestedFields)
  /\ fieldErrors p1 = [([3%nat; 0%nat], msgRequired)]
  /\ timers p2 = []
  /\ exists f,
       fields p2 !! 0%nat = Some f
       /\ lastValidated 0 p2 = Some (value f)
       /\ validate f = {| isValid := false; message := msgRequired |}
       /\ displayed p2 f = None
       /\ fieldErrors p2 = [].
Proof.
  split; [by apply (bool_decide_unpack _)|].
  split; [by vm_compute|]. split; [by vm_compute|].
  exists (setErrorClass true innerField).
  repeat split; by vm_compute.
Qed.

(** An error also outlives the value it was shown for.  A field that
    need not be filled is edited to a valid address and the form is
    submitted; while the call is pending the field is edited to a value
    that is no address, and 300 ms later its error is shown.  When the
    call then succeeds, [form.reset()] empties the field and no listener
    runs: with every timer run, the field is valid and still shows the
    error. *)
Lemma reset_leaves_stale_error :
  let p0 := load [mkField "" "email" false 1] [] (Some sendButton) in
  let p := advance 5000
             (run [(10, Input 0%nat (js "a@b.co")); (400, Submit);
                   (410, Input 0%nat (js "x"));
                   (800, Settle 0 (Resolved true))] p0) in
  length (fetched p) = 1%nat
  /\ timers p = []
  /\ exists f,
       fields p !! 0%nat = Some f
       /\ value f = []
       /\ validate f = valid
       /\ errorClass f = true
       /\ displayed p f = Some msgEmail.
Proof.
  split; [by vm_compute|]. split; [by vm_compute|].
  exists (setErrorClass true (mkField "" "email" false 1)).
  repeat split; by vm_compute.
Qed.

(** * Submission *)

Lemma bare_forallb (fs gs : list Field) :
  bare <$> fs = bare <$> gs ->
  forallb (fun f => isValid (validate f)) fs
  = forallb (fun f => isValid (validate f)) gs.
Proof.
  revert gs. induction fs as [|f fs IH]; intros [|g gs]; try done.
  rewrite !fmap_cons. intros E.
  assert (E1 : bare f = bare g) by congruence.
  assert (E2 : bare <$> fs = bare <$> gs) by congruence.
  simpl. by rewrite (IH gs E2), (bare_validate f g E1).
Qed.

Lemma bare_FormData p q :
  bare <$> fields q = bare <$> fields p -> FormData q = FormData p.
Proof. intros E. exact E. Qed.

Lemma forallb_seq_S (f : nat -> bool) k n :
  forallb f (seq (S k) n) = forallb (fun i => f (S i)) (seq k n).
Proof.
  revert k. induction n as [|n IH]; intros k; [done|].
  simpl. by rewrite IH.
Qed.

Lemma forallb_lookup_seq {A} (P : A -> bool) (l : list A) :
  forallb (fun i => match l !! i with Some x => P x | None => true end)
    (seq 0 (length l))
  = forallb P l.
Proof.
  induction l as [|x l IH]; [done|].
  simpl. by rewrite forallb_seq_S, <- IH.
Qed.

Lemma fst_validateField i p :
  fst (validateField i p)
  = match fields p !! i with
    | Some f => isValid (validate f)
    | None => true
    end.
Proof. unfold validateField. by destruct (fields p !! i). Qed.

Lemma bare_verdict (fs gs : list Field) i :
  bare <$> fs = bare <$> gs ->
  match fs !! i with Some f => isValid (validate f) | None => true end
  = match gs !! i with Some f => isValid (validate f) | None => true end.
Proof.
  intros E. destruct (fs !! i) as [f|] eqn:Hf.
  - destruct (bare_lookup fs gs i f E Hf) as (g & -> & Hg).
    by rewrite (bare_validate g f Hg).
  - destruct (gs !! i) as [g|] eqn:Hg; [|done].
    destruct (bare_lookup gs fs i g (eq_sym E) Hg) as (f & Hf' & _).
    congruence.
Qed.

(** [validateForm] answers whether every field is valid. *)
Lemma fst_validateForm p : fst (validateForm p) = allValid p.
Proof.
  unfold validateForm, allValid. rewrite <- forallb_lookup_seq.
  generalize (seq 0 (length (fields p))). intros idx.
  assert (H : forall acc, bare <$> fields (snd acc) = bare <$> fields p ->
    fst (foldl (fun acc i =>
         let '(ok, q) := validateField i (snd acc) in
         (if negb ok then false else fst acc, q)) acc idx)
    = fst acc
      && forallb (fun i => match fields p !! i with
                           | Some x => isValid (validate x)
                           | None => true
                           end) idx).
  { induction idx as [|i idx IH]; intros acc Hacc; simpl.
    - by rewrite andb_true_r.
    - pose proof (fst_validateField i (snd acc)) as Hfst.
      pose proof (bare_validateField i (snd acc)) as Hb.
      destruct (validateField i (snd acc)) as [ok q]. simpl in *.
      rewrite IH by (simpl; congruence). simpl.
      rewrite <- (bare_verdict _ _ i Hacc), <- Hfst.
      destruct ok, (fst acc); done. }
  by rewrite H.
Qed.

(** With a submit control in the form, [handleSubmit] calls [fetch] once,
    with the form data built from the controls as they stand, if every
    field is valid, and not at all otherwise. *)
Lemma fetched_handleSubmit p b :
  submitBtn p = Some b ->
  fetched (handleSubmit p)
  = fetched p ++ (if allValid p then [(target p, FormData p)] else []).
Proof.
  intros Hb. unfold handleSubmit.
  pose proof (fst_validateForm p) as Hfst.
  pose proof (sameForm_validateForm p) as [Hf Ha Hbtn _ Hfe _].
  destruct (validateForm p) as [ok q]. simpl in *. subst ok.
  destruct (allValid p).
  - unfold submitForm. rewrite Hbtn, Hb. simpl.
    unfold target. rewrite Ha, Hfe. do 3 f_equal.
    by apply bare_FormData.
  - by rewrite Hfe, app_nil_r.
Qed.

(** Without one, nothing is sent. *)
Lemma fetched_handleSubmit_no_button p :
  submitBtn p = None -> fetched (handleSubmit p) = fetched p.
Proof.
  intros Hb. unfold handleSubmit.
  pose proof (sameForm_validateForm p) as [_ _ Hbtn _ Hfe _].
  destruct (validateForm p) as [ok q]. simpl in *.
  destruct ok; [|done]. unfold submitForm. by rewrite Hbtn, Hb.
Qed.

(** C1 fails at a form that has no element with [type="submit"]: its
    only field is valid, and yet submitting it makes no call of [fetch]. *)
Theorem submit_without_button_sends_nothing :
  let p := load [mkField "a@b.co" "email" true 1] [] None in
  allValid p = true /\ fetched (handleSubmit p) = [].
Proof. by vm_compute. Qed.

(** C5. A submission started while the controller is idle disables the
    submit control and shows the busy label until the promise of [fetch]
    settles; however it settles - success, a response that is not ok, or
    a rejection - the control is enabled again with the label it had
    before, and the controller is idle again. *)
Theorem submit_restores_button p b t1 t2 resp :
  submitBtn p = Some b -> controllerState p = Idle -> allValid p = true ->
  let p1 := run [(t1, Submit)] p in
  let p2 := run [(t1, Submit); (t2, Settle 0 resp)] p in
  submitBtn p1 = Some {| disabled := true; textContent := busyText |}
  /\ controllerState p1 = Submitting
  /\ submitBtn p2
     = Some {| disabled := false; textContent := textContent b |}
  /\ controllerState p2 = Idle.
Proof.
  intros Hb Hidle Hvalid.
  assert (Hpend : pending p = []).
  { unfold controllerState in Hidle. by destruct (pending p). }
  assert (H1 : submitBtn (run [(t1, Submit)] p)
               = Some {| disabled := true; textContent := busyText |}
               /\ pending (run [(t1, Submit)] p) = [textContent b]).
  { simpl. unfold dispatch. simpl.
    pose proof (sameForm_advance t1 p) as [Hf _ Hbtn Hpe _ _].
    revert Hf Hbtn Hpe. generalize (advance t1 p). intros q Hf Hbtn Hpe.
    unfold handleSubmit.
    pose proof (fst_validateForm q) as Hfst.
    pose proof (sameForm_validateForm q) as [_ _ Hbtn' Hpe' _ _].
    destruct (validateForm q) as [ok r]. simpl in *.
    assert (ok = true) as ->.
    { rewrite Hfst. unfold allValid in *. by rewrite (bare_forallb _ _ Hf). }
    unfold submitForm. rewrite Hbtn', Hbtn, Hb. simpl.
    by rewrite Hpe', Hpe, Hpend. }
  destruct H1 as [Hbusy Hp1]. cbv zeta.
  split; [done|]. split; [unfold controllerState; by rewrite Hp1|].
  change (run [(t1, Submit); (t2, Settle 0 resp)] p)
    with (handle (Settle 0 resp) (advance t2 (run [(t1, Submit)] p))).
  revert Hbusy Hp1. generalize (run [(t1, Submit)] p). intros q Hbusy Hp1.
  pose proof (sameForm_advance t2 q) as [_ _ Hbtn Hpe _ _].
  revert Hbtn Hpe. generalize (advance t2 q). intros r Hbtn Hpe.
  simpl. rewrite Hpe, Hp1. simpl. unfold controllerState.
  by destruct resp as [[]|].
Qed.

Lemma submit_restores_button_witness :
  let p := load [mkField "a@b.co" "email" true 1] [] (Some sendButton) in
  submitBtn (run [(10, Submit)] p)
  = Some {| disabled := true; textContent := busyText |}
  /\ submitBtn (run [(10, Submit); (90, Settle 0 Rejected)] p)
     = Some sendButton
  /\ controllerState (run [(10, Submit); (90, Settle 0 Rejected)] p) = Idle.
Proof.
  destruct (submit_restores_button
              (load [mkField "a@b.co" "email" true 1] [] (Some sendButton))
              sendButton 10 90 Rejected eq_refl eq_refl eq_refl)
    as (H1 & _ & H2 & H3).
  done.
Defined.

(** C6, as amended.  When the promise of a pending submission settles
    with a response that is not ok, or is rejected, every field is left
    as it was and an error toast is attached; when it settles with an ok
    response, a success toast is attached and every field takes its
    default value again, which is the empty string for a control that
    was loaded empty. *)
Theorem settle_outcome p k originalText resp :
  pending p !! k = Some originalText ->
  let q := handle (Settle k resp) p in
  match resp with
  | Resolved true =>
      value <$> fields q = defaultValue <$> fields p
      /\ messages q = messages p ++ [toast p "表单提交成功！" "success"]
  | _ =>
      fields q = fields p
      /\ messages q = messages p ++ [toast p "提交失败，请稍后重试" "error"]
  end.
Proof.
  intros Hk. simpl. rewrite Hk.
  destruct resp as [[]|]; simpl; split; try done.
  by rewrite <- list_fmap_compose.
Qed.

Lemma settle_outcome_witness :
  let p := run [(10, Submit)] (load [topicField] [] (Some sendButton)) in
  (value <$> fields (handle (Settle 0 (Resolved true)) p) = [js "general"]
   /\ messages (handle (Settle 0 (Resolved true)) p)
      = [toast p "表单提交成功！" "success"])
  /\ (value <$> fields (handle (Settle 0 (Resolved false)) p) = [js "sales"]
      /\ messages (handle (Settle 0 (Resolved false)) p)
         = [toast p "提交失败，请稍后重试" "error"]).
Proof.
  pose proof (fun resp =>
    settle_outcome (run [(10, Submit)] (load [topicField] [] (Some sendButton)))
      0 (js "Send") resp eq_refl) as H.
  split.
  - destruct (H (Resolved true)) as [-> ->]. done.
  - destruct (H (Resolved false)) as [-> ->]. done.
Defined.

(** C6, as stated, fails: after a successful submission a field that was
    loaded with a value holds that value again; it is not cleared. *)
Lemma success_restores_defaults :
  let q := run [(10, Submit); (90, Settle 0 (Resolved true))]
             (load [topicField] [] (Some sendButton)) in
  value <$> fields q = [js "general"]
  /\ ~ Forall (fun f => value f = []) (fields q).
Proof.
  split; [by vm_compute|].
  intros H. apply Forall_fmap in H. revert H.
  vm_compute. intros H. by inv H.
Qed.

(** * More on the field validator *)

Lemma trimStart_white_app w s : Forall white w -> trimStart (w ++ s) = trimStart s.
Proof. induction 1 as [|c w Hc _ IH]; simpl; [done|]. by rewrite Hc. Qed.

Lemma trimStart_app s r :
  trimStart s <> [] -> trimStart (s ++ r) = trimStart s ++ r.
Proof.
  induction s as [|c s IH]; simpl; [done|].
  destruct (isWhiteSpace c); [done|]. done.
Qed.

Lemma trimEnd_white_app s w : Forall white w -> trimEnd (s ++ w) = trimEnd s.
Proof.
  intros Hw. unfold trimEnd. rewrite rev_app_distr.
  rewrite trimStart_white_app; [done|]. by apply Forall_rev.
Qed.

Lemma trim_white_app w1 s w2 :
  Forall white w1 -> Forall white w2 -> trim (w1 ++ s ++ w2) = trim s.
Proof.
  intros H1 H2. unfold trim. rewrite (trimStart_white_app w1 _ H1).
  destruct (trimStart s) as [|c r] eqn:Hs.
  - assert (Forall white s) as Hws.
    { apply trim_white. unfold trim. by rewrite Hs. }
    rewrite trimStart_white_app by done.
    by rewrite (trimStart_white w2 H2).
  - rewrite trimStart_app by (by rewrite Hs).
    rewrite Hs. by apply trimEnd_white_app.
Qed.

(** X1. Whitespace around the value never changes the verdict. *)
Theorem validate_ignores_outer_whitespace (f : Field) (w1 w2 : jsstring) :
  Forall white w1 -> Forall white w2 ->
  validate (setValue (w1 ++ value f ++ w2) f) = validate f.
Proof.
  intros H1 H2. unfold validate. simpl. by rewrite trim_white_app.
Qed.

Lemma validate_ignores_outer_whitespace_witness :
  validate (mkField "  a@b  " "email" true 0)
  = validate (mkField "a@b" "email" true 0).
Proof.
  apply (validate_ignores_outer_whitespace
           (mkField "a@b" "email" true 0) (js "  ") (js "  ")).
  - repeat constructor.
  - repeat constructor.
Defined.

Lemma plain_no_at (s : jsstring) :
  Forall plainChar s -> count_occ N.eq_dec s 0x40%N = 0%nat.
Proof.
  induction 1 as [|c s [_ Hc] _ IH]; [done|].
  simpl. by destruct (N.eq_dec c 64%N).
Qed.

(** X2. An accepted e-mail address holds exactly one [@], no whitespace, and
    at least five characters. *)
Theorem valid_email_one_at (f : Field) :
  trim (value f) <> [] -> type f = js "email" ->
  isValid (validate f) = true ->
  count_occ N.eq_dec (trim (value f)) 0x40%N = 1%nat
  /\ Forall (fun c => isWhiteSpace c = false) (trim (value f))
  /\ (5 <= length (trim (value f)))%nat.
Proof.
  intros Hv Ht Hok. rewrite (validate_email f Hv Ht) in Hok.
  apply test_Matches, Matches_emailRegex in Hok
    as (loc & dom & tld & -> & Hl & Hd & Ht' & Fl & Fd & Ft).
  split; [|split].
  - rewrite !count_occ_app, (plain_no_at loc Fl), (plain_no_at dom Fd),
      (plain_no_at tld Ft). done.
  - rewrite !Forall_app. repeat split; try (by repeat constructor).
    + eapply Forall_impl; [exact Fl|]. by intros c [? _].
    + eapply Forall_impl; [exact Fd|]. by intros c [? _].
    + eapply Forall_impl; [exact Ft|]. by intros c [? _].
  - rewrite !length_app. simpl.
    destruct loc, dom, tld; simpl; try done; lia.
Qed.

Lemma valid_email_one_at_witness :
  count_occ N.eq_dec (js "a@b.co") 0x40%N = 1%nat.
Proof.
  apply (valid_email_one_at (mkField " a@b.co " "email" false 0)).
  - by vm_compute.
  - reflexivity.
  - by vm_compute.
Defined.

(** * More on submission *)

(** What one [submit] event does on a form that has a submit control and
    whose fields are all valid. *)
Lemma dispatch_Submit p b t :
  submitBtn p = Some b -> allValid p = true ->
  let q := dispatch p (t, Submit) in
  submitBtn q = Some {| disabled := true; textContent := busyText |}
  /\ pending q = pending p ++ [textContent b]
  /\ length (fetched q) = S (length (fetched p))
  /\ allValid q = true.
Proof.
  intros Hb Hvalid. unfold dispatch. cbn [fst snd handle].
  pose proof (sameForm_advance t p) as [Hf _ Hbtn Hpe Hfe _].
  revert Hf Hbtn Hpe Hfe. generalize (advance t p). intros q Hf Hbtn Hpe Hfe.
  unfold handleSubmit.
  pose proof (fst_validateForm q) as Hfst.
  pose proof (sameForm_validateForm q) as [Hf' _ Hbtn' Hpe' Hfe' _].
  destruct (validateForm q) as [ok r]. simpl in *.
  assert (Hq : allValid q = true).
  { unfold allValid in *. by rewrite (bare_forallb _ _ Hf). }
  assert (ok = true) as -> by congruence.
  unfold submitForm. rewrite Hbtn', Hbtn, Hb. simpl.
  rewrite Hpe', Hpe, Hfe', Hfe, length_app. simpl.
  repeat split; try done; [lia|].
  unfold allValid in *. simpl. by rewrite (bare_forallb _ _ Hf').
Qed.

(** What the settling of the [k]-th pending [fetch] does to the control. *)
Lemma dispatch_Settle p k originalText t resp :
  pending p !! k = Some originalText ->
  let q := dispatch p (t, Settle k resp) in
  submitBtn q = Some {| disabled := false; textContent := originalText |}
  /\ pending q = delete k (pending p).
Proof.
  intros Hk. unfold dispatch. cbn [fst snd].
  pose proof (sameForm_advance t p) as [_ _ _ Hpe _ _].
  revert Hpe. generalize (advance t p). intros q Hpe.
  simpl. rewrite Hpe, Hk. by destruct resp as [[]|].
Qed.

Lemma run_snoc evs te p : run (evs ++ [te]) p = dispatch (run evs p) te.
Proof. unfold run. by rewrite foldl_app. Qed.

(** X5. A second submission made while the first is pending is not held back:
    [fetch] is called again, and the second call captures the busy label
    as the text to restore.  When the first call settles the control is
    enabled although a submission is still pending, and when the second
    settles the control is left with the busy label. *)
Theorem overlapping_submissions p b t1 t2 t3 t4 r1 r2 :
  submitBtn p = Some b -> controllerState p = Idle -> allValid p = true ->
  let q2 := run [(t1, Submit); (t2, Submit)] p in
  let q3 := run [(t1, Submit); (t2, Submit); (t3, Settle 0 r1)] p in
  let q4 := run [(t1, Submit); (t2, Submit); (t3, Settle 0 r1);
                 (t4, Settle 0 r2)] p in
  length (fetched q2) = S (S (length (fetched p)))
  /\ pending q2 = [textContent b; busyText]
  /\ submitBtn q3 = Some {| disabled := false; textContent := textContent b |}
  /\ controllerState q3 = Submitting
  /\ submitBtn q4 = Some {| disabled := false; textContent := busyText |}
  /\ controllerState q4 = Idle.
Proof.
  intros Hb Hidle Hvalid.
  assert (Hpend : pending p = []).
  { unfold controllerState in Hidle. by destruct (pending p). }
  destruct (dispatch_Submit p b t1 Hb Hvalid) as (B1 & P1 & F1 & V1).
  rewrite Hpend in P1. simpl in P1.
  change (run [(t1, Submit); (t2, Submit)] p)
    with (dispatch (dispatch p (t1, Submit)) (t2, Submit)).
  change (run [(t1, Submit); (t2, Submit); (t3, Settle 0 r1)] p)
    with (dispatch (dispatch (dispatch p (t1, Submit)) (t2, Submit))
            (t3, Settle 0 r1)).
  change (run [(t1, Submit); (t2, Submit); (t3, Settle 0 r1);
               (t4, Settle 0 r2)] p)
    with (dispatch (dispatch (dispatch (dispatch p (t1, Submit)) (t2, Submit))
            (t3, Settle 0 r1)) (t4, Settle 0 r2)).
  revert B1 P1 F1 V1. generalize (dispatch p (t1, Submit)).
  intros q1 B1 P1 F1 V1.
  destruct (dispatch_Submit q1 _ t2 B1 V1) as (B2 & P2 & F2 & V2).
  rewrite P1 in P2. simpl in P2.
  revert B2 P2 F2 V2. generalize (dispatch q1 (t2, Submit)).
  intros q2 B2 P2 F2 V2. cbv zeta.
  split; [lia|]. split; [done|].
  destruct (dispatch_Settle q2 0 (textContent b) t3 r1) as (B3 & P3);
    [by rewrite P2|].
  rewrite P2 in P3. simpl in P3.
  revert B3 P3. generalize (dispatch q2 (t3, Settle 0 r1)). intros q3 B3 P3.
  split; [done|]. split; [unfold controllerState; by rewrite P3|].
  destruct (dispatch_Settle q3 0 busyText t4 r2) as (B4 & P4);
    [by rewrite P3|].
  rewrite P3 in P4. simpl in P4.
  split; [done|]. unfold controllerState. by rewrite P4.
Qed.

Lemma overlapping_submissions_witness :
  let p := load [mkField "a@b.co" "email" true 1] [] (Some sendButton) in
  submitBtn (run [(10, Submit); (20, Submit); (90, Settle 0 Rejected);
                  (95, Settle 0 (Resolved true))] p)
  = Some {| disabled := false; textContent := busyText |}.
Proof.
  apply (overlapping_submissions
           (load [mkField "a@b.co" "email" true 1] [] (Some sendButton))
           sendButton 10 20 90 95 Rejected (Resolved true)
           eq_refl eq_refl eq_refl).
Defined.

(** X4. A submission stopped by an invalid field changes nothing but the
    inline errors: the values, the submit control, the pending calls, the
    calls made, the toasts and the timers are as before. *)
Theorem invalid_submit_changes_nothing p :
  allValid p = false ->
  let q := handleSubmit p in
  value <$> fields q = value <$> fields p
  /\ submitBtn q = submitBtn p
  /\ pending q = pending p
  /\ fetched q = fetched p
  /\ messages q = messages p
  /\ timers q = timers p.
Proof.
  intros Hinv. unfold handleSubmit.
  pose proof (fst_validateForm p) as Hfst.
  pose proof (sameForm_validateForm p) as [Hf _ Hbtn Hpe Hfe _].
  pose proof (sameLoop_validateForm p) as [_ Hti Hme _].
  destruct (validateForm p) as [ok q]. simpl in *.
  assert (ok = false) as -> by congruence.
  repeat split; try done.
  assert (H : forall fs : list Field, value <$> fs = value <$> (bare <$> fs)).
  { intros fs. by rewrite <- list_fmap_compose. }
  by rewrite (H (fields q)), (H (fields p)), Hf.
Qed.

Lemma invalid_submit_changes_nothing_witness :
  let p := load twoFields [] (Some sendButton) in
  submitBtn (handleSubmit p) = Some sendButton
  /\ fetched (handleSubmit p) = [].
Proof.
  destruct (invalid_submit_changes_nothing
              (load twoFields [] (Some sendButton)) eq_refl)
    as (_ & H1 & _ & H2 & _).
  done.
Defined.

Lemma lastValidated_validateField j p i f :
  fields (snd (validateField j p)) !! i = Some f ->
  (j = i -> lastValidated i (snd (validateField j p)) = Some (value f))
  /\ (j <> i -> lastValidated i (snd (validateField j p)) = lastValidated i p
               /\ exists g, fields p !! i = Some g /\ value g = value f).
Proof.
  destruct (fields p !! j) as [fj|] eqn:Hj.
  - pose proof (fields_validateField j fj p Hj) as Hfs.
    pose proof (validated_validateField j p) as Hlog. rewrite Hj in Hlog.
    revert Hfs Hlog. generalize (snd (validateField j p)). intros q Hfs Hlog Hf.
    rewrite (lastValidated_snoc i p q _ Hlog). simpl. rewrite Hfs in Hf.
    split.
    + intros ->. rewrite decide_True by done.
      rewrite list_lookup_insert_eq in Hf by (by apply lookup_lt_Some in Hj).
      by injection Hf as <-.
    + intros Hne. rewrite decide_False by done.
      rewrite list_lookup_insert_ne in Hf by done. split; [done|by exists f].
  - unfold validateField. rewrite Hj. simpl. intros Hf. split.
    + intros ->. congruence.
    + intros _. split; [done|by exists f].
Qed.

(** [validateForm] does not stop at the first invalid field: when it
    returns, the last validation of every field has read the value the
    field holds. *)
Lemma lastValidated_validateForm p i f :
  fields (snd (validateForm p)) !! i = Some f ->
  lastValidated i (snd (validateForm p)) = Some (value f).
Proof.
  unfold validateForm.
  assert (Hlen : length (fields (snd (validateForm p))) = length (fields p)).
  { pose proof (sf_fields _ _ (sameForm_validateForm p)) as E.
    apply (f_equal length) in E. by rewrite !length_fmap in E. }
  unfold validateForm in Hlen. intros Hf.
  assert (Hi : i ∈ seq 0 (length (fields p))).
  { apply elem_of_seq. apply lookup_lt_Some in Hf. lia. }
  revert Hi Hf. clear Hlen. generalize (seq 0 (length (fields p))). intros idx.
  set (step := fun acc j =>
         let '(ok, q) := validateField j (snd acc) in
         (if negb ok then false else fst acc, q)).
  assert (H : forall (acc : bool * Page) g,
    (i ∈ idx \/ (exists h, fields (snd acc) !! i = Some h /\ value h = value g
                           /\ lastValidated i (snd acc) = Some (value g))) ->
    fields (snd (foldl step acc idx)) !! i = Some g ->
    lastValidated i (snd (foldl step acc idx)) = Some (value g)).
  { induction idx as [|j idx IH]; intros acc g Hin Hg; simpl in *.
    - destruct Hin as [Hin|(h & _ & _ & Hl)]; [by apply elem_of_nil in Hin|done].
    - apply IH; [|done].
      destruct (decide (i ∈ idx)) as [|Hni]; [by left|right].
      assert (Hb : bare <$> fields (snd (foldl step (step acc j) idx))
                   = bare <$> fields (snd (step acc j))).
      { clear. generalize (step acc j). induction idx as [|k idx IH];
          intros a; simpl; [done|]. rewrite IH. unfold step.
        pose proof (bare_validateField k (snd a)).
        by destruct (validateField k (snd a)). }
      destruct (bare_lookup _ _ i g Hb Hg) as (h & Hh & Ebh).
      exists h. split; [done|]. split; [by apply bare_value|].
      rewrite <- (bare_value _ _ Ebh).
      unfold step in Hh |- *.
      pose proof (lastValidated_validateField j (snd acc) i h) as Hlv.
      destruct (validateField j (snd acc)) as [ok q]. simpl in *.
      destruct (Hlv Hh) as [Heq Hne].
      destruct (decide (j = i)) as [E|E]; [by apply Heq|].
      destruct (Hne E) as (-> & g0 & Hg0 & Ev).
      destruct Hin as [[->|Hin]%elem_of_cons|(h0 & Hh0 & Ev0 & Hl0)]; try done.
      rewrite Hl0. f_equal.
      assert (h0 = g0) as -> by congruence. congruence. }
  intros Hi Hf. apply H; [by left|done].
Qed.

(** X3. Submitting shows the error of every invalid field and removes the
    error of every valid one, whatever came before, on a form whose
    fields have parents apart from one another. *)
Theorem submit_shows_every_error fs act btn evs t :
  apart fs ->
  let q := run (evs ++ [(t, Submit)]) (load fs act btn) in
  forall i f, fields q !! i = Some f -> displayed q f = expected (validate f).
Proof.
  intros Hap q i f Hf.
  assert (Hsync : inSync q) by (by apply syncInv_inSync, syncInv_run, syncInv_load).
  apply (Hsync i f Hf). subst q. rewrite run_snoc in Hf |- *.
  unfold dispatch in Hf |- *. cbn [fst snd handle] in Hf |- *.
  revert Hf. generalize (advance t (run evs (load fs act btn))). intros p.
  unfold handleSubmit.
  pose proof (lastValidated_validateForm p i f) as Hl.
  destruct (validateForm p) as [ok r]. simpl in Hl.
  destruct ok; [|done]. unfold submitForm.
  destruct (submitBtn r); [|done]. done.
Qed.

Lemma apart_twoFields : apart twoFields.
Proof.
  intros i j f g Hi Hj [k Hk].
  destruct i as [|[|i]], j as [|[|j]]; try done;
    injection Hi as <-; injection Hj as <-; discriminate.
Qed.

Lemma submit_shows_every_error_witness :
  let q := run [(5, Input 1%nat (js "a@b")); (10, Submit)]
             (load twoFields [] (Some sendButton)) in
  displayed q (setErrorClass true (mkField "" "text" true 1))
  = Some msgRequired
  /\ displayed q (setErrorClass true (mkField "a@b" "email" true 2))
     = Some msgEmail.
Proof.
  pose proof (submit_shows_every_error twoFields [] (Some sendButton)
                [(5, Input 1%nat (js "a@b"))] 10 apart_twoFields) as H.
  cbv zeta in H. split.
  - transitivity (expected (validate (mkField "" "text" true 1)));
      [|by vm_compute].
    apply (H 0%nat (setErrorClass true (mkField "" "text" true 1))).
    by vm_compute.
  - transitivity (expected (validate (mkField "a@b" "email" true 2)));
      [|by vm_compute].
    apply (H 1%nat (setErrorClass true (mkField "a@b" "email" true 2))).
    by vm_compute.
Defined.

(** * More on the debounced validator *)

Lemma edits_settle i es : forall p e0 T,
  wf p -> armed i (fst e0 + 300) p -> clock p = fst e0 ->
  value <$> fields p !! i = Some (snd e0) ->
  ascendingFrom (fst e0) (fst <$> es) ->
  fst (default e0 (last es)) + 300 <= T ->
  validationsOf i (advance T (run (edits i es) p))
  = validationsOf i p ++ settledEdits 300 (e0 :: es).
Proof.
  induction es as [|e1 es IH]; intros p e0 T Hwf Ha Hc Hv Hasc HT.
  - simpl in *.
    destruct (advance_armed i _ _ T p Hwf Ha Hv) as [(? & _)|(_ & _ & E)];
      [lia|done].
  - destruct Hasc as [Hle Hasc]. rewrite last_cons_default in HT.
    rewrite run_edits_cons.
    pose proof (wf_advance (fst e1) p Hwf) as Hwq.
    pose proof (clock_advance (fst e1) p) as Hcq.
    pose proof (value_lookup_bare _ _ i (bare_advance (fst e1) p)) as Hvq.
    rewrite Hv in Hvq.
    assert (Hlog : validationsOf i (advance (fst e1) p)
                   = validationsOf i p
                     ++ (if fst e0 + 300 <=? fst e1
                         then [(fst e0 + 300, snd e0)] else [])).
    { destruct (advance_armed i _ _ (fst e1) p Hwf Ha Hv)
        as [(Hlt & _ & E)|(Hge & _ & E)]; rewrite E.
      - destruct (Z.leb_spec (fst e0 + 300) (fst e1)); [lia|].
        by rewrite app_nil_r.
      - by destruct (Z.leb_spec (fst e0 + 300) (fst e1)); [|lia]. }
    revert Hwq Hcq Hvq Hlog. generalize (advance (fst e1) p).
    intros q Hwq Hcq Hvq Hlog.
    apply fmap_Some in Hvq as (f & Hf & _).
    destruct (input_arms i (snd e1) f q Hf) as (Ha' & Hc' & Hv' & Hl').
    pose proof (wf_handle (Input i (snd e1)) q Hwq) as Hw'.
    revert Ha' Hc' Hv' Hl' Hw'. generalize (handle (Input i (snd e1)) q).
    intros q' Ha' Hc' Hv' Hl' Hw'.
    assert (Hclk : clock q' = fst e1) by lia.
    rewrite Hcq in Ha'.
    replace (Z.max (clock p) (fst e1)) with (fst e1) in Ha' by lia.
    rewrite (IH q' e1 T Hw' Ha' Hclk Hv' Hasc HT), Hl', Hlog.
    change (settledEdits 300 (e0 :: e1 :: es))
      with (if fst e0 + 300 <=? fst e1
            then (fst e0 + 300, snd e0) :: settledEdits 300 (e1 :: es)
            else settledEdits 300 (e1 :: es)).
    destruct (fst e0 + 300 <=? fst e1); [|by rewrite app_nil_r].
    by rewrite <- app_assoc.
Qed.

(** X6. Edits of one field, at any pace: the debounced validator runs once
    for every edit that no other edit follows within 300 ms, 300 ms after
    that edit and on the value it left, and never otherwise. *)
Theorem debounce_per_quiet_period i f p e es T :
  wf p -> quiet i p -> fields p !! i = Some f ->
  ascendingFrom (clock p) (fst <$> e :: es) ->
  fst (default e (last es)) + 300 <= T ->
  validationsOf i (advance T (run (edits i (e :: es)) p))
  = validationsOf i p ++ settledEdits 300 (e :: es).
Proof.
  intros Hwf Hq Hf [Hc Hasc] HT. rewrite run_edits_cons.
  destruct (advance_quiet i (fst e) p Hwf Hq) as [Hqq Hl].
  pose proof (wf_advance (fst e) p Hwf) as Hwq.
  pose proof (clock_advance (fst e) p) as Hcq.
  pose proof (value_lookup_bare _ _ i (bare_advance (fst e) p)) as Hvq.
  rewrite Hf in Hvq. revert Hwq Hcq Hvq Hqq Hl.
  generalize (advance (fst e) p). intros q Hwq Hcq Hvq Hqq Hl.
  apply fmap_Some in Hvq as (g & Hg & _).
  destruct (input_arms i (snd e) g q Hg) as (Ha' & Hc' & Hv' & Hl').
  pose proof (wf_handle (Input i (snd e)) q Hwq) as Hw'.
  revert Ha' Hc' Hv' Hl' Hw'. generalize (handle (Input i (snd e)) q).
  intros q' Ha' Hc' Hv' Hl' Hw'.
  assert (Hclk : clock q' = fst e) by lia.
  rewrite Hcq in Ha'.
  replace (Z.max (clock p) (fst e)) with (fst e) in Ha' by lia.
  by rewrite (edits_settle i es q' e T Hw' Ha' Hclk Hv' Hasc HT), Hl', Hl.
Qed.

Lemma debounce_per_quiet_period_witness :
  let p := load [mkField "" "email" true 1] [] None in
  let es := [(10, js "a"); (100, js "a@"); (500, js "a@b"); (900, js "a@b.co")] in
  validationsOf 0 (advance 2000 (run (edits 0 es) p))
  = [(400, js "a@"); (800, js "a@b"); (1200, js "a@b.co")].
Proof.
  assert (Hq : quiet 0 (load [mkField "" "email" true 1] [] None)).
  { intros t Ht. by apply elem_of_nil in Ht. }
  apply (debounce_per_quiet_period 0 (mkField "" "email" true 1)
           (load [mkField "" "email" true 1] [] None)
           (10, js "a") [(100, js "a@"); (500, js "a@b"); (900, js "a@b.co")]
           2000 (wf_load _ _ _) Hq eq_refl).
  - simpl. lia.
  - simpl. lia.
Defined.

(** What an event on another field leaves of field [i]. *)
Lemma otherField_frame i e p :
  wf p -> otherField i e ->
  value <$> fields (handle e p) !! i = value <$> fields p !! i
  /\ validationsOf i (handle e p) = validationsOf i p
  /\ (forall d, armed i d p -> armed i d (handle e p))
  /\ (quiet i p -> quiet i (handle e p)).
Proof.
  intros Hwf He. destruct e as [j|j v| |k resp]; simpl in He; try done.
  - simpl. split; [|split; [|split]].
    + apply value_lookup_bare, bare_validateField.
    + rewrite (validationsOf_app i p _ _ (validated_validateField j p)).
      destruct (fields p !! j); simpl; [|by rewrite app_nil_r].
      rewrite filter_cons_False by done. by rewrite app_nil_r.
    + intros d (t & Ht & Hcb & Hd). exists t.
      by rewrite timers_validateField.
    + intros Hq t Ht. rewrite timers_validateField in Ht. by apply Hq.
  - simpl. destruct (fields p !! j) as [fj|] eqn:Hj; [|done].
    unfold executedFunction. simpl.
    rewrite fields_clearTimeout. simpl.
    split; [|split; [|split]].
    + by rewrite list_lookup_insert_ne.
    + unfold validationsOf. simpl. by rewrite validated_clearTimeout.
    + intros d (t & Ht & Hcb & Hd). exists t. split; [|done].
      apply elem_of_app. left.
      destruct (timeouts p !! j) as [id|] eqn:Hid; simpl; [|done].
      apply list_elem_of_filter. split; [|done]. intros E.
      rewrite <- E in Hid. apply (wf_slot p Hwf t j Ht) in Hid. congruence.
    + intros Hq t [Ht| ->%list_elem_of_singleton]%elem_of_app; simpl.
      * apply Hq. destruct (timeouts p !! j); simpl in Ht; [|done].
        by apply list_elem_of_filter in Ht as [_ ?].
      * congruence.
Qed.

(** X7. The debounce timers of the fields are independent: whatever is
    edited or left in other fields meanwhile, the validation queued for
    field [i] runs once, at the time it was queued for, on the value the
    field holds. *)
Theorem debounce_independent i d v p evs T :
  wf p -> armed i d p -> value <$> fields p !! i = Some v ->
  Forall (fun te => otherField i (snd te)) evs -> d <= T ->
  validationsOf i (advance T (run evs p)) = validationsOf i p ++ [(d, v)].
Proof.
  intros Hwf Ha Hv Hevs HT.
  assert (H : forall q,
    wf q -> value <$> fields q !! i = Some v ->
    (armed i d q /\ validationsOf i q = validationsOf i p)
    \/ (quiet i q /\ validationsOf i q = validationsOf i p ++ [(d, v)]) ->
    validationsOf i (advance T (run evs q)) = validationsOf i p ++ [(d, v)]).
  { clear Hwf Ha Hv. induction evs as [|[t e] evs IH]; intros q Hwf Hv Hst.
    - simpl. destruct Hst as [[Ha E]|[Hq E]].
      + destruct (advance_armed i d v T q Hwf Ha Hv)
          as [(? & _)|(_ & _ & E')]; [lia|]. by rewrite E', E.
      + destruct (advance_quiet i T q Hwf Hq) as [_ E']. by rewrite E', E.
    - inv Hevs. simpl. apply IH; [done|..]; unfold dispatch; simpl in *.
      + by apply wf_handle, wf_advance.
      + destruct (otherField_frame i e (advance t q)) as (Ev & _);
          [by apply wf_advance|done|].
        by rewrite Ev, (value_lookup_bare _ _ i (bare_advance t q)).
      + destruct (otherField_frame i e (advance t q)) as (_ & El & Harm & Hqu);
          [by apply wf_advance|done|].
        rewrite El. destruct Hst as [[Ha E]|[Hq E]].
        * destruct (advance_armed i d v t q Hwf Ha Hv)
            as [(_ & Ha' & E')|(_ & Hq' & E')]; rewrite E', E.
          -- left. split; [by apply Harm|done].
          -- right. split; [by apply Hqu|done].
        * destruct (advance_quiet i t q Hwf Hq) as [Hq' E'].
          right. split; [by apply Hqu|]. by rewrite E', E. }
  apply H; try done. by left.
Qed.

Lemma debounce_independent_witness :
  let p := run [(10, Input 0%nat (js "x"))] (load twoFields [] None) in
  validationsOf 0
    (advance 500
       (run [(20, Input 1%nat (js "a")); (30, Blur 1%nat);
             (305, Input 1%nat (js "ab"))] p))
  = [(310, js "x")].
Proof.
  apply (debounce_independent 0 310 (js "x")
           (run [(10, Input 0%nat (js "x"))] (load twoFields [] None))
           [(20, Input 1%nat (js "a")); (30, Blur 1%nat);
            (305, Input 1%nat (js "ab"))] 500).
  - apply wf_run, wf_load.
  - eexists. split; [by apply list_elem_of_here|]. done.
  - reflexivity.
  - repeat constructor; simpl; lia.
  - lia.
Defined.

(** X8. Leaving a field validates it at once and does not cancel the
    validation its last edit queued: the field is validated again when
    that one comes due. *)
Theorem blur_keeps_pending_validation i d v p t T :
  wf p -> armed i d p -> value <$> fields p !! i = Some v ->
  clock p <= t < d -> d <= T ->
  validationsOf i (advance T (dispatch p (t, Blur i)))
  = validationsOf i p ++ [(t, v); (d, v)].
Proof.
  intros Hwf Ha Hv Ht HT. unfold dispatch. cbn [fst snd handle].
  destruct (advance_armed i d v t p Hwf Ha Hv) as [(_ & Ha' & E)|(? & _)];
    [|lia].
  pose proof (wf_advance t p Hwf) as Hwq.
  pose proof (clock_advance t p) as Hcq.
  pose proof (value_lookup_bare _ _ i (bare_advance t p)) as Hvq.
  rewrite Hv in Hvq. revert Hwq Hcq Hvq Ha' E.
  generalize (advance t p). intros q Hwq Hcq Hvq Ha' E.
  pose proof (wf_validateField i q Hwq) as Hw'.
  pose proof (timers_validateField i q) as Hti.
  pose proof (value_lookup_bare _ _ i (bare_validateField i q)) as Hv'.
  pose proof (validationsOf_app i q _ _ (validated_validateField i q)) as El.
  revert Hw' Hti Hv' El. generalize (snd (validateField i q)).
  intros r Hw' Hti Hv' El.
  apply fmap_Some in Hvq as (f & Hf & Hfv). rewrite Hf in El, Hv'.
  simpl in El. rewrite filter_cons_True in El by done. simpl in El.
  assert (Har : armed i d r).
  { destruct Ha' as (u & Hu & Hcb & Hd). exists u. by rewrite Hti. }
  destruct (advance_armed i d v T r Hw' Har) as [(? & _)|(_ & _ & E')];
    [rewrite Hv'; simpl; congruence|lia|].
  rewrite E', El, E, <- app_assoc. simpl.
  replace (clock q) with t by lia. by rewrite <- Hfv.
Qed.

Lemma blur_keeps_pending_validation_witness :
  let p := run [(10, Input 0%nat (js "x"))] (load twoFields [] None) in
  validationsOf 0 (advance 500 (dispatch p (50, Blur 0%nat)))
  = [(50, js "x"); (310, js "x")].
Proof.
  apply (blur_keeps_pending_validation 0 310 (js "x")
           (run [(10, Input 0%nat (js "x"))] (load twoFields [] None)) 50 500).
  - apply wf_run, wf_load.
  - eexists. split; [by apply list_elem_of_here|]. done.
  - reflexivity.
  - split; [by vm_compute | lia].
  - lia.
Defined.

(** * The throttle *)

Section ThrottleFacts.
Context {S A : Type}.
Variable func : A -> S -> S.
Variable limit : Z.
Hypothesis limit_pos : 0 < limit.

Lemma throttle_dispatch last (st : Throttle.State S A) t a :
  Throttle.inv limit last st -> Throttle.clock st <= t ->
  let st' := Throttle.dispatch func limit st (t, a) in
  Throttle.clock st' = t
  /\ if match last with None => true | Some l => l + limit <=? t end
     then Throttle.inv limit (Some t) st'
          /\ Throttle.ran st' = Throttle.ran st ++ [(t, a)]
          /\ Throttle.user st' = func a (Throttle.user st)
     else Throttle.inv limit last st'
          /\ Throttle.ran st' = Throttle.ran st
          /\ Throttle.user st' = Throttle.user st.
Proof.
  destruct st as [c f r u rn]. unfold Throttle.dispatch, Throttle.call,
    Throttle.advance, Throttle.inv. simpl. intros Hinv Hc.
  destruct last as [l|].
  - destruct Hinv as [(-> & -> & Hlt)|(-> & -> & Hge)]; simpl.
    + destruct (Z.leb_spec (l + limit) t) as [Hdue|Hnot]; simpl.
      * rewrite filter_cons_False by lia. simpl.
        replace (Z.max c t) with t by lia.
        split; [done|]. split; [|done]. left. repeat split; try done; lia.
      * rewrite filter_cons_True by lia.
        split; [lia|]. split; [|done]. left. repeat split; try done; lia.
    + destruct (Z.leb_spec (l + limit) t) as [Hdue|Hnot]; [|lia].
      replace (Z.max c t) with t by lia.
      split; [done|]. split; [|done]. left. repeat split; try done; lia.
  - destruct Hinv as [-> ->]. simpl. replace (Z.max c t) with t by lia.
    split; [done|]. split; [|done]. left. repeat split; try done; lia.
Qed.

Lemma throttle_run_kept evs : forall last (st : Throttle.State S A),
  Throttle.inv limit last st ->
  ascendingFrom (Throttle.clock st) (fst <$> evs) ->
  Throttle.ran (Throttle.run func limit evs st)
  = Throttle.ran st ++ Throttle.kept limit last evs
  /\ Throttle.user (Throttle.run func limit evs st)
     = foldl (fun s e => func (snd e) s) (Throttle.user st)
         (Throttle.kept limit last evs).
Proof.
  induction evs as [|[t a] evs IH]; intros last st Hinv Hasc.
  - simpl. by rewrite app_nil_r.
  - destruct Hasc as [Hle Hasc]. simpl in Hle, Hasc.
    change (Throttle.run func limit ((t, a) :: evs) st)
      with (Throttle.run func limit evs
              (Throttle.dispatch func limit st (t, a))).
    destruct (throttle_dispatch last st t a Hinv Hle) as [Hc Hst].
    revert Hc Hst. generalize (Throttle.dispatch func limit st (t, a)).
    intros st' Hc Hst. simpl.
    destruct (match last with None => true | Some l => l + limit <=? t end).
    + destruct Hst as (Hinv' & Er & Eu).
      destruct (IH (Some t) st' Hinv') as [Er' Eu']; [by rewrite Hc|].
      rewrite Er', Eu', Er, Eu. simpl. by rewrite <- app_assoc.
    + destruct Hst as (Hinv' & Er & Eu).
      destruct (IH last st' Hinv') as [Er' Eu']; [by rewrite Hc|].
      by rewrite Er', Eu', Er, Eu.
Qed.

(** X9. The throttled function is a leading-edge gate: of the calls made,
    the first runs [func], and after that exactly those made [limit]
    milliseconds or more after the last call that ran it; each run is
    made at the time of its call, with the arguments of that call. *)
Theorem throttle_leading_edge (s : S) (evs : list (Z * A)) :
  ascendingFrom 0 (fst <$> evs) ->
  Throttle.ran (Throttle.run func limit evs (Throttle.fresh s))
  = Throttle.kept limit None evs
  /\ Throttle.user (Throttle.run func limit evs (Throttle.fresh s))
     = foldl (fun s e => func (snd e) s) s (Throttle.kept limit None evs).
Proof.
  intros Hasc. by apply (throttle_run_kept evs None (Throttle.fresh s)).
Qed.

Lemma kept_head last (evs : list (Z * A)) e l :
  head (Throttle.kept limit last evs) = Some e -> last = Some l ->
  l + limit <= fst e.
Proof.
  intros He ->. induction evs as [|[t a] evs IH]; [done|].
  simpl in He. destruct (Z.leb_spec (l + limit) t).
  - injection He as <-. done.
  - by apply IH.
Qed.

Lemma kept_spaced (evs : list (Z * A)) : forall last k e1 e2,
  Throttle.kept limit last evs !! k = Some e1 ->
  Throttle.kept limit last evs !! Datatypes.S k = Some e2 ->
  fst e1 + limit <= fst e2.
Proof.
  induction evs as [|[t a] evs IH]; intros last k e1 e2 H1 H2; [done|].
  simpl in *.
  destruct (match last with None => true | Some l => l + limit <=? t end).
  - destruct k as [|k]; simpl in *.
    + injection H1 as <-. simpl.
      apply (kept_head (Some t) evs e2 t); [|done].
      by rewrite head_lookup.
    + by apply (IH (Some t) k).
  - by apply (IH last k).
Qed.

(** X10. Two runs of [func] in a row are never less than [limit]
    milliseconds apart, however fast the calls come. *)
Theorem throttle_spacing (s : S) (evs : list (Z * A)) k e1 e2 :
  ascendingFrom 0 (fst <$> evs) ->
  let log := Throttle.ran (Throttle.run func limit evs (Throttle.fresh s)) in
  log !! k = Some e1 -> log !! Datatypes.S k = Some e2 ->
  fst e1 + limit <= fst e2.
Proof.
  intros Hasc log. subst log.
  rewrite (proj1 (throttle_run_kept evs None (Throttle.fresh s) ltac:(done) Hasc)).
  apply kept_spaced.
Qed.

Lemma kept_all (evs : list (Z * A)) : forall last,
  match last with
  | None => ascendingFrom 0 (fst <$> evs)
            /\ match evs with
               | [] => True
               | e :: evs' => spacedAfter limit (fst e) (fst <$> evs')
               end
  | Some l => spacedAfter limit l (fst <$> evs)
  end ->
  Throttle.kept limit last evs = evs.
Proof.
  induction evs as [|[t a] evs IH]; intros last Hsp; [done|].
  simpl. destruct last as [l|].
  - destruct Hsp as [Hle Hsp]. simpl in *.
    destruct (Z.leb_spec (l + limit) t); [|lia].
    by rewrite (IH (Some t)).
  - destruct Hsp as [_ Hsp]. simpl in *. by rewrite (IH (Some t)).
Qed.

Lemma throttle_user_advance t (st : Throttle.State S A) :
  Throttle.user (Throttle.advance t st) = Throttle.user st.
Proof. done. Qed.

(** The state [func] works on changes through runs of [func] only. *)
Lemma throttle_user_ind (P : S -> Prop) (evs : list (Z * A)) :
  forall st : Throttle.State S A,
    P (Throttle.user st) -> (forall a s, P s -> P (func a s)) ->
    P (Throttle.user (Throttle.run func limit evs st)).
Proof.
  induction evs as [|[t a] evs IH]; intros st Hst Hf; [done|].
  simpl. apply IH; [|done]. unfold Throttle.dispatch, Throttle.call. simpl.
  destruct (negb _); simpl; auto.
Qed.

Lemma throttle_run_state (evs : list (Z * A)) :
  forall st : Throttle.State S A,
    Throttle.inv limit (fst <$> last (Throttle.ran st)) st ->
    ascendingFrom (Throttle.clock st) (fst <$> evs) ->
    let st' := Throttle.run func limit evs st in
    Throttle.inv limit (fst <$> last (Throttle.ran st')) st'
    /\ Throttle.clock st' = default (Throttle.clock st) (last (fst <$> evs)).
Proof.
  induction evs as [|[t a] evs IH]; intros st Hinv Hasc; [done|].
  destruct Hasc as [Hle Hasc]. simpl in Hle, Hasc.
  change (Throttle.run func limit ((t, a) :: evs) st)
    with (Throttle.run func limit evs
            (Throttle.dispatch func limit st (t, a))).
  destruct (throttle_dispatch _ st t a Hinv Hle) as [Hc Hst].
  revert Hc Hst. generalize (Throttle.dispatch func limit st (t, a)).
  intros st' Hc Hst. cbv zeta.
  assert (Hinv' : Throttle.inv limit (fst <$> last (Throttle.ran st')) st').
  { destruct (match fst <$> last (Throttle.ran st) with
              | None => true | Some l => l + limit <=? t end).
    - destruct Hst as (Hi & Er & _). by rewrite Er, last_snoc.
    - destruct Hst as (Hi & Er & _). by rewrite Er. }
  destruct (IH st' Hinv') as [Hi Hcl]; [by rewrite Hc|].
  split; [done|]. rewrite Hcl, Hc, fmap_cons, last_cons.
  by destruct (last (fst <$> evs)).
Qed.

(** X11. There is no trailing run: a call that comes less than [limit]
    milliseconds after the last run of [func] is lost for good; [func]
    is not run for it then, nor when time passes. *)
Theorem throttle_drops_early_call (s : S) (evs : list (Z * A)) l b t a T :
  ascendingFrom 0 (fst <$> evs) ->
  let st := Throttle.run func limit evs (Throttle.fresh s) in
  last (Throttle.ran st) = Some (l, b) ->
  Throttle.clock st <= t < l + limit ->
  let st' := Throttle.advance T (Throttle.dispatch func limit st (t, a)) in
  Throttle.ran st' = Throttle.ran st /\ Throttle.user st' = Throttle.user st.
Proof.
  intros Hasc st Hlast [Hc Ht] st'.
  destruct (throttle_run_state evs (Throttle.fresh s)) as [Hinv _];
    [done|done|]. fold st in Hinv. rewrite Hlast in Hinv.
  destruct (throttle_dispatch _ st t a Hinv Hc) as [_ Hst].
  simpl in Hst. destruct (Z.leb_spec (l + limit) t); [lia|].
  by destruct Hst as (_ & ? & ?).
Qed.
End ThrottleFacts.

Lemma throttle_leading_edge_witness :
  Throttle.ran
    (Throttle.run (fun (a : nat) (s : nat) => (a + s)%nat) 100
       [(0, 1%nat); (40, 2%nat); (99, 3%nat); (100, 4%nat); (150, 5%nat);
        (260, 6%nat)]
       (Throttle.fresh 0%nat))
  = [(0, 1%nat); (100, 4%nat); (260, 6%nat)].
Proof.
  apply (throttle_leading_edge (fun (a : nat) (s : nat) => (a + s)%nat) 100).
  - lia.
  - simpl. lia.
Defined.

Lemma throttle_spacing_witness :
  0 + 100 <= 100.
Proof.
  apply (throttle_spacing (fun (a : nat) (s : nat) => (a + s)%nat) 100
           ltac:(lia) 0%nat
           [(0, 1%nat); (40, 2%nat); (100, 4%nat)] 0%nat (0, 1%nat) (100, 4%nat)).
  - simpl. lia.
  - reflexivity.
  - reflexivity.
Defined.

Lemma throttle_drops_early_call_witness :
  let st := Throttle.run (fun (a : nat) (s : nat) => (a + s)%nat) 100
              [(0, 1%nat); (40, 2%nat); (100, 4%nat)] (Throttle.fresh 0%nat) in
  Throttle.user
    (Throttle.advance 5000
       (Throttle.dispatch (fun (a : nat) (s : nat) => (a + s)%nat) 100 st
          (199, 7%nat)))
  = 5%nat.
Proof.
  apply (throttle_drops_early_call (fun (a : nat) (s : nat) => (a + s)%nat)
           100 ltac:(lia) 0%nat [(0, 1%nat); (40, 2%nat); (100, 4%nat)]
           100 4%nat 199 7%nat 5000).
  - simpl. lia.
  - reflexivity.
  - simpl. lia.
Defined.

(** * The back-to-top button *)

Lemma foldl_toggle (evs : list (Z * QArith_base.Q)) e st :
  foldl (fun s x => BackToTop.toggleBackToTop (snd x) s) st (e :: evs)
  = BackToTop.toggleBackToTop (snd (default e (last evs))) BackToTop.created.
Proof.
  revert e st. induction evs as [|e' evs IH]; intros e st.
  - simpl. unfold BackToTop.toggleBackToTop. by destruct (QArith_base.Qlt_le_dec _ _).
  - rewrite last_cons_default. simpl. apply (IH e').
Qed.

(** X12. While scroll events come 100 ms or more apart, the button follows
    the scroll position: after each of them it is shown if the page is
    scrolled by more than 300 pixels and hidden otherwise. *)
Theorem back_to_top_follows_slow_scrolling
    (e : Z * QArith_base.Q) (evs : list (Z * QArith_base.Q)) :
  0 <= fst e -> spacedAfter BackToTop.limit (fst e) (fst <$> evs) ->
  Throttle.user
    (Throttle.run BackToTop.toggleBackToTop BackToTop.limit (e :: evs)
       (Throttle.fresh BackToTop.created))
  = if QArith_base.Qlt_le_dec (QArith_base.Qmake 300 1)
         (snd (default e (last evs)))
    then {| BackToTop.opacity := js "1"; BackToTop.visibility := js "visible" |}
    else {| BackToTop.opacity := js "0"; BackToTop.visibility := js "hidden" |}.
Proof.
  intros H0 Hsp.
  assert (Hasc : ascendingFrom 0 (fst <$> e :: evs)).
  { split; [done|]. clear H0. revert e Hsp.
    induction evs as [|e' evs IH]; intros e Hsp; [done|].
    destruct Hsp as [Hle Hsp]. unfold BackToTop.limit in Hle.
    split; [simpl in *; lia|]. by apply IH. }
  rewrite (proj2 (throttle_run_kept BackToTop.toggleBackToTop
                    BackToTop.limit ltac:(done) _ None
                    (Throttle.fresh BackToTop.created) ltac:(done) Hasc)).
  rewrite (kept_all BackToTop.limit (e :: evs) None) by (split; done).
  by rewrite foldl_toggle.
Qed.

Lemma back_to_top_follows_slow_scrolling_witness :
  Throttle.user
    (Throttle.run BackToTop.toggleBackToTop BackToTop.limit
       [(0, QArith_base.Qmake 0 1); (150, QArith_base.Qmake 3005 10);
        (400, QArith_base.Qmake 120 1)]
       (Throttle.fresh BackToTop.created))
  = BackToTop.created.
Proof.
  apply (back_to_top_follows_slow_scrolling (0, QArith_base.Qmake 0 1)
           [(150, QArith_base.Qmake 3005 10); (400, QArith_base.Qmake 120 1)]).
  - simpl. lia.
  - unfold BackToTop.limit. simpl. lia.
Defined.

(** * Scroll depth *)

Lemma scrollDepth_gt_below p m :
  ScrollDepth.gt p m = true -> ScrollDepth.below 0 m ->
  ScrollDepth.below 0 p
  /\ (forall z, ScrollDepth.below z m -> ScrollDepth.below z p)
  /\ (forall x, p = ScrollDepth.Finite x ->
        0 < x /\ forall z, ScrollDepth.below z m -> z < x).
Proof.
  destruct p as [x| | |], m as [y| | |]; simpl; try done.
  intros Hlt%Z.ltb_lt Hy. split; [lia|]. split; [intros z; lia|].
  intros x' [= <-]. split; [lia|]. intros z. lia.
Qed.

Lemma scrollDepth_step a st :
  ScrollDepth.inv st -> ScrollDepth.inv (ScrollDepth.trackScroll a st).
Proof.
  destruct a as [g p]. intros (zs & Es & Hs & Hall & H0).
  unfold ScrollDepth.trackScroll.
  destruct (ScrollDepth.gt p (ScrollDepth.maxScroll st)) eqn:Hgt;
    [|by exists zs].
  destruct (scrollDepth_gt_below _ _ Hgt H0) as (H0' & Hmono & Hfin).
  assert (Hall' : Forall (fun z => 0 < z /\ Z.rem z 25 = 0
                                  /\ ScrollDepth.below z p) zs).
  { eapply Forall_impl; [exact Hall|]. intros z (? & ? & ?). auto. }
  destruct (g && ScrollDepth.multipleOf25 p) eqn:Hsend; simpl.
  - apply andb_true_iff in Hsend as [_ Hm].
    destruct p as [x| | |]; simpl in Hm; try done.
    apply Z.eqb_eq in Hm. destruct (Hfin x eq_refl) as [Hx Hlt].
    exists (zs ++ [x]). rewrite Es, fmap_app. split; [done|].
    split; [|split; [|done]].
    + apply StronglySorted_app_2; [|done|repeat constructor].
      intros z1 z2 Hz1 ->%list_elem_of_singleton.
      apply Hlt. rewrite Forall_forall in Hall. by apply Hall.
    + apply Forall_app. split; [done|]. repeat constructor; try done.
      simpl. lia.
  - by exists zs.
Qed.

(** X13. Whatever the scroll events and however they are throttled, the
    scroll depths sent to [gtag] are positive multiples of 25 in strictly
    increasing order: no depth is sent twice. *)
Theorem scroll_depths_increase (evs : list (Z * (bool * ScrollDepth.Num))) :
  exists zs : list Z,
    ScrollDepth.sent
      (Throttle.user
         (Throttle.run ScrollDepth.trackScroll ScrollDepth.limit evs
            (Throttle.fresh ScrollDepth.created)))
    = ScrollDepth.Finite <$> zs
    /\ StronglySorted Z.lt zs
    /\ Forall (fun z => 0 < z /\ Z.rem z 25 = 0) zs.
Proof.
  destruct (throttle_user_ind ScrollDepth.trackScroll ScrollDepth.limit
              ScrollDepth.inv evs (Throttle.fresh ScrollDepth.created))
    as (zs & Es & Hs & Hall & _).
  - exists []. repeat split; try done; constructor.
  - intros a s. apply scrollDepth_step.
  - exists zs. split; [done|]. split; [done|].
    eapply Forall_impl; [exact Hall|]. by intros z (? & ? & _).
Qed.

(** X14. An infinite percentage - the page is no taller than the window and
    yet scrolled - ends the tracking: it is recorded as the greatest
    depth, nothing is sent for it, and no later call changes anything. *)
Theorem scroll_depth_infinity_stops g st
    (calls : list (bool * ScrollDepth.Num)) :
  ScrollDepth.gt ScrollDepth.PosInf (ScrollDepth.maxScroll st) = true ->
  foldl (fun s a => ScrollDepth.trackScroll a s)
    (ScrollDepth.trackScroll (g, ScrollDepth.PosInf) st) calls
  = {| ScrollDepth.maxScroll := ScrollDepth.PosInf;
       ScrollDepth.sent := ScrollDepth.sent st |}.
Proof.
  intros Hgt. unfold ScrollDepth.trackScroll at 2. rewrite Hgt.
  rewrite andb_false_r. generalize (ScrollDepth.sent st). intros l.
  induction calls as [|[g' p] calls IH]; [done|].
  simpl. by destruct p.
Qed.

Lemma scroll_depth_infinity_stops_witness :
  foldl (fun s a => ScrollDepth.trackScroll a s)
    (ScrollDepth.trackScroll (true, ScrollDepth.PosInf) ScrollDepth.created)
    [(true, ScrollDepth.Finite 50); (true, ScrollDepth.PosInf)]
  = {| ScrollDepth.maxScroll := ScrollDepth.PosInf; ScrollDepth.sent := [] |}.
Proof.
  apply (scroll_depth_infinity_stops true ScrollDepth.created
           [(true, ScrollDepth.Finite 50); (true, ScrollDepth.PosInf)]).
  reflexivity.
Defined.

(** * The mobile menu *)

Lemma menu_listening_inv (st : MobileMenu.State) :
  MobileMenu.listening st = true ->
  exists b n, MobileMenu.menuBtn st = Some b /\ MobileMenu.nav st = Some n.
Proof.
  unfold MobileMenu.listening.
  destruct (MobileMenu.menuBtn st) as [b|], (MobileMenu.nav st) as [n|];
    try done. by exists b, n.
Qed.

Lemma menu_consistent_listening st :
  MobileMenu.consistent st -> MobileMenu.listening st = true.
Proof. intros (Hb & Hn & _). unfold MobileMenu.listening. by rewrite Hb, Hn. Qed.

Lemma menu_open_consistent st :
  MobileMenu.listening st = true ->
  MobileMenu.consistent (MobileMenu.open st).
Proof.
  intros (b & n & Hb & Hn)%menu_listening_inv.
  unfold MobileMenu.consistent, MobileMenu.open. simpl. by rewrite Hb, Hn.
Qed.

Lemma menu_close_consistent st :
  MobileMenu.listening st = true ->
  MobileMenu.consistent (MobileMenu.close st).
Proof.
  intros (b & n & Hb & Hn)%menu_listening_inv.
  unfold MobileMenu.consistent, MobileMenu.close. simpl. by rewrite Hb, Hn.
Qed.

Lemma menu_handle_consistent e st :
  MobileMenu.consistent st -> MobileMenu.consistent (MobileMenu.handle e st).
Proof.
  intros Hc. pose proof (menu_consistent_listening st Hc) as Hl.
  unfold MobileMenu.handle. rewrite Hl. simpl.
  destruct e as [[|inNav|inNav]|key].
  - rewrite andb_false_r. unfold MobileMenu.toggle.
    destruct (MobileMenu.isOpen st);
      [by apply menu_close_consistent | by apply menu_open_consistent].
  - simpl. by apply menu_close_consistent.
  - destruct (MobileMenu.isOpen st && negb inNav);
      [by apply menu_close_consistent | done].
  - destruct (jseqb key (js "Escape") && MobileMenu.isOpen st);
      [by apply menu_close_consistent | done].
Qed.

(** X15. Once the menu button has been clicked, the document shows at all
    times what [isOpen] says: the navigation and the button carry the
    class ['active'], [aria-expanded] is "true" and the body cannot
    scroll exactly while the menu is open. *)
Theorem menu_consistent_after_click st evs :
  MobileMenu.listening st = true ->
  MobileMenu.consistent
    (MobileMenu.run (MobileMenu.Click MobileMenu.OnMenuBtn :: evs) st).
Proof.
  intros Hl. simpl.
  assert (Hc : MobileMenu.consistent
                 (MobileMenu.handle (MobileMenu.Click MobileMenu.OnMenuBtn) st)).
  { unfold MobileMenu.handle. rewrite Hl. simpl. rewrite andb_false_r.
    unfold MobileMenu.toggle.
    destruct (MobileMenu.isOpen st);
      [by apply menu_close_consistent | by apply menu_open_consistent]. }
  revert Hc. generalize (MobileMenu.handle (MobileMenu.Click MobileMenu.OnMenuBtn) st).
  induction evs as [|e evs IH]; intros s Hs; [done|].
  simpl. apply IH. by apply menu_handle_consistent.
Qed.

Lemma menu_consistent_after_click_witness :
  MobileMenu.consistent
    (MobileMenu.run
       [MobileMenu.Click MobileMenu.OnMenuBtn;
        MobileMenu.KeyDown (js "Tab");
        MobileMenu.Click (MobileMenu.Elsewhere false)] MobileMenu.closedPage).
Proof.
  apply (menu_consistent_after_click MobileMenu.closedPage
           [MobileMenu.KeyDown (js "Tab");
            MobileMenu.Click (MobileMenu.Elsewhere false)]).
  reflexivity.
Defined.

(** X16. The Escape key, a click on a link of the navigation list and a click
    outside the navigation and the button each leave the menu closed;
    any other key and a click inside the navigation leave it as it is. *)
Theorem menu_closing_events st :
  MobileMenu.listening st = true ->
  (forall e,
     e = MobileMenu.KeyDown (js "Escape")
     \/ (exists inNav, e = MobileMenu.Click (MobileMenu.OnNavLink inNav))
     \/ e = MobileMenu.Click (MobileMenu.Elsewhere false) ->
     MobileMenu.isOpen (MobileMenu.handle e st) = false)
  /\ (forall e,
        (exists key, e = MobileMenu.KeyDown key /\ key <> js "Escape")
        \/ e = MobileMenu.Click (MobileMenu.Elsewhere true) ->
        MobileMenu.handle e st = st).
Proof.
  intros Hl. split; intros e He; unfold MobileMenu.handle; rewrite Hl; simpl.
  - destruct He as [->|[[inNav ->]| ->]]; simpl.
    + by destruct (MobileMenu.isOpen st) eqn:E.
    + done.
    + rewrite andb_true_r. by destruct (MobileMenu.isOpen st) eqn:E.
  - destruct He as [(key & -> & Hk)| ->].
    + unfold jseqb. by rewrite bool_decide_eq_false_2.
    + by rewrite andb_false_r.
Qed.

Lemma menu_closing_events_witness :
  MobileMenu.isOpen
    (MobileMenu.handle (MobileMenu.KeyDown (js "Escape"))
       (MobileMenu.open MobileMenu.closedPage)) = false.
Proof.
  apply (proj1 (menu_closing_events (MobileMenu.open MobileMenu.closedPage) eq_refl)).
  by left.
Defined.

(** X17. A page without the menu button or without the navigation gets no
    listener: no event changes anything. *)
Theorem menu_inert_without_elements st evs :
  MobileMenu.menuBtn st = None \/ MobileMenu.nav st = None ->
  MobileMenu.run evs st = st.
Proof.
  intros Hm. induction evs as [|e evs IH]; [done|].
  simpl. replace (MobileMenu.handle e st) with st; [done|].
  unfold MobileMenu.handle, MobileMenu.listening.
  destruct Hm as [-> | ->]; [done|]. by destruct (MobileMenu.menuBtn st).
Qed.

Lemma menu_inert_without_elements_witness :
  let st := {| MobileMenu.menuBtn := None; MobileMenu.nav := Some false;
               MobileMenu.overflow := []; MobileMenu.isOpen := false |} in
  MobileMenu.run [MobileMenu.Click MobileMenu.OnMenuBtn;
                  MobileMenu.KeyDown (js "Escape")] st = st.
Proof.
  apply (menu_inert_without_elements
           {| MobileMenu.menuBtn := None; MobileMenu.nav := Some false;
              MobileMenu.overflow := []; MobileMenu.isOpen := false |}).
  by left.
Defined.

(** * Tabs *)

Lemma lookup_imap_Some {A B} (f : nat -> A -> B) (l : list A) j y :
  imap f l !! j = Some y -> exists x, l !! j = Some x /\ y = f j x.
Proof.
  rewrite list_lookup_imap. destruct (l !! j) as [x|]; [|done].
  intros [= <-]. by exists x.
Qed.

Lemma tab_switchTab_shows k st :
  TabSystem.shows k (TabSystem.switchTab k st).
Proof.
  split; simpl.
  - by intros j t (x & _ & ->)%lookup_imap_Some.
  - by intros j b (x & _ & ->)%lookup_imap_Some.
Qed.

Lemma tab_newIndex_range index direction st :
  (index < length (TabSystem.tabButtons st))%nat ->
  -1 <= direction <= 1 ->
  0 <= TabSystem.newIndex index direction st
    < Z.of_nat (length (TabSystem.tabButtons st)).
Proof.
  intros Hi Hd. unfold TabSystem.newIndex.
  rewrite Z.rem_mod_nonneg by lia. apply Z.mod_pos_bound. lia.
Qed.

(** What one event does: nothing, or [switchTab] on a valid index. *)
Lemma tab_handle_cases e st :
  TabSystem.handle e st = st
  \/ exists k, 0 <= k < Z.of_nat (length (TabSystem.tabButtons st))
       /\ TabSystem.tabButtons (TabSystem.handle e st)
          = TabSystem.tabButtons (TabSystem.switchTab k st)
       /\ TabSystem.tabPanels (TabSystem.handle e st)
          = TabSystem.tabPanels (TabSystem.switchTab k st)
       /\ TabSystem.changed (TabSystem.handle e st)
          = TabSystem.changed st ++ [k].
Proof.
  unfold TabSystem.handle.
  destruct (TabSystem.tabButtons st) as [|b bs] eqn:Hb; [by left|].
  destruct (TabSystem.tabPanels st) as [|p ps] eqn:Hp; [by left|].
  destruct e as [index|index key].
  - destruct (decide _) as [Hi|]; [|by left]. right.
    exists (Z.of_nat index). split; [lia|done].
  - destruct (decide _) as [Hi|]; [|by left].
    unfold TabSystem.keydown.
    destruct (_ || _); [|by left]. right.
    exists (TabSystem.newIndex index
              (if jseqb key (js "ArrowLeft") then -1 else 1) st).
    split; [|done].
    rewrite <- Hb in Hi.
    pose proof (tab_newIndex_range index
      (if jseqb key (js "ArrowLeft") then -1 else 1) st Hi) as H.
    rewrite Hb in H. apply H. destruct (jseqb _ _); lia.
Qed.

(** X18. Whatever clicks and key presses the tab buttons receive, every
    [tabChanged] event that is sent names the index of an existing
    button, the number of buttons and panels stays the same, and the
    buttons and panels show the index of the last event sent: that
    button alone is active and selected, that panel alone is active.
    When no event was sent, buttons and panels are as they were. *)
Theorem tabs_show_last_change evs st :
  let st' := TabSystem.run evs st in
  exists ks,
    TabSystem.changed st' = TabSystem.changed st ++ ks
    /\ Forall (fun k => 0 <= k < Z.of_nat (length (TabSystem.tabButtons st))) ks
    /\ length (TabSystem.tabButtons st') = length (TabSystem.tabButtons st)
    /\ length (TabSystem.tabPanels st') = length (TabSystem.tabPanels st)
    /\ match last ks with
       | Some k => TabSystem.shows k st'
       | None => TabSystem.tabButtons st' = TabSystem.tabButtons st
                 /\ TabSystem.tabPanels st' = TabSystem.tabPanels st
       end.
Proof.
  simpl. induction evs as [|e evs IH] using rev_ind.
  - exists []. simpl. by rewrite app_nil_r.
  - destruct IH as (ks & Hc & Hks & Hlb & Hlp & Hlast).
    unfold TabSystem.run in *. rewrite foldl_app. simpl.
    set (s := foldl (fun st e => TabSystem.handle e st) st evs) in *.
    destruct (tab_handle_cases e s) as [->|(k & Hk & Hb & Hp & Hch)].
    + by exists ks.
    + exists (ks ++ [k]). rewrite Hch, Hc, Hb, Hp, last_snoc. simpl.
      rewrite !length_imap. rewrite <- (assoc_L _).
      split; [done|]. split.
      { apply Forall_app. split; [done|]. apply Forall_singleton. lia. }
      split; [done|]. split; [done|].
      destruct (tab_switchTab_shows k s) as [H1 H2].
      split.
      * intros j t Hj. rewrite Hb in Hj. by apply H1.
      * intros j b Hj. rewrite Hp in Hj. by apply H2.
Qed.

(** X19. With at least one panel, ArrowRight on the button [index] moves
    to the next button and from the last one to the first; ArrowLeft
    moves to the previous one and from the first to the last.  The
    button moved to is shown and gets the call of [focus()], and
    ArrowLeft pressed on it after ArrowRight leads back to [index]. *)
Theorem tab_arrow_keys_wrap st index :
  (index < length (TabSystem.tabButtons st))%nat ->
  TabSystem.tabPanels st <> [] ->
  let n := Z.of_nat (length (TabSystem.tabButtons st)) in
  let next := (Z.of_nat index + 1) mod n in
  let prev := (Z.of_nat index - 1) mod n in
  let right := TabSystem.handle (TabSystem.KeyDown index (js "ArrowRight")) st in
  let left := TabSystem.handle (TabSystem.KeyDown index (js "ArrowLeft")) st in
  let back := TabSystem.handle
                (TabSystem.KeyDown (Z.to_nat next) (js "ArrowLeft")) right in
  TabSystem.focused right = Some next /\ TabSystem.shows next right
  /\ TabSystem.focused left = Some prev /\ TabSystem.shows prev left
  /\ TabSystem.focused back = Some (Z.of_nat index)
  /\ TabSystem.shows (Z.of_nat index) back.
Proof.
  intros Hi Hp n next prev right left back.
  assert (Hn : 0 < n) by (subst n; lia).
  assert (Hkey : forall i key s,
    (i < length (TabSystem.tabButtons s))%nat ->
    TabSystem.tabPanels s <> [] ->
    (key = js "ArrowLeft" \/ key = js "ArrowRight") ->
    let d := if jseqb key (js "ArrowLeft") then -1 else 1 in
    let k := (Z.of_nat i + d) mod Z.of_nat (length (TabSystem.tabButtons s)) in
    let s' := TabSystem.handle (TabSystem.KeyDown i key) s in
    TabSystem.focused s' = Some k /\ TabSystem.shows k s'
    /\ length (TabSystem.tabButtons s') = length (TabSystem.tabButtons s)
    /\ (TabSystem.tabPanels s' <> [])).
  { clear. intros i key s Hi Hp Hkey d k s'. subst s'.
    unfold TabSystem.handle.
    destruct (TabSystem.tabButtons s) as [|b bs] eqn:Hb; [simpl in Hi; lia|].
    destruct (TabSystem.tabPanels s) as [|p ps] eqn:Hps; [done|].
    destruct (decide _) as [_|]; [|done].
    unfold TabSystem.keydown.
    replace (jseqb key (js "ArrowLeft") || jseqb key (js "ArrowRight"))
      with true by (by destruct Hkey as [->| ->]).
    assert (Hk : TabSystem.newIndex i d s = k).
    { unfold TabSystem.newIndex. subst k. rewrite Hb.
      rewrite Z.rem_mod_nonneg
        by (subst d; destruct (jseqb key (js "ArrowLeft")); simpl length; lia).
      rewrite <- Z.add_mod_idemp_r, Z.mod_same, Z.add_0_r by (simpl length; lia).
      done. }
    fold d. rewrite Hk. cbn [TabSystem.focused TabSystem.tabButtons TabSystem.tabPanels].
    split; [done|]. split.
    - apply (tab_switchTab_shows k s).
    - unfold TabSystem.switchTab. cbn [TabSystem.tabButtons TabSystem.tabPanels].
      rewrite length_imap, Hb, Hps. split; [done|]. done. }
  destruct (Hkey index (js "ArrowRight") st Hi Hp (or_intror eq_refl))
    as (Hf1 & Hs1 & Hl1 & Hp1).
  destruct (Hkey index (js "ArrowLeft") st Hi Hp (or_introl eq_refl))
    as (Hf2 & Hs2 & _ & _).
  change (jseqb (js "ArrowRight") (js "ArrowLeft")) with false in Hf1, Hs1.
  change (jseqb (js "ArrowLeft") (js "ArrowLeft")) with true in Hf2, Hs2.
  fold n next right in Hf1, Hs1, Hl1, Hp1.
  change (Z.of_nat index + -1) with (Z.of_nat index - 1) in Hf2, Hs2.
  fold n prev left in Hf2, Hs2.
  assert (Hnext : 0 <= next < n) by (apply Z.mod_pos_bound; lia).
  destruct (Hkey (Z.to_nat next) (js "ArrowLeft") right) as (Hf3 & Hs3 & _ & _).
  { rewrite Hl1. lia. }
  { done. }
  { by left. }
  change (jseqb (js "ArrowLeft") (js "ArrowLeft")) with true in Hf3, Hs3.
  fold back in Hf3, Hs3. rewrite Hl1 in Hf3, Hs3. fold n in Hf3, Hs3.
  assert (Hback : (Z.of_nat (Z.to_nat next) + -1) mod n = Z.of_nat index).
  { rewrite Z2Nat.id by lia. subst next.
    rewrite <- Z.add_mod_idemp_l, Z.mod_mod by lia.
    rewrite Z.add_mod_idemp_l by lia.
    replace (Z.of_nat index + 1 + -1) with (Z.of_nat index) by lia.
    apply Z.mod_small. lia. }
  rewrite Hback in Hf3, Hs3.
  done.
Qed.

Lemma tab_arrow_keys_wrap_witness :
  TabSystem.focused
    (TabSystem.handle (TabSystem.KeyDown 2 (js "ArrowRight"))
       TabSystem.threeTabs) = Some ((Z.of_nat 2 + 1) mod Z.of_nat 3).
Proof.
  refine (proj1 (tab_arrow_keys_wrap TabSystem.threeTabs 2 _ _)).
  - simpl. lia.
  - done.
Defined.

(** * Lazy loading of images *)

Lemma loadImage_idemp img :
  LazyLoader.loadImage (LazyLoader.loadImage img) = LazyLoader.loadImage img.
Proof.
  unfold LazyLoader.loadImage.
  destruct (LazyLoader.dataSrc img) as [s|] eqn:Hs; [|by rewrite Hs].
  destruct (truthy s) eqn:Ht; simpl; [done|by rewrite Hs, Ht].
Qed.

Lemma lazy_create_images supported document :
  LazyLoader.images (LazyLoader.create supported document)
  = if supported then LazyLoader.selected document
    else LazyLoader.loadImage <$> LazyLoader.selected document.
Proof.
  unfold LazyLoader.create. fold (LazyLoader.selected document).
  destruct (LazyLoader.selected document); by destruct supported.
Qed.

Lemma lazy_create_observed document i :
  i ∈ LazyLoader.observed (LazyLoader.create true document)
  <-> (i < length (LazyLoader.selected document))%nat.
Proof.
  unfold LazyLoader.create. fold (LazyLoader.selected document).
  destruct (LazyLoader.selected document) as [|x l] eqn:E.
  - simpl. split; [by intros ?%not_elem_of_empty|lia].
  - cbn [LazyLoader.observed]. rewrite elem_of_list_to_set, elem_of_seq. lia.
Qed.

Lemma lazy_onEntry_observed st e i :
  i ∈ LazyLoader.observed (LazyLoader.onEntry st e) ->
  i ∈ LazyLoader.observed st.
Proof.
  unfold LazyLoader.onEntry. destruct (snd e); [|done]. simpl.
  by intros [? _]%elem_of_difference.
Qed.

Lemma lazy_entries_observed es st i :
  i ∈ LazyLoader.observed (foldl LazyLoader.onEntry st es) ->
  i ∈ LazyLoader.observed st.
Proof.
  revert st. induction es as [|e es IH]; intros st; simpl; [done|].
  intros H%IH. by eapply lazy_onEntry_observed.
Qed.

Lemma lazy_run_observed batches st i :
  i ∈ LazyLoader.observed (LazyLoader.run batches st) ->
  i ∈ LazyLoader.observed st.
Proof.
  revert st. induction batches as [|b bs IH]; intros st; simpl; [done|].
  intros H%IH. by eapply lazy_entries_observed.
Qed.

Lemma lazy_entries_unobserve es st i :
  (i, true) ∈ es ->
  i ∉ LazyLoader.observed (foldl LazyLoader.onEntry st es).
Proof.
  revert st. induction es as [|e es IH]; intros st; [by intros ?%elem_of_nil|].
  intros [<-|H]%elem_of_cons; simpl.
  - intros Hi%lazy_entries_observed. unfold LazyLoader.onEntry in Hi.
    simpl in Hi. apply elem_of_difference in Hi as [_ Hi].
    apply Hi. by apply elem_of_singleton.
  - by apply IH.
Qed.

Lemma lazy_run_unobserve batches st i b :
  b ∈ batches -> (i, true) ∈ b ->
  i ∉ LazyLoader.observed (LazyLoader.run batches st).
Proof.
  revert st. induction batches as [|b0 bs IH]; intros st;
    [by intros ?%elem_of_nil|].
  intros [<-|H]%elem_of_cons Hi; simpl.
  - intros Ho%lazy_run_observed.
    destruct (decide (i ∈ LazyLoader.observed st)) as [Hin|Hout].
    + revert Ho. apply lazy_entries_unobserve.
      apply list_elem_of_filter. by split.
    + apply Hout. by eapply lazy_entries_observed.
  - by apply IH.
Qed.

Lemma lazy_inv_onEntry imgs st e :
  LazyLoader.inv imgs st -> LazyLoader.inv imgs (LazyLoader.onEntry st e).
Proof.
  intros [Hlen Hinv]. destruct e as [i b]. unfold LazyLoader.onEntry.
  destruct b; cbn [fst snd]; [|done].
  split; cbn [LazyLoader.images LazyLoader.observed].
  - by rewrite length_alter.
  - intros j img0 Hj. specialize (Hinv j img0 Hj).
    destruct (decide (i = j)) as [->|Hne].
    + rewrite list_lookup_alter, Hinv. cbn [fmap option_fmap option_map].
      rewrite (decide_False (P := j ∈ LazyLoader.observed st ∖ {[j]})).
      * destruct (decide (j = j)); [|done]. destruct (decide (j ∈ _)); [done|]. by rewrite loadImage_idemp.
      * intros [_ H]%elem_of_difference. apply H. by apply elem_of_singleton.
    + rewrite list_lookup_alter_ne, Hinv by done.
      destruct (decide (j ∈ LazyLoader.observed st)) as [Hin|Hout].
      * rewrite (decide_True (P := j ∈ LazyLoader.observed st ∖ {[i]})); [done|].
        apply elem_of_difference. split; [done|].
        intros ?%elem_of_singleton. congruence.
      * rewrite (decide_False (P := j ∈ LazyLoader.observed st ∖ {[i]})); [done|].
        by intros [? _]%elem_of_difference.
Qed.

Lemma lazy_inv_entries imgs es st :
  LazyLoader.inv imgs st -> LazyLoader.inv imgs (foldl LazyLoader.onEntry st es).
Proof.
  revert st. induction es as [|e es IH]; intros st H; simpl; [done|].
  by apply IH, lazy_inv_onEntry.
Qed.

Lemma lazy_inv_run imgs batches st :
  LazyLoader.inv imgs st -> LazyLoader.inv imgs (LazyLoader.run batches st).
Proof.
  revert st. induction batches as [|b bs IH]; intros st H; simpl; [done|].
  by apply IH, lazy_inv_entries.
Qed.

Lemma lazy_inv_create document :
  LazyLoader.inv (LazyLoader.selected document)
    (LazyLoader.create true document).
Proof.
  split.
  - by rewrite lazy_create_images.
  - intros i img0 Hi. rewrite lazy_create_images, Hi.
    rewrite decide_True; [done|].
    apply lazy_create_observed. by eapply lookup_lt_Some.
Qed.

(** X20. With an observer, whatever entries it reports, the loader keeps
    the images it selected at the start; an image is as the document
    had it while it is watched, and as [loadImage] leaves it once it is
    not; only selected images are ever watched. *)
Theorem lazy_image_loaded_once_unobserved batches document :
  let st := LazyLoader.run batches (LazyLoader.create true document) in
  length (LazyLoader.images st) = length (LazyLoader.selected document)
  /\ (forall i, i ∈ LazyLoader.observed st ->
        (i < length (LazyLoader.selected document))%nat)
  /\ forall i img0, LazyLoader.selected document !! i = Some img0 ->
       LazyLoader.images st !! i
       = Some (if decide (i ∈ LazyLoader.observed st) then img0
               else LazyLoader.loadImage img0).
Proof.
  simpl.
  destruct (lazy_inv_run _ batches _ (lazy_inv_create document)) as [H1 H2].
  split; [done|]. split; [|done].
  intros i Hi%lazy_run_observed. by apply lazy_create_observed.
Qed.

(** X21. Once every selected image has been reported as intersecting, the
    observer watches nothing and the images are exactly what the
    fallback without an observer makes of them at once. *)
Theorem lazy_observer_ends_as_fallback batches document :
  (forall i, (i < length (LazyLoader.selected document))%nat ->
     exists b, b ∈ batches /\ (i, true) ∈ b) ->
  let st := LazyLoader.run batches (LazyLoader.create true document) in
  LazyLoader.images st
  = LazyLoader.images (LazyLoader.create false document)
  /\ LazyLoader.observed st = ∅.
Proof.
  intros Hall st.
  destruct (lazy_inv_run _ batches _ (lazy_inv_create document)) as [H1 H2].
  fold st in H1, H2.
  assert (Hno : forall i, i ∉ LazyLoader.observed st).
  { intros i Hi.
    assert (Hlt : (i < length (LazyLoader.selected document))%nat).
    { apply lazy_create_observed. by eapply lazy_run_observed. }
    destruct (Hall i Hlt) as (b & Hb & Hib).
    by eapply lazy_run_unobserve. }
  split.
  - rewrite lazy_create_images. apply list_eq. intros i.
    rewrite list_lookup_fmap.
    destruct (LazyLoader.selected document !! i) as [img0|] eqn:Hi.
    + rewrite (H2 i img0 Hi), decide_False by apply Hno. done.
    + simpl. apply lookup_ge_None. rewrite H1. by apply lookup_ge_None.
  - apply set_eq. intros i. split; [by intros ?%Hno|by intros ?%not_elem_of_empty].
Qed.

Lemma lazy_observer_ends_as_fallback_witness :
  LazyLoader.images
    (LazyLoader.run [[(0%nat, true); (1%nat, false)]; [(1%nat, true)]]
       (LazyLoader.create true LazyLoader.gallery))
  = LazyLoader.images (LazyLoader.create false LazyLoader.gallery).
Proof.
  refine (proj1 (lazy_observer_ends_as_fallback
    [[(0%nat, true); (1%nat, false)]; [(1%nat, true)]] LazyLoader.gallery _)).
  intros i Hi.
  destruct i as [|[|i]].
  - exists [(0%nat, true); (1%nat, false)].
    split; apply list_elem_of_here.
  - exists [(1%nat, true)].
    split; [apply list_elem_of_further|]; apply list_elem_of_here.
  - exfalso. revert Hi. vm_compute. lia.
Defined.

(** * Breadcrumbs and image attributes *)

Lemma pathOf_cons segment segments :
  SEOOptimizer.pathOf (segment :: segments)
  = js "/" ++ segment ++ SEOOptimizer.pathOf segments.
Proof.
  unfold SEOOptimizer.pathOf. rewrite fmap_cons. cbn [concat].
  by rewrite <- (assoc_L _).
Qed.

Lemma split_nonempty sep s : SEOOptimizer.split sep s <> [].
Proof.
  destruct s as [|c s]; simpl; [done|].
  destruct (c =? sep)%N; [done|]. by destruct (SEOOptimizer.split sep s).
Qed.

Lemma split_app_nosep sep s rest h t :
  sep ∉ s -> SEOOptimizer.split sep rest = h :: t ->
  SEOOptimizer.split sep (s ++ rest) = (s ++ h) :: t.
Proof.
  intros Hs Hr. induction s as [|c s IH]; simpl; [done|].
  apply not_elem_of_cons in Hs as [Hc Hs].
  destruct (c =? sep)%N eqn:E; [apply N.eqb_eq in E; congruence|].
  by rewrite (IH Hs).
Qed.

Lemma split_pathOf segments :
  Forall (fun s => SEOOptimizer.slash ∉ s) segments ->
  SEOOptimizer.split SEOOptimizer.slash (SEOOptimizer.pathOf segments)
  = [] :: segments.
Proof.
  induction 1 as [|s segments Hs _ IH]; [done|].
  rewrite pathOf_cons. change (js "/") with [SEOOptimizer.slash].
  cbn [app SEOOptimizer.split]. rewrite N.eqb_refl.
  rewrite (split_app_nosep _ s _ [] segments Hs IH). by rewrite app_nil_r.
Qed.

Section SEOFacts.
Variable protoKey : jsstring -> bool.

Lemma breadcrumbs_fold origin segs cur acc :
  foldl
    (fun acc segment =>
       let currentPath := fst acc ++ js "/" ++ segment in
       (currentPath,
        snd acc ++ [{| SEOOptimizer.name := SEOOptimizer.getPageName protoKey segment;
                       SEOOptimizer.url := origin ++ currentPath |}]))
    (cur, acc) segs
  = (cur ++ SEOOptimizer.pathOf segs,
     acc ++ imap (fun k segment =>
                    {| SEOOptimizer.name := SEOOptimizer.getPageName protoKey segment;
                       SEOOptimizer.url :=
                         origin ++ cur ++ SEOOptimizer.pathOf (take (S k) segs) |})
              segs).
Proof.
  revert cur acc. induction segs as [|s segs IH]; intros cur acc.
  - simpl. by rewrite !app_nil_r.
  - cbn [foldl fst snd]. rewrite IH, pathOf_cons. cbn [imap].
    f_equal; [by rewrite <- !(assoc_L _)|].
    rewrite <- (assoc_L _). f_equal. cbn [app]. f_equal.
    + cbn [take]. rewrite pathOf_cons. unfold SEOOptimizer.pathOf.
      cbn [fmap list_fmap concat]. by rewrite app_nil_r.
    + apply imap_ext. intros k x _. unfold compose. f_equal.
      cbn [take]. rewrite pathOf_cons. by rewrite <- !(assoc_L _).
Qed.

Lemma breadcrumbs_imap path origin :
  SEOOptimizer.generateBreadcrumbs protoKey path origin
  = {| SEOOptimizer.name := SEOOptimizer.Str (js "首页");
       SEOOptimizer.url := origin |}
    :: imap (fun k segment =>
               {| SEOOptimizer.name := SEOOptimizer.getPageName protoKey segment;
                  SEOOptimizer.url :=
                    origin ++ SEOOptimizer.pathOf
                                (take (S k) (SEOOptimizer.segmentsOf path)) |})
         (SEOOptimizer.segmentsOf path).
Proof.
  unfold SEOOptimizer.generateBreadcrumbs.
  fold (SEOOptimizer.segmentsOf path).
  by rewrite breadcrumbs_fold.
Qed.

(** X22. The breadcrumbs of a path are the home crumb with the origin as
    its url, followed by one crumb for each non-empty segment of the
    path, in order; the url of the crumb of a segment is the origin
    followed by the segments up to and including it, each after one
    slash. *)
Theorem breadcrumbs_closed_form path origin :
  SEOOptimizer.generateBreadcrumbs protoKey path origin
  = {| SEOOptimizer.name := SEOOptimizer.Str (js "首页");
       SEOOptimizer.url := origin |}
    :: imap (fun k segment =>
               {| SEOOptimizer.name := SEOOptimizer.getPageName protoKey segment;
                  SEOOptimizer.url :=
                    origin ++ SEOOptimizer.pathOf
                                (take (S k) (SEOOptimizer.segmentsOf path)) |})
         (SEOOptimizer.segmentsOf path).
Proof.
  unfold SEOOptimizer.generateBreadcrumbs.
  fold (SEOOptimizer.segmentsOf path).
  by rewrite breadcrumbs_fold.
Qed.

Lemma last_imap {A B} (f : nat -> A -> B) (l : list A) x :
  last l = Some x -> last (imap f l) = Some (f (pred (length l)) x).
Proof.
  revert f. induction l as [|y l IH]; intros f; [done|].
  destruct l as [|z l].
  - simpl. by intros [= ->].
  - rewrite last_cons_cons. intros H. cbn [imap].
    change (imap (f ∘ Datatypes.S) (z :: l))
      with ((f ∘ Datatypes.S) 0%nat z :: imap ((f ∘ Datatypes.S) ∘ Datatypes.S) l).
    rewrite last_cons_cons.
    change ((f ∘ Datatypes.S) 0%nat z :: imap ((f ∘ Datatypes.S) ∘ Datatypes.S) l)
      with (imap (f ∘ Datatypes.S) (z :: l)).
    by rewrite (IH _ H).
Qed.

(** X23. For a path made of non-empty segments without a slash, each
    after one slash, the segments found are these segments, and the url
    of the last breadcrumb is the origin followed by the path. *)
Theorem breadcrumbs_of_clean_path segments origin :
  Forall (fun s => s <> [] /\ SEOOptimizer.slash ∉ s) segments ->
  let path := SEOOptimizer.pathOf segments in
  SEOOptimizer.segmentsOf path = segments
  /\ SEOOptimizer.url
       <$> last (SEOOptimizer.generateBreadcrumbs protoKey path origin)
     = Some (origin ++ path).
Proof.
  intros Hs path.
  assert (Hseg : SEOOptimizer.segmentsOf path = segments).
  { unfold SEOOptimizer.segmentsOf, path. rewrite split_pathOf.
    - rewrite filter_cons_False by done.
      clear path. induction Hs as [|s l [Hne _] _ IH]; [done|].
      rewrite filter_cons_True by (by destruct s). by rewrite IH.
    - eapply Forall_impl; [exact Hs|]. by intros s [_ ?]. }
  split; [done|].
  rewrite breadcrumbs_imap, Hseg.
  destruct (last segments) as [s|] eqn:Hl.
  - rewrite last_cons, (last_imap _ _ _ Hl).
    cbn [fmap option_fmap option_map SEOOptimizer.url].
    rewrite take_ge; [done|]. clear. destruct segments; simpl; repeat constructor.
  - apply last_None in Hl. subst path. rewrite Hl. simpl. by rewrite app_nil_r.
Qed.

(** X24. No script is appended exactly when the path has no non-empty
    segment.  Otherwise the list has one item for the home page and one
    for each segment; the item at index [k] has position [k + 1] and the
    name and url of the breadcrumb at that index. *)
Theorem structured_data_items path origin :
  match SEOOptimizer.addStructuredData protoKey path origin with
  | None => SEOOptimizer.segmentsOf path = []
  | Some items =>
      SEOOptimizer.segmentsOf path <> []
      /\ length items = Datatypes.S (length (SEOOptimizer.segmentsOf path))
      /\ SEOOptimizer.position <$> items
         = Z.of_nat <$> seq 1 (length items)
      /\ SEOOptimizer.itemName <$> items
         = SEOOptimizer.name
             <$> SEOOptimizer.generateBreadcrumbs protoKey path origin
      /\ SEOOptimizer.item <$> items
         = SEOOptimizer.url
             <$> SEOOptimizer.generateBreadcrumbs protoKey path origin
  end.
Proof.
  unfold SEOOptimizer.addStructuredData.
  assert (Hlen : length (SEOOptimizer.generateBreadcrumbs protoKey path origin)
                 = Datatypes.S (length (SEOOptimizer.segmentsOf path))).
  { rewrite breadcrumbs_imap. simpl. by rewrite length_imap. }
  generalize dependent (SEOOptimizer.generateBreadcrumbs protoKey path origin).
  intros crumbs Hlen.
  destruct (decide _) as [Hgt|Hle].
  - split; [intros E; rewrite E in Hlen; simpl in Hlen; lia|].
    rewrite length_imap. split; [done|].
    assert (Hpos : forall (l : list SEOOptimizer.Crumb) (n : nat),
      SEOOptimizer.position <$>
        imap (fun index it =>
                {| SEOOptimizer.position := Z.of_nat (n + index) + 1;
                   SEOOptimizer.itemName := SEOOptimizer.name it;
                   SEOOptimizer.item := SEOOptimizer.url it |}) l
      = Z.of_nat <$> seq (Datatypes.S n) (length l)).
    { clear. induction l as [|c l IH]; intros n; [done|].
      cbn [imap fmap list_fmap length seq SEOOptimizer.position].
      f_equal; [lia|]. rewrite <- (IH (Datatypes.S n)). f_equal.
      apply imap_ext. intros k x _. unfold compose. f_equal. lia. }
    split; [exact (Hpos crumbs 0%nat)|].
    split; apply list_eq; intros k;
      rewrite !list_lookup_fmap, list_lookup_imap;
      by destruct (crumbs !! k).
  - destruct (SEOOptimizer.segmentsOf path); [done|]. simpl in Hlen. lia.
Qed.




End SEOFacts.

Lemma breadcrumbs_of_clean_path_witness :
  SEOOptimizer.segmentsOf (SEOOptimizer.pathOf [js "sms"; js "faq"])
  = [js "sms"; js "faq"].
Proof.
  refine (proj1 (breadcrumbs_of_clean_path (fun _ => false)
                   [js "sms"; js "faq"] (js "https://example.org") _)).
  apply (bool_decide_unpack _). by vm_compute.
Defined.

(** X26. [optimizeImages] gives every image a [loading] and an [alt]
    attribute: an attribute that the image has keeps its value, a
    missing [loading] becomes "lazy" and a missing [alt] the empty
    string.  Running it again changes nothing. *)
Theorem optimizeImages_fills_missing images :
  let out := SEOOptimizer.optimizeImages images in
  length out = length images
  /\ (forall k img, images !! k = Some img ->
        out !! k
        = Some {| SEOOptimizer.loading :=
                    Some (default (js "lazy") (SEOOptimizer.loading img));
                  SEOOptimizer.alt :=
                    Some (default [] (SEOOptimizer.alt img)) |})
  /\ SEOOptimizer.optimizeImages out = out.
Proof.
  unfold SEOOptimizer.optimizeImages. cbn zeta.
  split; [by rewrite length_fmap|]. split.
  - intros k [l a] Hk. rewrite list_lookup_fmap, Hk.
    by destruct l, a.
  - rewrite <- list_fmap_compose. apply list_fmap_ext.
    intros k [l a] _. by destruct l, a.
Qed.
